(** * berch-v2: the sharded crawl-state pipeline, embedded in Rocq

    The development follows the JavaScript sources:
    - [utils.js]: [parseDate], [createInternalId], [updateMatchDate],
      [dedupeEvents];
    - [schema.js]: [validateMatch], [createMatch], [createMatchDetails],
      [createMatchH2H];
    - [scrape-match-summary.js]: the worker's own [dedupeEvents], the date
      and team ids of the summary, the clean-up of the events;
    - [database.js]: [saveMatches], [saveMatchDetails], [saveMatchH2H],
      [updateMatchStatus], [getMatchesForProcessing], [getFullMatchData],
      [saveCheckpoint], [getCheckpoint], [saveLeagues], [getLeagues];
    - [export-batches.js]: the query, the export loop and [flush];
    - [scrape-batch.js], [scrape-batch-with-mem.js]: the batch loops and
      the script around the first;
    - [import-artifacts.js]: [main], from the listing of the directory to
      the counters;
    - [fetch-artifacts.js]: the pages of the artifact list, the filter and
      the names of the files it writes.

    MongoDB documents are finite maps from field names to values, collections
    are lists of documents in natural order, and code that can throw returns
    an [outcome]. *)

From stdpp Require Import gmap strings list fin_maps.
From Stdlib Require Import ZArith Ascii DecimalString DecimalZ Sorting.Sorted
  Permutation.

Open Scope Z_scope.

(** ** JavaScript values *)

Module JS.

(** Primitive values.  Numbers are the integers among the doubles (minutes,
    sequence numbers, counters); there is no NaN and no negative zero. *)
Inductive prim :=
  | PUndefined
  | PNull
  | PBool (b : bool)
  | PNum (n : Z)
  | PStr (s : string).

#[global] Instance prim_eq_dec : EqDecision prim.
Proof. solve_decision. Defined.

(** An event object as the extractor and the reconciler see it.  A property
    that is absent reads as [PUndefined]; [others] are the properties the
    reconciler never looks at. *)
Record Event := {
  minute : prim;
  type : prim;
  player : prim;
  assist : prim;
  isOwnGoal : prim;
  others : list (string * prim)
}.

#[global] Instance Event_eq_dec : EqDecision Event.
Proof. solve_decision. Defined.

(** Values: primitives, [Date] objects ([None] is the invalid date, whose
    time value is NaN), arrays of event objects, and other structured
    payloads kept as their JSON text. *)
Inductive jsval :=
  | JPrim (p : prim)
  | JDate (t : option Z)
  | JEvents (events : list Event)
  | JData (json : string).

Coercion JPrim : prim >-> jsval.

#[global] Instance jsval_eq_dec : EqDecision jsval.
Proof. solve_decision. Defined.

(** What can be thrown. *)
Record MongoResult := { nInserted : option Z }.
Record BulkResult := { result_ : option MongoResult }.
Record MongoError := { code : Z; result : option BulkResult }.

Inductive exn :=
  | TypeError (msg : string)
  | StoreError (e : MongoError)
  | IOError (path : string).

Inductive outcome (A : Type) :=
  | Ok (a : A)
  | Throw (e : exn).

Arguments Ok {A} a.
Arguments Throw {A} e.

#[global] Instance outcome_ret : MRet outcome := fun A a => Ok a.

#[global] Instance outcome_bind : MBind outcome := fun A B k m =>
  match m with
  | Ok a => k a
  | Throw e => Throw e
  end.

(** ToBoolean *)
Definition truthyP (p : prim) : bool :=
  match p with
  | PUndefined | PNull => false
  | PBool b => b
  | PNum n => negb (n =? 0)
  | PStr s => negb (String.eqb s "")
  end.

Definition truthy (v : jsval) : bool :=
  match v with
  | JPrim p => truthyP p
  | _ => true
  end.

(** [a || b] *)
Definition orElse (a b : jsval) : jsval := if truthy a then a else b.

(** [===] on primitives *)
Definition strictEq (a b : prim) : bool := bool_decide (a = b).

(** ToString on primitives; integers print in decimal. *)
Definition numToString (n : Z) : string := NilZero.string_of_int (Z.to_int n).

Definition toString (p : prim) : string :=
  match p with
  | PUndefined => "undefined"
  | PNull => "null"
  | PBool true => "true"
  | PBool false => "false"
  | PNum n => numToString n
  | PStr s => s
  end.

(** [Array.prototype.join]: [undefined] and [null] elements print as the
    empty string. *)
Definition joinElem (p : prim) : string :=
  match p with
  | PUndefined | PNull => ""
  | _ => toString p
  end.

Definition join (sep : string) (l : list prim) : string :=
  String.concat sep (map joinElem l).

(** [Array.prototype.findIndex], counting from [i]. *)
Fixpoint findIndexFrom {A} (p : A → bool) (l : list A) (i : Z) : Z :=
  match l with
  | [] => -1
  | x :: t => if p x then i else findIndexFrom p t (i + 1)
  end.

Definition findIndex {A} (p : A → bool) (l : list A) : Z := findIndexFrom p l 0.

(** [Array.prototype.filter] with the callback's [(element, index, array)]. *)
Fixpoint filterFrom {A} (p : A → Z → list A → bool) (self l : list A) (i : Z)
  : list A :=
  match l with
  | [] => []
  | x :: t =>
      if p x i self then x :: filterFrom p self t (i + 1)
      else filterFrom p self t (i + 1)
  end.

Definition filterIdx {A} (p : A → Z → list A → bool) (l : list A) : list A :=
  filterFrom p l l 0.

(** [String.prototype.padStart] with a one-character filler. *)
Definition padStart (n : nat) (c : ascii) (s : string) : string :=
  String.concat "" (repeat (String c "") (n - String.length s)%nat) +:+ s.

(** [String.prototype.split] on a one-character separator. *)
Fixpoint splitOn (c : ascii) (s : string) : list string :=
  match s with
  | "" => [""]
  | String a rest =>
      if Ascii.eqb a c then "" :: splitOn c rest
      else match splitOn c rest with
           | [] => [String a ""]
           | w :: ws => String a w :: ws
           end
  end.

(** [s.replace(/c/g, '')] *)
Fixpoint removeChar (c : ascii) (s : string) : string :=
  match s with
  | "" => ""
  | String a rest =>
      if Ascii.eqb a c then removeChar c rest else String a (removeChar c rest)
  end.

End JS.

Export JS.

(** ** utils.js *)

Module Utils.

(** *** [createInternalId] *)

(** The class [a-z0-9] *)
Definition isLowerAlnum (a : ascii) : bool :=
  let n := nat_of_ascii a in
  (((97 <=? n) && (n <=? 122)) || ((48 <=? n) && (n <=? 57)))%nat.

(** [s.replace(/[^a-z0-9]/g, '')]: of the text only the characters [a] to
    [z] and [0] to [9] stay.  Each of them is one character of the text as
    it is held here, also when a character beyond ASCII takes more than
    one. *)
Fixpoint keepLowerAlnum (s : string) : string :=
  match s with
  | EmptyString => EmptyString
  | String a rest =>
      if isLowerAlnum a then String a (keepLowerAlnum rest)
      else keepLowerAlnum rest
  end.

(** [str?.toLowerCase().replace(/[^a-z0-9]/g, '') || '']: the call is
    skipped for [null] and [undefined]; a value that is no string has no
    [toLowerCase] to call.  [toLowerCase] is the engine's
    [String.prototype.toLowerCase], which lowers a text by the Unicode
    tables the engine ships. *)
Definition normalize (toLowerCase : string → string) (str : jsval)
  : outcome string :=
  match str with
  | JPrim PUndefined | JPrim PNull => Ok ""
  | JPrim (PStr s) =>
      let r := keepLowerAlnum (toLowerCase s) in
      Ok (if String.eqb r "" then "" else r)
  | _ => Throw (TypeError "str?.toLowerCase is not a function")
  end.

(** The civil date (year, month, day) of a day number counted from
    1970-01-01, in the proleptic Gregorian calendar. *)
Definition civilFromDays (days : Z) : Z * Z * Z :=
  let z := days + 719468 in
  let era := z / 146097 in
  let doe := z - era * 146097 in
  let yoe := (doe - doe / 1460 + doe / 36524 - doe / 146096) / 365 in
  let doy := doe - (365 * yoe + yoe / 4 - yoe / 100) in
  let mp := (5 * doy + 2) / 153 in
  let d := doy - (153 * mp + 2) / 5 + 1 in
  let m := if mp <? 10 then mp + 3 else mp - 9 in
  let y := yoe + era * 400 + (if m <=? 2 then 1 else 0) in
  (y, m, d).

Definition pad (n : nat) (v : Z) : string := padStart n "0" (numToString v).

(** Years 0 to 9999 print with four digits, the others with a sign and
    six digits. *)
Definition yearString (y : Z) : string :=
  if (0 <=? y) && (y <=? 9999) then pad 4 y
  else (if y <? 0 then "-" else "+") +:+ pad 6 (Z.abs y).

(** [Date.prototype.toISOString] of a valid date with time value [t]
    (milliseconds since the epoch, UTC). *)
Definition toISOString (t : Z) : string :=
  let ms := t mod 86400000 in
  let '(y, m, d) := civilFromDays (t / 86400000) in
  yearString y +:+ "-" +:+ pad 2 m +:+ "-" +:+ pad 2 d
  +:+ "T" +:+ pad 2 (ms / 3600000) +:+ ":" +:+ pad 2 (ms / 60000 mod 60)
  +:+ ":" +:+ pad 2 (ms / 1000 mod 60) +:+ "." +:+ pad 3 (ms mod 1000) +:+ "Z".

(** [date.toISOString().split('T')[0].replace(/-/g, '')] when [date] is a
    valid [Date], else the empty string. *)
Definition datePartOf (date : jsval) : string :=
  match date with
  | JDate (Some t) => removeChar "-" (hd "" (splitOn "T" (toISOString t)))
  | _ => ""
  end.

Definition createInternalId (toLowerCase : string → string)
    (homeTeam awayTeam date : jsval) : outcome string :=
  let datePart := datePartOf date in
  home ← normalize toLowerCase homeTeam;
  away ← normalize toLowerCase awayTeam;
  Ok (datePart +:+ "_" +:+ home +:+ "_vs_" +:+ away).

(** *** [dedupeEvents] *)

Definition setAssist (v : prim) (e : Event) : Event :=
  {| minute := minute e; type := type e; player := player e;
     assist := v; isOwnGoal := isOwnGoal e; others := others e |}.

Definition setIsOwnGoal (v : prim) (e : Event) : Event :=
  {| minute := minute e; type := type e; player := player e;
     assist := assist e; isOwnGoal := v; others := others e |}.

(** [[e.minute, e.type, e.player].join('|')] *)
Definition eventKey (e : Event) : string :=
  join "|" [minute e; type e; player e].

(** The [Map] of the reconciler: entries in insertion order, keys distinct. *)
Abbreviation EventMap := (list (string * Event)).

Fixpoint mapHas (k : string) (m : EventMap) : bool :=
  match m with
  | [] => false
  | (k', _) :: t => if String.eqb k k' then true else mapHas k t
  end.

(** [byKey.get(key)] returns the stored object itself, so the assignments
    to [stored] update the entry in place. *)
Fixpoint mapUpdate (k : string) (f : Event → Event) (m : EventMap) : EventMap :=
  match m with
  | [] => []
  | (k', v) :: t =>
      if String.eqb k k' then (k', f v) :: t else (k', v) :: mapUpdate k f t
  end.

(** The body of the loop after the first sighting. *)
Definition merge (stored e : Event) : Event :=
  let s1 :=
    if negb (truthyP (assist stored)) && truthyP (assist e)
    then setAssist (assist e) stored else stored in
  if truthyP (isOwnGoal e) then setIsOwnGoal (PBool true) s1 else s1.

Definition dedupeStep (byKey : EventMap) (e : Event) : EventMap :=
  let key := eventKey e in
  if negb (mapHas key byKey) then byKey ++ [(key, e)]
  else mapUpdate key (fun stored => merge stored e) byKey.

Definition dedupeEvents (raw : list Event) : list Event :=
  map snd (fold_left dedupeStep raw []).

End Utils.

(** ** scrape-match-summary.js: the worker's dedupe *)

Module Summary.

Import Utils.

Definition sameTriple (event e : Event) : bool :=
  strictEq (minute e) (minute event)
  && strictEq (type e) (type event)
  && strictEq (player e) (player event).

Definition dedupeEvents (events : list Event) : list Event :=
  filterIdx (fun event index self => index =? findIndex (sameTriple event) self)
    events.

Definition setType (v : prim) (e : Event) : Event :=
  {| minute := minute e; type := v; player := player e;
     assist := assist e; isOwnGoal := isOwnGoal e; others := others e |}.

(** The clean-up of an extracted event: the diagnostic properties are
    dropped and an own goal becomes a goal that is flagged. *)
Definition diagnostic (name : string) : bool :=
  bool_decide (name ∈ ["hasHomeScore"; "hasAwayScore"; "hasSoccerIcon";
                       "hasGoalClass"; "goalTextMatch"]).

Definition stripEvent (event : Event) : Event :=
  let clean :=
    {| minute := minute event; type := type event; player := player event;
       assist := assist event; isOwnGoal := isOwnGoal event;
       others := List.filter (fun kv => negb (diagnostic (fst kv)))
                   (others event) |} in
  if strictEq (type event) (PStr "ownGoal")
  then setIsOwnGoal (PBool true) (setType (PStr "goal") clean)
  else clean.

(** The [events] of the summary: the cleaned list, or null when it is
    empty. *)
Definition summaryEvents (events : list Event) : jsval :=
  let cleanedEvents := dedupeEvents (map stripEvent events) in
  if (length cleanedEvents =? 0)%nat then JPrim PNull
  else JEvents cleanedEvents.

End Summary.

(** ** Vocabulary of the reconciler's contract *)

Module Reconcile.

Import Utils.





(** An event without assist or flag, and the two sightings of the example. *)
Definition plainEvent (m t p a : prim) : Event :=
  {| minute := m; type := t; player := p; assist := a;
     isOwnGoal := PUndefined; others := [] |}.

Definition goalNoAssist : Event :=
  plainEvent (PNum 5) (PStr "goal") (PStr "A") PUndefined.

Definition goalWithAssist : Event :=
  plainEvent (PNum 5) (PStr "goal") (PStr "A") (PStr "B").

(** The same goal as the page reports it, twice: the minute as text, the
    missing assist as null. *)
Definition pageGoal (a : prim) : Event :=
  plainEvent (PStr "5'") (PStr "goal") (PStr "A") a.

End Reconcile.

(** ** The document store, as the driver presents it *)

Module Mongo.

(** A document maps field names to values; a collection keeps its documents
    in natural (insertion) order. *)
Abbreviation Doc := (gmap string jsval).
Abbreviation Collection := (list (gmap string jsval)).

(** The driver writes [undefined] as null. *)
Definition toBson (v : jsval) : jsval :=
  match v with
  | JPrim PUndefined => JPrim PNull
  | _ => v
  end.

(** [d.f] in JavaScript: a missing property reads as [undefined]. *)
Definition getField (f : string) (d : gmap string jsval) : jsval :=
  default (JPrim PUndefined) (d !! f).

(** *** Query operators *)

(** [{f: v}]: the field equals the value; a null value also matches a
    document without the field. *)
Definition fieldEq (f : string) (v : jsval) (d : gmap string jsval) : bool :=
  match d !! f with
  | Some w => bool_decide (w = toBson v)
  | None => bool_decide (toBson v = JPrim PNull)
  end.

(** [{f: {$in: vs}}] and [{f: {$nin: vs}}] *)
Definition fieldIn (f : string) (vs : list jsval) (d : gmap string jsval) : bool :=
  existsb (fun v => fieldEq f v d) vs.

Definition fieldNin (f : string) (vs : list jsval) (d : gmap string jsval) : bool :=
  negb (fieldIn f vs d).

(** [{f: {$gte: n}}] and [{f: {$lt: n}}] with a number: only documents whose
    field is a number can match. *)
Definition fieldGte (f : string) (n : Z) (d : gmap string jsval) : bool :=
  match d !! f with
  | Some (JPrim (PNum m)) => n <=? m
  | _ => false
  end.

Definition fieldLt (f : string) (n : Z) (d : gmap string jsval) : bool :=
  match d !! f with
  | Some (JPrim (PNum m)) => m <? n
  | _ => false
  end.

(** *** Update operators *)

(** [{$set: s}]: the fields of [s] replace those of the document. *)
Definition set (s d : gmap string jsval) : gmap string jsval :=
  (toBson <$> s) ∪ d.

(** [{$inc: {f: n}}]: a missing field counts from zero; a field that is not
    a number is left alone here (the server rejects the update). *)
Definition inc (f : string) (n : Z) (d : gmap string jsval) : gmap string jsval :=
  match d !! f with
  | None => <[f := JPrim (PNum n)]> d
  | Some (JPrim (PNum m)) => <[f := JPrim (PNum (m + n))]> d
  | Some _ => d
  end.

(** *** Collection operations *)

(** [findOne(q)]: the first match in natural order. *)
Definition findOne (q : gmap string jsval → bool) (c : list (gmap string jsval))
  : option (gmap string jsval) :=
  List.find q c.

Definition find (q : gmap string jsval → bool) (c : list (gmap string jsval))
  : list (gmap string jsval) :=
  List.filter q c.

(** [updateOne(q, u)]: the first match is updated; the flag tells whether
    there was one. *)
Fixpoint updateOne (q : gmap string jsval → bool)
    (u : gmap string jsval → gmap string jsval)
    (c : list (gmap string jsval)) : list (gmap string jsval) * bool :=
  match c with
  | [] => ([], false)
  | d :: t =>
      if q d then (u d :: t, true)
      else let '(t', hit) := updateOne q u t in (d :: t', hit)
  end.

(** [updateOne({f: v}, u, {upsert: true})]: without a match a document is
    inserted, built from the equality clause of the query and then updated. *)
Definition upsertOne (f : string) (v : jsval)
    (u : gmap string jsval → gmap string jsval)
    (c : list (gmap string jsval)) : list (gmap string jsval) :=
  let '(c', hit) := updateOne (fieldEq f v) u c in
  if hit then c' else c ++ [u {[ f := toBson v ]}].

(** [updateMany(q, u)] *)
Definition updateMany (q : gmap string jsval → bool)
    (u : gmap string jsval → gmap string jsval)
    (c : list (gmap string jsval)) : list (gmap string jsval) :=
  map (fun d => if q d then u d else d) c.

(** [project({f1: 1, ..., _id: 0})] *)
Definition project (fs : list string) (d : gmap string jsval) : gmap string jsval :=
  filter (fun kv => kv.1 ∈ fs) d.

(** *** Sorting *)

(** The comparison order of values: missing and null first, then numbers,
    strings, structured values, booleans, dates. *)
Definition typeRank (v : option jsval) : Z :=
  match v with
  | None | Some (JPrim PUndefined) | Some (JPrim PNull) => 1
  | Some (JPrim (PNum _)) => 2
  | Some (JPrim (PStr _)) => 3
  | Some (JData _) => 4
  | Some (JEvents _) => 5
  | Some (JPrim (PBool _)) => 8
  | Some (JDate _) => 9
  end.

Definition valueLeb (a b : option jsval) : bool :=
  if typeRank a <? typeRank b then true
  else if typeRank b <? typeRank a then false
  else match a, b with
       | Some (JPrim (PNum x)), Some (JPrim (PNum y)) => x <=? y
       | Some (JPrim (PStr x)), Some (JPrim (PStr y)) => String.leb x y
       | Some (JPrim (PBool x)), Some (JPrim (PBool y)) => implb x y
       | Some (JDate (Some x)), Some (JDate (Some y)) => x <=? y
       | Some (JDate None), Some (JDate (Some _)) => true
       | Some (JDate (Some _)), Some (JDate None) => false
       | _, _ => true
       end.

(** [{f: 1}]: ascending on one field. *)
Definition fieldLeb (f : string) (d1 d2 : gmap string jsval) : bool :=
  valueLeb (d1 !! f) (d2 !! f).

(** The sort keeps documents with equal keys in natural order. *)
Fixpoint insertBy {A} (le : A → A → bool) (x : A) (l : list A) : list A :=
  match l with
  | [] => [x]
  | y :: t => if le x y then x :: y :: t else y :: insertBy le x t
  end.

Definition sortBy {A} (le : A → A → bool) (l : list A) : list A :=
  fold_right (insertBy le) [] l.

(** A list in ascending order: each element is below its successor. *)
Definition ascending {A} (le : A → A → bool) (l : list A) : Prop :=
  Sorted (fun x y => le x y = true) l.

(** [limit(n)]: zero means no limit, a negative number counts as its
    absolute value. *)
Definition limit {A} (n : Z) (l : list A) : list A :=
  if n =? 0 then l else firstn (Z.abs_nat n) l.

(** *** Bulk insert under a unique index *)

(** The key of the unique index on [matchId]; a document without the field
    is indexed under null. *)
Definition indexKey (d : gmap string jsval) : jsval :=
  default (JPrim PNull) (d !! "matchId").

Definition keyTaken (k : jsval) (c : list (gmap string jsval)) : bool :=
  existsb (fun d => bool_decide (indexKey d = k)) c.

(** [insertMany(docs, {ordered: false})]: every document is tried; those
    whose key is taken are refused.  Returns the collection and the number
    of documents inserted and refused. *)
Fixpoint insertUnordered (docs c : list (gmap string jsval))
  : list (gmap string jsval) * Z * Z :=
  match docs with
  | [] => (c, 0, 0)
  | d :: t =>
      if keyTaken (indexKey d) c then
        let '(c', n, r) := insertUnordered t c in (c', n, r + 1)
      else
        let '(c', n, r) := insertUnordered t (c ++ [d]) in (c', n + 1, r)
  end.

(** The duplicate-key error of a bulk write, in the shape the code reads:
    code 11000 and the count at [err.result.result.nInserted]. *)
Definition duplicateKeyError (n : Z) : MongoError :=
  {| code := 11000;
     result := Some {| result_ := Some {| nInserted := Some n |} |} |}.

Record InsertManyResult := { insertedCount : Z }.

(** [fault] is a failure of the store that is no write error (connection
    lost, not authorised): the call then throws it and inserts nothing. *)
Definition insertMany (fault : option MongoError)
    (docs c : list (gmap string jsval))
  : list (gmap string jsval) * outcome InsertManyResult :=
  match fault with
  | Some e => (c, Throw (StoreError e))
  | None =>
      let '(c', n, r) := insertUnordered docs c in
      if r =? 0 then (c', Ok {| insertedCount := n |})
      else (c', Throw (StoreError (duplicateKeyError n)))
  end.

End Mongo.

(** ** database.js *)

Module Database.

Import Mongo.

Record Store := {
  matches : list (gmap string jsval);
  match_details : list (gmap string jsval)
}.

Definition withMatches (c : list (gmap string jsval)) (st : Store) : Store :=
  {| matches := c; match_details := match_details st |}.

Definition withDetails (c : list (gmap string jsval)) (st : Store) : Store :=
  {| matches := matches st; match_details := c |}.

(** [err.result?.result?.nInserted ?? 0] *)
Definition nInsertedOf (err : MongoError) : Z :=
  match result err with
  | Some r =>
      match result_ r with
      | Some rr => default 0 (nInserted rr)
      | None => 0
      end
  | None => 0
  end.

(** [saveMatches(matches)].  [arg] is [None] when the argument is no array;
    [now] is the clock. *)
Definition saveMatches (fault : option MongoError) (now : Z)
    (arg : option (list (gmap string jsval))) (st : Store)
  : Store * outcome Z :=
  match arg with
  | None | Some [] => (st, Ok 0)
  | Some ms =>
      let docs := map (fun m => <["createdAt" := JDate (Some now)]> m) ms in
      match insertMany fault docs (matches st) with
      | (c', Ok res) => (withMatches c' st, Ok (insertedCount res))
      | (c', Throw (StoreError err)) =>
          if code err =? 11000 then (withMatches c' st, Ok (nInsertedOf err))
          else (withMatches c' st, Throw (StoreError err))
      | (c', Throw e) => (withMatches c' st, Throw e)
      end
  end.

(** [saveMatchDetails(details)]: returns whether a document was inserted or
    changed. *)
Definition saveMatchDetails (now : Z) (details : gmap string jsval) (st : Store)
  : Store * bool :=
  let u := set (<["updatedAt" := JDate (Some now)]> details) in
  let c' := upsertOne "matchId" (getField "matchId" details) u (match_details st) in
  (withDetails c' st, bool_decide (c' ≠ match_details st)).

(** [updateMatchStatus(matchId, status)] *)
Definition updateMatchStatus (now : Z) (matchId status : jsval) (st : Store)
  : Store * bool :=
  let u d :=
    inc "processingAttempts" 1
      (set {[ "processingStatus" := status; "updatedAt" := JDate (Some now) ]} d) in
  let '(c', hit) := updateOne (fieldEq "matchId" matchId) u (matches st) in
  (withMatches c' st, hit).

(** The options of [getMatchesForProcessing], defaults applied. *)
Inductive StatusOption :=
  | OneStatus (s : jsval)
  | AnyStatus (ss : list jsval).

Record Options := {
  status : StatusOption;
  country : jsval;
  league : jsval;
  team : jsval;
  limit : Z;
  maxAttempts : Z;
  excludePairs : option (list string)
}.


(** [pair.split('-')] destructured into its first two parts. *)
Definition excludeCondition (pair : string) (d : gmap string jsval) : bool :=
  let parts := map (fun s => JPrim (PStr s)) (splitOn "-" pair) in
  fieldEq "country" (nth 0 parts (JPrim PUndefined)) d
  && fieldEq "league" (nth 1 parts (JPrim PUndefined)) d.

Definition statusCondition (s : StatusOption) (d : gmap string jsval) : bool :=
  match s with
  | OneStatus v => fieldEq "processingStatus" v d
  | AnyStatus vs => fieldIn "processingStatus" vs d
  end.

Definition processingQuery (o : Options) (d : gmap string jsval) : bool :=
  statusCondition (status o) d
  && fieldLt "processingAttempts" (maxAttempts o) d
  && (if truthy (country o) then fieldEq "country" (country o) d else true)
  && (if truthy (league o) then fieldEq "league" (league o) d else true)
  && (if truthy (team o) then fieldEq "team" (team o) d else true)
  && match excludePairs o with
     | Some pairs => negb (existsb (fun pair => excludeCondition pair d) pairs)
     | None => true
     end.

(** The sort of [getMatchesForProcessing] is chosen from one sampled
    document, the first of the whole collection. *)
Definition sortField (c : list (gmap string jsval)) : string :=
  match findOne (fun _ => true) c with
  | Some sampleMatch =>
      if bool_decide (getField "scrapeId" sampleMatch ≠ JPrim PUndefined)
      then "scrapeId" else "scrapedAt"
  | None => "scrapedAt"
  end.

Definition getMatchesForProcessing (o : Options) (st : Store)
  : list (gmap string jsval) :=
  let sortCriteria := sortField (matches st) in
  Mongo.limit (limit o)
    (sortBy (fieldLeb sortCriteria) (find (processingQuery o) (matches st))).

End Database.

(** ** Scenarios for the store operations *)

Module Scenario.

Import Mongo Database.

Definition matchDoc (matchId : string) : gmap string jsval :=
  {[ "matchId" := JPrim (PStr matchId);
     "processingStatus" := JPrim (PStr "pending") ]}.

(** A store that already holds m1 and m2, and a batch of five records of
    which these two violate the unique index. *)
Definition storeWithTwo : Store :=
  {| matches := [matchDoc "m1"; matchDoc "m2"]; match_details := [] |}.

Definition batchOfFive : list (gmap string jsval) :=
  [matchDoc "m1"; matchDoc "m3"; matchDoc "m2"; matchDoc "m4"; matchDoc "m5"].





End Scenario.

(** ** export-batches.js *)

Module ExportBatches.

Import Mongo Database.

(** The command line, after [+argv.limit || 2500] and [+argv.start || 0]. *)
Record Config := {
  LIMIT : Z;
  START : Z;
  EX_COUNTRY : list string;
  EX_LEAGUE : list string
}.

Definition limitOf (arg : option Z) : Z :=
  match arg with
  | Some n => if n =? 0 then 2500 else n
  | None => 2500
  end.

Definition startOf (arg : option Z) : Z := default 0 arg.

Definition strings (l : list string) : list jsval :=
  map (fun s => JPrim (PStr s)) l.

(** The query: a condition is added only when its option is given. *)
Definition query (cfg : Config) (d : gmap string jsval) : bool :=
  fieldEq "processingStatus" (PStr "pending") d
  && (if START cfg =? 0 then true else fieldGte "scrapeId" (START cfg) d)
  && (match EX_COUNTRY cfg with
      | [] => true
      | _ => fieldNin "country" (strings (EX_COUNTRY cfg)) d
      end)
  && (match EX_LEAGUE cfg with
      | [] => true
      | _ => fieldNin "league" (strings (EX_LEAGUE cfg)) d
      end).

(** The cursor: the matching records, projected and sorted.  The loop
    below only marks records the cursor has already yielded, so the cursor
    yields the records that matched when it was opened. *)
Definition cursor (cfg : Config) (c : list (gmap string jsval))
  : list (gmap string jsval) :=
  sortBy (fieldLeb "scrapeId")
    (map (project ["scrapeId"; "matchId"]) (find (query cfg) c)).

(** The state of the run: the collection, the files written so far, the
    buffer and the file counter. *)
Record State := {
  store : list (gmap string jsval);
  files : list (string * list (gmap string jsval));
  buf : list (gmap string jsval);
  fileIdx : Z
}.

Definition fileName (idx : Z) : string :=
  "batches/batch-" +:+ padStart 3 "0" (numToString idx) +:+ ".json".

Definition markQueued (now : Z) (d : gmap string jsval) : gmap string jsval :=
  set {[ "processingStatus" := JPrim (PStr "queued");
         "updatedAt" := JDate (Some now) ]} d.

(** [flush()].  [writable] tells for which paths [fs.writeFile] succeeds;
    when it fails the rejection ends the run before [updateMany]. *)
Definition flush (writable : string → bool) (now : Z) (st : State)
  : outcome State :=
  let idx := fileIdx st + 1 in
  let name := fileName idx in
  if writable name then
    let ids := map (getField "matchId") (buf st) in
    Ok {| store := updateMany (fieldIn "matchId" ids) (markQueued now) (store st);
          files := files st ++ [(name, buf st)];
          buf := [];
          fileIdx := idx |}
  else Throw (IOError name).

Definition push (m : gmap string jsval) (st : State) : State :=
  {| store := store st; files := files st; buf := buf st ++ [m];
     fileIdx := fileIdx st |}.

(** The export loop.  A run that is ended by a failed write leaves the
    store and the files as they were before that [flush]. *)
Fixpoint exportLoop (writable : string → bool) (now : Z) (cfg : Config)
    (cur : list (gmap string jsval)) (st : State) : State * option exn :=
  match cur with
  | [] =>
      if bool_decide (buf st ≠ []) then
        match flush writable now st with
        | Ok st' => (st', None)
        | Throw e => (st, Some e)
        end
      else (st, None)
  | m :: rest =>
      let st1 := push m st in
      if Z.of_nat (length (buf st1)) =? LIMIT cfg then
        match flush writable now st1 with
        | Ok st2 => exportLoop writable now cfg rest st2
        | Throw e => (st1, Some e)
        end
      else exportLoop writable now cfg rest st1
  end.

Definition exportBatches (writable : string → bool) (now : Z) (cfg : Config)
    (c : list (gmap string jsval)) : State * option exn :=
  exportLoop writable now cfg (cursor cfg c)
    {| store := c; files := []; buf := []; fileIdx := 0 |}.

Definition shards (st : State) : list (list (gmap string jsval)) :=
  map snd (files st).

End ExportBatches.

(** ** The shard workers: scrape-batch.js and scrape-batch-with-mem.js *)

Module Worker.

Import Mongo.

Record DateInfo := {
  parsedDate : jsval;
  properInternalId : jsval
}.

(** What [extractMatchSummary] returns. *)
Record MatchSummary := {
  basicInfo : jsval;
  events : jsval;
  teams : jsval;
  dateInfo : option DateInfo
}.

(** An entry of the result file.  A property that the object does not have
    is [None]; [dateInfo] can be there and null. *)
Record ResultEntry := {
  matchId : jsval;
  scrapeId : jsval;
  details : option (gmap string jsval);
  r_dateInfo : option (option DateInfo);
  error : option jsval
}.

(** [createMatchDetails(data)] of schema.js: the defaults, then [data]. *)
Definition createMatchDetails (now : Z) (data : gmap string jsval)
  : gmap string jsval :=
  data ∪ {[ "matchId" := JPrim (PStr "");
            "internalId" := JPrim (PStr "");
            "basicInfo" := JData "{}";
            "teams" := JData "{}";
            "events" := JEvents [];
            "processedAt" := JDate (Some now);
            "processingStatus" := JPrim (PStr "pending");
            "createdAt" := JDate (Some now) ]}.

(** The argument both loops build for [createMatchDetails]. *)
Definition detailsOf (now : Z) (matchId : jsval) (summary : MatchSummary)
  : gmap string jsval :=
  createMatchDetails now
    {[ "matchId" := matchId;
       "internalId" := match dateInfo summary with
                       | Some di => properInternalId di
                       | None => JPrim PUndefined
                       end;
       "basicInfo" := basicInfo summary;
       "teams" := teams summary;
       "events" := orElse (events summary) (JEvents []);
       "processingStatus" := JPrim (PStr "complete") ]}.

(** A row of the batch file, destructured. *)
Definition rowMatchId (row : gmap string jsval) : jsval := getField "matchId" row.
Definition rowScrapeId (row : gmap string jsval) : jsval := getField "scrapeId" row.

(** One turn of the loop of scrape-batch.js.  [scrape] stands for this
    turn's [extractMatchSummary(browser, matchId)], which returns a summary
    or throws an error with a message. *)
Definition scrapeOne (scrape : jsval → MatchSummary + string) (now : Z)
    (row : gmap string jsval) : ResultEntry :=
  match scrape (rowMatchId row) with
  | inl summary =>
      {| matchId := rowMatchId row; scrapeId := rowScrapeId row;
         details := Some (detailsOf now (rowMatchId row) summary);
         r_dateInfo := Some (dateInfo summary);
         error := None |}
  | inr message =>
      {| matchId := rowMatchId row; scrapeId := rowScrapeId row;
         details := None; r_dateInfo := None;
         error := Some (JPrim (PStr message)) |}
  end.

(** The loop over the batch: [scrape i] is the scrape step of turn [i],
    [results] the array the entries are pushed to. *)
Fixpoint scrapeLoop (scrape : nat → jsval → MatchSummary + string) (now : Z)
    (i : nat) (batch : list (gmap string jsval)) (results : list ResultEntry)
  : list ResultEntry :=
  match batch with
  | [] => results
  | row :: rest =>
      scrapeLoop scrape now (S i) rest
        (results ++ [scrapeOne (scrape i) now row])
  end.

Definition scrapeBatch (scrape : nat → jsval → MatchSummary + string) (now : Z)
    (batch : list (gmap string jsval)) : list ResultEntry :=
  scrapeLoop scrape now 0 batch [].

(** One turn of the loop of scrape-batch-with-mem.js: the details are
    built and not pushed. *)
Definition scrapeOneWithMem (scrape : jsval → MatchSummary + string) (now : Z)
    (row : gmap string jsval) : ResultEntry :=
  match scrape (rowMatchId row) with
  | inl summary =>
      let details := detailsOf now (rowMatchId row) summary in
      {| matchId := rowMatchId row; scrapeId := rowScrapeId row;
         details := None; r_dateInfo := None; error := None |}
  | inr message =>
      {| matchId := rowMatchId row; scrapeId := rowScrapeId row;
         details := None; r_dateInfo := None;
         error := Some (JPrim (PStr message)) |}
  end.

Fixpoint scrapeLoopWithMem (scrape : nat → jsval → MatchSummary + string)
    (now : Z) (i : nat) (batch : list (gmap string jsval))
    (results : list ResultEntry) : list ResultEntry :=
  match batch with
  | [] => results
  | row :: rest =>
      scrapeLoopWithMem scrape now (S i) rest
        (results ++ [scrapeOneWithMem (scrape i) now row])
  end.

(** [--sample n] keeps the first [n] rows when [n] is positive. *)
Definition scrapeBatchWithMem (SAMPLE : Z)
    (scrape : nat → jsval → MatchSummary + string) (now : Z)
    (batch : list (gmap string jsval)) : list ResultEntry :=
  let batch' := if 0 <? SAMPLE then firstn (Z.to_nat SAMPLE) batch else batch in
  scrapeLoopWithMem scrape now 0 batch' [].

(** Exactly one of [details] and [error] is there. *)
Definition oneOfDetailsOrError (r : ResultEntry) : bool :=
  xorb (bool_decide (details r ≠ None)) (bool_decide (error r ≠ None)).

(** The shape of a success entry and of a failure entry. *)
Definition successEntry (r : ResultEntry) : Prop :=
  details r ≠ None ∧ r_dateInfo r ≠ None ∧ error r = None.

Definition failureEntry (r : ResultEntry) : Prop :=
  details r = None ∧ r_dateInfo r = None ∧ error r ≠ None.

(** A shard of one row, and a scrape step that succeeds. *)
Definition oneRow : list (gmap string jsval) :=
  [ {[ "scrapeId" := JPrim (PNum 1); "matchId" := JPrim (PStr "m1") ]} ].

Definition someSummary : MatchSummary :=
  {| basicInfo := JData "{}"; events := JPrim PNull; teams := JData "{}";
     dateInfo := None |}.

Definition scrapeOk (i : nat) (matchId : jsval) : MatchSummary + string :=
  inl someSummary.

End Worker.

(** ** import-artifacts.js *)

Module ImportArtifacts.

Import Mongo Database Worker.

Record Totals := {
  totalProcessed : Z;
  totalSuccessful : Z;
  totalErrors : Z
}.

Definition noTotals : Totals :=
  {| totalProcessed := 0; totalSuccessful := 0; totalErrors := 0 |}.

Definition countSuccess (t : Totals) : Totals :=
  {| totalProcessed := totalProcessed t + 1;
     totalSuccessful := totalSuccessful t + 1;
     totalErrors := totalErrors t |}.

Definition countError (t : Totals) : Totals :=
  {| totalProcessed := totalProcessed t + 1;
     totalSuccessful := totalSuccessful t;
     totalErrors := totalErrors t + 1 |}.

(** [result.error] as a condition *)
Definition hasError (r : ResultEntry) : bool :=
  match error r with
  | Some v => truthy v
  | None => false
  end.

(** [result.dateInfo?.parsedDate || null] *)
Definition dateOf (r : ResultEntry) : jsval :=
  match r_dateInfo r with
  | Some (Some di) => orElse (parsedDate di) (JPrim PNull)
  | _ => JPrim PNull
  end.

(** [result.dateInfo?.properInternalId || result.details.internalId]: the
    right operand is read only when the left one is falsy, and reading it
    throws when the entry has no [details]. *)
Definition internalIdOf (r : ResultEntry) : outcome jsval :=
  let proper := match r_dateInfo r with
                | Some (Some di) => properInternalId di
                | _ => JPrim PUndefined
                end in
  if truthy proper then Ok proper
  else match details r with
       | Some d => Ok (getField "internalId" d)
       | None => Throw (TypeError "Cannot read properties of undefined")
       end.

(** [{...result.details, updatedAt: new Date()}] *)
Definition detailsUpdate (now : Z) (r : ResultEntry) : gmap string jsval :=
  <["updatedAt" := JDate (Some now)]> (default ∅ (details r)).

Definition matchUpdate (now : Z) (r : ResultEntry) (internalId : jsval)
  : gmap string jsval :=
  {[ "processingStatus" := JPrim (PStr "complete");
     "date" := dateOf r;
     "internalId" := internalId;
     "updatedAt" := JDate (Some now) ]}.

(** The body of the inner loop: one entry of a result file. *)
Definition importEntry (now : Z) (acc : Store * Totals) (r : ResultEntry)
  : Store * Totals :=
  let '(st, t) := acc in
  if hasError r then (st, countError t)
  else
    match internalIdOf r with
    | Throw _ => (st, countError t)
    | Ok internalId =>
        let '(ms, _) :=
          updateOne (fieldEq "matchId" (matchId r))
            (set (matchUpdate now r internalId)) (matches st) in
        let ds :=
          upsertOne "matchId" (matchId r) (set (detailsUpdate now r))
            (match_details st) in
        ({| matches := ms; match_details := ds |}, countSuccess t)
    end.

(** One result file, and a directory of them. *)
Definition importFile (now : Z) (acc : Store * Totals)
    (results : list ResultEntry) : Store * Totals :=
  fold_left (importEntry now) results acc.

Definition importArtifacts (now : Z) (st : Store)
    (jsonFiles : list (list ResultEntry)) : Store * Totals :=
  fold_left (importFile now) jsonFiles (st, noTotals).

(** The store without its timestamps. *)
Definition untimed (st : Store) : Store :=
  {| matches := map (delete "updatedAt") (matches st);
     match_details := map (delete "updatedAt") (match_details st) |}.

(** The details of an entry are filed under the entry's own [matchId]:
    they carry no [matchId], or the one of the entry. *)
Definition ownKey (r : ResultEntry) : Prop :=
  ∀ d, details r = Some d →
       d !! "matchId" = None
       ∨ toBson <$> (d !! "matchId") = Some (toBson (matchId r)).

End ImportArtifacts.

(** ** The partitioner's filter as the specification words it *)

Module PartitionSpec.

Import Mongo ExportBatches.


(** The default run, with shards of two. *)
Definition shardsOfTwo : Config :=
  {| LIMIT := 2; START := startOf None; EX_COUNTRY := []; EX_LEAGUE := [] |}.


Definition alwaysWritable (path : string) : bool := true.

(** With respect to the collection [c] the run started from: a record
    differs from what it was only by the mark, and then a file that has
    been written lists it. *)
Definition marksFollowFiles (now : Z) (c : list (gmap string jsval))
    (st : State) : Prop :=
  length (store st) = length c
  ∧ ∀ (i : nat) d d',
      c !! i = Some d → store st !! i = Some d' →
      d' = d
      ∨ (d' = markQueued now d
         ∧ ∃ name shard, In (name, shard) (files st)
             ∧ fieldIn "matchId" (map (getField "matchId") shard) d = true).

Definition fullShard (cfg : Config) (s : list (gmap string jsval)) : Prop :=
  Z.of_nat (length s) = LIMIT cfg.

(** Reading a decimal number, leading zeros allowed. *)
Definition readNumber (s : string) : option Z :=
  option_map Z.of_uint (NilEmpty.uint_of_string s).


End PartitionSpec.

(** ** Vocabulary and scenarios for the importer *)

Module ImportSpec.

Import Mongo Database Worker ImportArtifacts.

(** [c'] is [c] with its first document that satisfies [q] replaced by its
    image under [u], or [c] itself when there is none. *)
Definition firstUpdated (q : gmap string jsval → bool)
    (u : gmap string jsval → gmap string jsval)
    (c c' : list (gmap string jsval)) : Prop :=
  (∃ pre d post, c = pre ++ d :: post
                 ∧ Forall (fun x => q x = false) pre ∧ q d = true
                 ∧ c' = pre ++ u d :: post)
  ∨ (Forall (fun x => q x = false) c ∧ c' = c).

(** The same with an insert when there is none. *)
Definition firstUpserted (q : gmap string jsval → bool)
    (u : gmap string jsval → gmap string jsval) (base : gmap string jsval)
    (c c' : list (gmap string jsval)) : Prop :=
  (∃ pre d post, c = pre ++ d :: post
                 ∧ Forall (fun x => q x = false) pre ∧ q d = true
                 ∧ c' = pre ++ u d :: post)
  ∨ (Forall (fun x => q x = false) c ∧ c' = c ++ [u base]).

(** The date and the internal id a success entry writes. *)
Definition writtenDate (r : ResultEntry) : jsval :=
  match r_dateInfo r with
  | Some (Some di) => if truthy (parsedDate di) then parsedDate di else JPrim PNull
  | _ => JPrim PNull
  end.

Definition writtenInternalId (r : ResultEntry) (d : gmap string jsval) : jsval :=
  match r_dateInfo r with
  | Some (Some di) =>
      if truthy (properInternalId di) then properInternalId di
      else getField "internalId" d
  | _ => getField "internalId" d
  end.

(** The fields of the [matches] collection a claim can be about. *)
Definition fieldsOf (f : string) (c : list (gmap string jsval))
  : list (option jsval) :=
  map (fun d : gmap string jsval => d !! f) c.

Definition recordOf (matchId : string) (c : list (gmap string jsval))
  : option (gmap string jsval) :=
  findOne (fieldEq "matchId" (PStr matchId)) c.

Definition statusOf (matchId : string) (c : list (gmap string jsval)) : jsval :=
  match recordOf matchId c with
  | Some d => getField "processingStatus" d
  | None => JPrim PUndefined
  end.

Definition attemptsOf (matchId : string) (c : list (gmap string jsval)) : jsval :=
  match recordOf matchId c with
  | Some d => getField "processingAttempts" d
  | None => JPrim PUndefined
  end.

Definition dateFieldOf (matchId : string) (c : list (gmap string jsval)) : jsval :=
  match recordOf matchId c with
  | Some d => getField "date" d
  | None => JPrim PUndefined
  end.

(** Five pending matches with sequence numbers 1 to 5; [a1] to [a5] are
    their attempt counters. *)
Definition pendingMatch (matchId : string) (scrapeId : Z) (attempts : jsval)
  : gmap string jsval :=
  {[ "matchId" := JPrim (PStr matchId);
     "scrapeId" := JPrim (PNum scrapeId);
     "processingStatus" := JPrim (PStr "pending");
     "processingAttempts" := attempts ]}.

Definition fiveMatches (a1 a2 a3 a4 a5 : jsval) : list (gmap string jsval) :=
  [pendingMatch "m1" 1 a1; pendingMatch "m2" 2 a2; pendingMatch "m3" 3 a3;
   pendingMatch "m4" 4 a4; pendingMatch "m5" 5 a5].

(** A success entry and an error entry of a result file. *)
Definition successFor (matchId : string) (scrapeId : Z)
    (d : gmap string jsval) (di : option (option DateInfo)) : ResultEntry :=
  {| Worker.matchId := JPrim (PStr matchId);
     Worker.scrapeId := JPrim (PNum scrapeId);
     details := Some d; r_dateInfo := di; error := None |}.

Definition errorFor (matchId : string) (scrapeId : Z) (message : string)
  : ResultEntry :=
  {| Worker.matchId := JPrim (PStr matchId);
     Worker.scrapeId := JPrim (PNum scrapeId);
     details := None; r_dateInfo := None;
     error := Some (JPrim (PStr message)) |}.

(** The export of the five matches in shards of two, then the import of a
    result file with two successes and one error. *)
Definition exported (now : Z) (a1 a2 a3 a4 a5 : jsval) : ExportBatches.State * option exn :=
  ExportBatches.exportBatches PartitionSpec.alwaysWritable now
    PartitionSpec.shardsOfTwo (fiveMatches a1 a2 a3 a4 a5).

Definition afterExport (now : Z) (a1 a2 a3 a4 a5 : jsval) : Store :=
  {| matches := ExportBatches.store (fst (exported now a1 a2 a3 a4 a5));
     match_details := [] |}.

(** A disk on which only the first shard file can be written. *)
Definition onlyFirstFile (path : string) : bool :=
  String.eqb path "batches/batch-001.json".

(** A match with a date, and a success entry without [dateInfo]. *)
Definition datedStore : Store :=
  {| matches := [ <["date" := JPrim (PStr "2025-04-25T15:00:00.000Z")]>
                    (pendingMatch "m1" 1 (PNum 0)) ];
     match_details := [] |}.

Definition undatedSuccess : ResultEntry :=
  successFor "m1" 1 {[ "matchId" := JPrim (PStr "m1");
                       "processingStatus" := JPrim (PStr "complete") ]}
    (Some None).


End ImportSpec.

(** ** Vocabulary for the shape of an internal id *)

Module InternalIdSpec.

Import Utils.

(** A team name: a string, or a missing one. *)
Definition isName (v : jsval) : Prop :=
  v = JPrim PUndefined ∨ v = JPrim PNull ∨ ∃ s, v = JPrim (PStr s).

(** The name lowercased with every character outside [a-z0-9] removed; the
    empty string for a missing name. *)
Definition teamPart (toLowerCase : string → string) (v : jsval) : string :=
  match v with
  | JPrim (PStr s) => keepLowerAlnum (toLowerCase s)
  | _ => ""
  end.

(** The characters of a text. *)
Fixpoint chars (s : string) : list ascii :=
  match s with
  | EmptyString => []
  | String a rest => a :: chars rest
  end.

(** What [toLowerCase] does to a text of ASCII characters: the capitals
    [A] to [Z] become [a] to [z]. *)
Definition lowerChar (a : ascii) : ascii :=
  let n := nat_of_ascii a in
  if ((65 <=? n) && (n <=? 90))%nat then ascii_of_nat (n + 32) else a.

Fixpoint lowerAscii (s : string) : string :=
  match s with
  | EmptyString => EmptyString
  | String a rest => String (lowerChar a) (lowerAscii rest)
  end.

Fixpoint allChars (p : ascii → bool) (s : string) : bool :=
  match s with
  | EmptyString => true
  | String a rest => p a && allChars p rest
  end.

(** YYYYMMDD, digit by digit. *)
Definition digit (n : Z) : ascii := ascii_of_nat (48 + Z.to_nat n).

Definition digits2 (v : Z) : string :=
  String (digit (v / 10)) (String (digit (v mod 10)) EmptyString).

Definition digits4 (v : Z) : string :=
  String (digit (v / 1000)) (String (digit (v / 100 mod 10)) (digits2 (v mod 100))).

Definition yyyymmdd (y m d : Z) : string :=
  digits4 y +:+ digits2 m +:+ digits2 d.

(** The year as it is left of [toISOString]'s year once the hyphens are
    gone: four digits for the years 0 to 9999; for the others the year in
    decimal, filled to six digits with zeros, after a plus sign for the
    later ones (the minus sign of the earlier ones is a hyphen). *)
Definition sixDigits (v : Z) : string := padStart 6 "0" (numToString v).

Definition yearText (y : Z) : string :=
  if (0 <=? y) && (y <=? 9999) then digits4 y
  else if y <? 0 then sixDigits (- y)
  else "+" +:+ sixDigits y.

Definition isDigit (a : ascii) : bool :=
  let n := nat_of_ascii a in ((48 <=? n) && (n <=? 57))%nat.

(** 25 April 2025, 15:00 UTC. *)
Definition kickoff : jsval := JDate (Some 1745593200000).

(** *** The calendar *)

(** The Gregorian calendar, carried to every year. *)
Definition isLeap (y : Z) : bool :=
  (y mod 4 =? 0) && (negb (y mod 100 =? 0) || (y mod 400 =? 0)).

Definition daysInMonth (y m : Z) : Z :=
  if m =? 2 then (if isLeap y then 29 else 28)
  else if (m =? 4) || (m =? 6) || (m =? 9) || (m =? 11) then 30
  else 31.

Definition isDay (y m d : Z) : bool :=
  (1 <=? m) && (m <=? 12) && (1 <=? d) && (d <=? daysInMonth y m).

(** The leap years from year 1 to year [y]. *)
Definition leapsThrough (y : Z) : Z := y / 4 - y / 100 + y / 400.

(** The days from 1 January 1970 to 1 January of [y], to the first of
    month [m], and to the day itself. *)
Definition daysBeforeYear (y : Z) : Z :=
  365 * (y - 1970) + (leapsThrough (y - 1) - leapsThrough 1969).

Definition daysBeforeMonth (y m : Z) : Z :=
  fold_right Z.add 0
    (map (fun k => daysInMonth y (Z.of_nat k)) (seq 1 (Z.to_nat (m - 1)))).

Definition dayNumber (y m d : Z) : Z :=
  daysBeforeYear y + daysBeforeMonth y m + (d - 1).

Definition msPerDay : Z := 86400000.

(** The time value [t] falls on the day [d] of month [m] of year [y], UTC. *)
Definition utcDay (t y m d : Z) : Prop :=
  isDay y m d = true
  ∧ dayNumber y m d * msPerDay ≤ t < (dayNumber y m d + 1) * msPerDay.

(** Two names with a capital beyond ASCII whose lowering has an ASCII
    letter, held as UTF-8: Istanbul with the dotted capital I (U+0130),
    which lowers to [i] and a combining dot (U+0307), and the Kelvin sign
    (U+212A), which lowers to [k]. *)
Definition byte (n : nat) : string := String (ascii_of_nat n) "".

Definition dottedIstanbul : string := byte 196 +:+ byte 176 +:+ "stanbul".

Definition dottedIstanbulLowered : string :=
  "i" +:+ byte 204 +:+ byte 135 +:+ "stanbul".

Definition kelvinSign : string := byte 226 +:+ byte 132 +:+ byte 170.

(** 1 January of the year 10000 and of the year before the year 0. *)
Definition newYear10000 : Z := 253402300800000.

Definition newYearMinus1 : Z := -62198755200000.

(** A test of every number from [start] on, [n] of them. *)
Definition allFrom (p : Z → bool) (start : Z) (n : positive) : bool :=
  snd (Pos.iter (fun s : Z * bool => (fst s + 1, snd s && p (fst s)))
         (start, true) n).

End InternalIdSpec.

(** ** The importer as runs of single-document updates *)

Module Ops.

Import Mongo Database Worker ImportArtifacts.

(** One [updateOne] of the importer: the [matchId] it looks for and the
    fields it sets. *)
Record Op := {
  opKey : jsval;
  opFields : gmap string jsval
}.

Definition applyUpdate (o : Op) (c : list (gmap string jsval))
  : list (gmap string jsval) :=
  fst (updateOne (fieldEq "matchId" (opKey o)) (set (opFields o)) c).

Definition applyUpsert (o : Op) (c : list (gmap string jsval))
  : list (gmap string jsval) :=
  upsertOne "matchId" (opKey o) (set (opFields o)) c.

Definition runUpdate (ops : list Op) (c : list (gmap string jsval))
  : list (gmap string jsval) :=
  fold_left (fun c o => applyUpdate o c) ops c.

Definition runUpsert (ops : list Op) (c : list (gmap string jsval))
  : list (gmap string jsval) :=
  fold_left (fun c o => applyUpsert o c) ops c.

(** The internal id of an entry that takes effect: one without error whose
    internal id can be read. *)
Definition effective (r : ResultEntry) : option jsval :=
  if hasError r then None
  else match internalIdOf r with
       | Ok internalId => Some internalId
       | Throw _ => None
       end.

Fixpoint matchOps (now : Z) (results : list ResultEntry) : list Op :=
  match results with
  | [] => []
  | r :: rest =>
      match effective r with
      | Some internalId =>
          {| opKey := matchId r; opFields := matchUpdate now r internalId |}
          :: matchOps now rest
      | None => matchOps now rest
      end
  end.

Fixpoint detailOps (now : Z) (results : list ResultEntry) : list Op :=
  match results with
  | [] => []
  | r :: rest =>
      match effective r with
      | Some _ =>
          {| opKey := matchId r; opFields := detailsUpdate now r |}
          :: detailOps now rest
      | None => detailOps now rest
      end
  end.

(** An update that does not move a document it finds to another key. *)
Definition keyStable (o : Op) : Prop :=
  ∀ d, indexKey d = toBson (opKey o) →
       indexKey (set (opFields o) d) = toBson (opKey o).

(** Two collections that are the same but for the document the update
    [o] would find, which may differ in the fields [o] sets. *)
Inductive agreeBut (o : Op)
  : list (gmap string jsval) → list (gmap string jsval) → Prop :=
  | agree_nil : agreeBut o [] []
  | agree_hit d1 d2 t :
      fieldEq "matchId" (opKey o) d1 = true →
      fieldEq "matchId" (opKey o) d2 = true →
      (∀ f, opFields o !! f = None → d1 !! f = d2 !! f) →
      agreeBut o (d1 :: t) (d2 :: t)
  | agree_skip d t1 t2 :
      fieldEq "matchId" (opKey o) d = false →
      agreeBut o t1 t2 →
      agreeBut o (d :: t1) (d :: t2).

(** The documents a run of upserts would insert, still empty. *)
Fixpoint stubs (ops : list Op) (c : list (gmap string jsval))
  : list (gmap string jsval) :=
  match ops with
  | [] => []
  | o :: rest =>
      if existsb (fieldEq "matchId" (opKey o)) c then stubs rest c
      else
        let stub : gmap string jsval := {[ "matchId" := toBson (opKey o) ]} in
        stub :: stubs rest (c ++ [stub])
  end.

Definition untimedOp (o : Op) : Op :=
  {| opKey := opKey o; opFields := delete "updatedAt" (opFields o) |}.

End Ops.

(** ** schema.js *)

Module Schema.

Import Mongo.

(** [createMatch(data)]: the defaults, then [data].  [now1] and [now2] are
    the two readings of the clock. *)
Definition createMatch (now1 now2 : Z) (data : gmap string jsval)
  : gmap string jsval :=
  data ∪ {[ "matchId" := JPrim (PStr "");
            "internalId" := JPrim (PStr "");
            "team" := JPrim (PStr "");
            "teamName" := JPrim (PStr "");
            "league" := JPrim (PStr "");
            "country" := JPrim (PStr "");
            "date" := JDate (Some now1);
            "homeTeam" := JPrim (PStr "");
            "awayTeam" := JPrim (PStr "");
            "homeScore" := JPrim (PStr "");
            "awayScore" := JPrim (PStr "");
            "scrapedAt" := JDate (Some now2);
            "processingStatus" := JPrim (PStr "pending") ]}.

(** [createMatchH2H(data)]; an empty array of sections is kept as its JSON
    text. *)
Definition createMatchH2H (now1 now2 : Z) (data : gmap string jsval)
  : gmap string jsval :=
  data ∪ {[ "matchId" := JPrim (PStr "");
            "internalId" := JPrim (PStr "");
            "sections" := JData "[]";
            "processedAt" := JDate (Some now1);
            "processingStatus" := JPrim (PStr "pending");
            "createdAt" := JDate (Some now2) ]}.

(** [validateMatch(match)] *)
Definition required : list string :=
  ["matchId"; "internalId"; "team"; "homeTeam"; "awayTeam"].

Record Validation := {
  valid : bool;
  errors : option (list string)
}.

Definition missingFields (m : gmap string jsval) : list string :=
  List.filter (fun f => negb (truthy (getField f m))) required.

Definition validateMatch (m : gmap string jsval) : Validation :=
  let missing := missingFields m in
  if negb (length missing =? 0)%nat then
    {| valid := false;
       errors := Some ["Missing required fields: "
                       +:+ String.concat ", " missing] |}
  else {| valid := true; errors := None |}.

End Schema.

(** ** Vocabulary for the store operations *)

Module StoreSpec.

Import Mongo Database.

(** The attempt counter of a record as [$inc] reads it: a missing field
    counts as zero; a field that is no number has no reading. *)
Definition counterOf (d : gmap string jsval) : option Z :=
  match d !! "processingAttempts" with
  | None => Some 0
  | Some (JPrim (PNum n)) => Some n
  | Some _ => None
  end.

(** A series of calls of [updateMatchStatus] for one match, each with its
    clock reading and status. *)
Definition updateStatuses (matchId : jsval) (calls : list (Z * jsval))
    (st : Store) : Store :=
  fold_left (fun s call => fst (updateMatchStatus call.1 matchId call.2 s))
    calls st.

(** A name without a hyphen. *)
Definition noHyphen (s : string) : bool :=
  InternalIdSpec.allChars (fun a => negb (Ascii.eqb a "-")) s.

(** A stored record keeps no [undefined] under [matchId]: the driver
    writes it as null. *)
Definition keyedAsBson (d : gmap string jsval) : Prop :=
  d !! "matchId" ≠ Some (JPrim PUndefined).

(** The state of an export that has written nothing. *)
Definition nothingWritten (c : list (gmap string jsval)) : ExportBatches.State :=
  {| ExportBatches.store := c; ExportBatches.files := [];
     ExportBatches.buf := []; ExportBatches.fileIdx := 0 |}.

(** During an export, every record that still matches the query is
    waiting in the buffer or in the rest of the cursor. *)
Definition waiting (cfg : ExportBatches.Config) (st : ExportBatches.State)
    (cur : list (gmap string jsval)) : Prop :=
  Forall keyedAsBson (ExportBatches.store st)
  ∧ ∀ d, In d (ExportBatches.store st) → ExportBatches.query cfg d = true →
         In (getField "matchId" d)
           (map (getField "matchId") (ExportBatches.buf st ++ cur)).

End StoreSpec.

(** ** database.js: head-to-head data, the joined view, checkpoints *)

Module Collections.

Import Mongo Database.

(** The database: the two collections of the pipeline and the others. *)
Record Db := {
  core : Store;
  match_h2h : list (gmap string jsval);
  checkpoints : list (gmap string jsval)
}.

Definition withCore (st : Store) (db : Db) : Db :=
  {| core := st; match_h2h := match_h2h db; checkpoints := checkpoints db |}.

Definition withH2H (c : list (gmap string jsval)) (db : Db) : Db :=
  {| core := core db; match_h2h := c; checkpoints := checkpoints db |}.

Definition withCheckpoints (c : list (gmap string jsval)) (db : Db) : Db :=
  {| core := core db; match_h2h := match_h2h db; checkpoints := c |}.

(** [saveMatchH2H(h2hData)] *)
Definition saveMatchH2H (now : Z) (h2hData : gmap string jsval) (db : Db)
  : Db * bool :=
  let u := set (<["updatedAt" := JDate (Some now)]> h2hData) in
  let c' := upsertOne "matchId" (getField "matchId" h2hData) u (match_h2h db) in
  (withH2H c' db, bool_decide (c' ≠ match_h2h db)).

(** *** [getFullMatchData] *)

(** A document of the pipeline: the match without the fields [details] and
    [h2h], and what these two fields hold, first the arrays that [$lookup]
    writes and then, after [$unwind], one joined document or none. *)
Record Joined (D H : Type) := {
  fm_match : gmap string jsval;
  fm_details : D;
  fm_h2h : H
}.

Arguments fm_match {D H} j.
Arguments fm_details {D H} j.
Arguments fm_h2h {D H} j.

(** [$lookup] on [matchId]: a document without the field joins as null. *)
Definition lookupBy (d : gmap string jsval) (from : list (gmap string jsval))
  : list (gmap string jsval) :=
  List.filter (fun x => bool_decide (indexKey x = indexKey d)) from.

(** [$unwind] with [preserveNullAndEmptyArrays]: one document per element,
    and the document itself, without the field, for an empty array. *)
Definition unwind {A} (l : list A) : list (option A) :=
  match l with
  | [] => [None]
  | _ => map Some l
  end.

Definition getFullMatchData (matchId : jsval) (db : Db)
  : option (Joined (option (gmap string jsval)) (option (gmap string jsval))) :=
  let stage1 := find (fieldEq "matchId" matchId) (matches (core db)) in
  let stage2 :=
    map (fun d => {| fm_match := delete "details" d;
                     fm_details := lookupBy d (match_details (core db));
                     fm_h2h := tt |}) stage1 in
  let stage3 :=
    map (fun j => {| fm_match := delete "h2h" (fm_match j);
                     fm_details := fm_details j;
                     fm_h2h := lookupBy (fm_match j) (match_h2h db) |}) stage2 in
  let stage4 :=
    flat_map (fun j => map (fun x => {| fm_match := fm_match j;
                                        fm_details := x;
                                        fm_h2h := fm_h2h j |})
                         (unwind (fm_details j))) stage3 in
  let stage5 :=
    flat_map (fun j => map (fun x => {| fm_match := fm_match j;
                                        fm_details := fm_details j;
                                        fm_h2h := x |})
                         (unwind (fm_h2h j))) stage4 in
  head stage5.

(** *** Checkpoints *)

Definition checkpointId : jsval := JPrim (PStr "scraper-state").

(** The server's refusal to change [_id]. *)
Definition immutableField : MongoError := {| code := 66; result := None |}.

(** [saveCheckpoint(data)]: one document, found by its [_id]; a [data] that
    carries another [_id] is refused by the server. *)
Definition saveCheckpoint (now : Z) (data : gmap string jsval) (db : Db)
  : Db * outcome bool :=
  let s := <["updatedAt" := JDate (Some now)]> data in
  match s !! "_id" with
  | Some v =>
      if bool_decide (toBson v = checkpointId) then
        (withCheckpoints (upsertOne "_id" checkpointId (set s) (checkpoints db)) db,
         Ok true)
      else (db, Throw (StoreError immutableField))
  | None =>
      (withCheckpoints (upsertOne "_id" checkpointId (set s) (checkpoints db)) db,
       Ok true)
  end.

(** [getCheckpoint()]: the document or null. *)
Definition getCheckpoint (db : Db) : option (gmap string jsval) :=
  findOne (fieldEq "_id" checkpointId) (checkpoints db).

End Collections.

(** ** Regular expressions and text

    Text is a sequence of code units below 256.  A piece of a pattern
    yields the ways it can match a prefix of the text, the preferred one
    first, each with what it consumed and the rest of the text. *)

Module Regex.

(** [\d], [\s] and [.] *)
Definition reDigit (a : ascii) : bool :=
  let n := nat_of_ascii a in ((48 <=? n) && (n <=? 57))%nat.

Definition reSpace (a : ascii) : bool :=
  let n := nat_of_ascii a in
  (((9 <=? n) && (n <=? 13)) || (n =? 32) || (n =? 160))%nat.

Definition reDot (a : ascii) : bool :=
  let n := nat_of_ascii a in negb ((n =? 10) || (n =? 13))%nat.

(** A literal character, and a literal text. *)
Definition lit (c : ascii) (s : string) : list (string * string) :=
  match s with
  | String a r => if Ascii.eqb a c then [(String a "", r)] else []
  | "" => []
  end.

Fixpoint litStr (p s : string) : list (string * string) :=
  match p with
  | "" => [("", s)]
  | String c p' =>
      match s with
      | String a r =>
          if Ascii.eqb a c
          then map (fun w => (String a w.1, w.2)) (litStr p' r)
          else []
      | "" => []
      end
  end.

(** [\d{1,2}]: two digits are tried before one. *)
Definition digits12 (s : string) : list (string * string) :=
  match s with
  | String a r =>
      if reDigit a then
        match r with
        | String b r' =>
            if reDigit b then [(String a (String b ""), r'); (String a "", r)]
            else [(String a "", r)]
        | "" => [(String a "", r)]
        end
      else []
  | "" => []
  end.

(** [\d{n}] *)
Fixpoint digitsN (n : nat) (s : string) : list (string * string) :=
  match n with
  | O => [("", s)]
  | S k =>
      match s with
      | String a r =>
          if reDigit a
          then map (fun w => (String a w.1, w.2)) (digitsN k r)
          else []
      | "" => []
      end
  end.

(** [p+] and [p*] for a class [p]: the longest run is tried first. *)
Fixpoint many1 (p : ascii → bool) (s : string) : list (string * string) :=
  match s with
  | String a r =>
      if p a
      then map (fun w => (String a w.1, w.2)) (many1 p r) ++ [(String a "", r)]
      else []
  | "" => []
  end.

Definition many0 (p : ascii → bool) (s : string) : list (string * string) :=
  many1 p s ++ [("", s)].

(** [c?] *)
Definition opt (c : ascii) (s : string) : list (string * string) :=
  lit c s ++ [("", s)].

(** A search without the [g] flag: the first way to match at the leftmost
    place that has one. *)
Fixpoint search {M} (at_ : string → list M) (s : string) : option M :=
  match at_ s with
  | m :: _ => Some m
  | [] =>
      match s with
      | String _ r => search at_ r
      | "" => None
      end
  end.

(** [s.endsWith(suffix)] *)
Fixpoint endsWith (suffix s : string) : bool :=
  String.eqb s suffix
  || match s with
     | String _ r => endsWith suffix r
     | "" => false
     end.

End Regex.

(** ** utils.js: [parseDate] and [updateMatchDate] *)

Module Dates.

Import Utils Mongo Database Regex.

(** [(\d{1,2})\.(\d{1,2})\.(\d{4})\s+(\d{1,2}:\d{2})] at the start of the
    text: the four groups of every way to match. *)
Definition dateAt (s : string) : list (string * string * string * string) :=
  w1 ← digits12 s;
  w2 ← lit "." w1.2;
  w3 ← digits12 w2.2;
  w4 ← lit "." w3.2;
  w5 ← digitsN 4 w4.2;
  w6 ← many1 reSpace w5.2;
  w7 ← digits12 w6.2;
  w8 ← lit ":" w7.2;
  w9 ← digitsN 2 w8.2;
  [(w1.1, w3.1, w5.1, w7.1 +:+ ":" +:+ w9.1)].

(** [dateStr.match(...)] *)
Definition searchDate (s : string) : option (string * string * string * string) :=
  search dateAt s.

(** The text handed to the [Date] constructor. *)
Definition isoText (d M Y t : string) : string :=
  Y +:+ "-" +:+ padStart 2 "0" M +:+ "-" +:+ padStart 2 "0" d
  +:+ "T" +:+ t +:+ ":00".

(** [parseDate(dateStr)].  [dateParse] is the engine's reading of a date
    text in the time zone of the process: a time value, or none for a text
    it cannot read. *)
Definition parseDate (dateParse : string → option Z) (dateStr : jsval)
  : outcome jsval :=
  if negb (truthy dateStr) then Ok (JPrim PNull)
  else
    match dateStr with
    | JPrim (PStr s) =>
        match searchDate s with
        | Some (d, M, Y, t) => Ok (JDate (dateParse (isoText d M Y t)))
        | None =>
            match dateParse s with
            | Some fallback => Ok (JDate (Some fallback))
            | None => Ok (JPrim PNull)
            end
        end
    | _ => Throw (TypeError "dateStr.match is not a function")
    end.

(** *** [updateMatchDate] *)

(** What the call can throw: [date.toISOString()] needs a valid [Date]. *)
Inductive thrown :=
  | RangeError (msg : string)
  | Other (e : exn).

Definition updateFields (now1 now2 : Z) (date internalId : jsval)
  : gmap string jsval :=
  let updateFields : gmap string jsval :=
    {[ "date" := date;
       "dateFixed" := JPrim (PBool true);
       "dateFixedAt" := JDate (Some now1);
       "updatedAt" := JDate (Some now2) ]} in
  if truthy internalId then <["internalId" := internalId]> updateFields
  else updateFields.

(** [updateMatchDate(db, matchId, date, internalId)]: returns whether a
    document was modified. *)
Definition updateMatchDate (now1 now2 : Z) (matchId date internalId : jsval)
    (st : Store) : Store * (thrown + bool) :=
  match date with
  | JDate (Some _) =>
      let '(c', _) :=
        updateOne (fieldEq "matchId" matchId)
          (set (updateFields now1 now2 date internalId)) (matches st) in
      (withMatches c' st, inr (bool_decide (c' ≠ matches st)))
  | JDate None => (st, inl (RangeError "Invalid time value"))
  | JPrim PUndefined | JPrim PNull =>
      (st, inl (Other (TypeError "Cannot read properties of undefined")))
  | _ => (st, inl (Other (TypeError "date.toISOString is not a function")))
  end.

End Dates.

(** ** Vocabulary for date texts *)

Module DateSpec.

Import Regex InternalIdSpec.

(** One or two digits, exactly [n] digits, a non-empty run of white space. *)
Definition oneOrTwoDigits (s : string) : bool :=
  ((String.length s =? 1) || (String.length s =? 2))%nat && allChars reDigit s.

Definition nDigits (n : nat) (s : string) : bool :=
  (String.length s =? n)%nat && allChars reDigit s.

Definition whiteSpace (s : string) : bool :=
  negb (String.length s =? 0)%nat && allChars reSpace s.

End DateSpec.

(** ** Vocabulary for the worker's clean-up of events *)

Module SummarySpec.

(** What the worker's dedupe compares. *)
Definition triple (e : Event) : prim * prim * prim :=
  (minute e, type e, player e).

(** The events whose triple has not been seen before, in order. *)
Fixpoint firstOfEach (seen : list (prim * prim * prim)) (events : list Event)
  : list Event :=
  match events with
  | [] => []
  | e :: rest =>
      if bool_decide (triple e ∈ seen) then firstOfEach seen rest
      else e :: firstOfEach (triple e :: seen) rest
  end.

End SummarySpec.

(** ** scrape-batch.js: the whole script *)

Module BatchScript.

Import Mongo Worker.

Record Stats := {
  ok : Z;
  fail : Z;
  total : Z
}.

(** What the loop has built so far. *)
Record Run := {
  results : list ResultEntry;
  stats : Stats;
  times : list Z
}.

Definition start : Run :=
  {| results := []; stats := {| ok := 0; fail := 0; total := 0 |}; times := [] |}.

(** One turn of the loop: [scrape] is this turn's [extractMatchSummary],
    [now] the clock when the details are built and [ms] the time the turn
    took. *)
Definition turn (scrape : jsval → MatchSummary + string) (now ms : Z)
    (run : Run) (row : gmap string jsval) : Run :=
  let matchId := rowMatchId row in
  let scrapeId := rowScrapeId row in
  match scrape matchId with
  | inl summary =>
      let details := detailsOf now matchId summary in
      {| results := results run
                    ++ [ {| Worker.matchId := matchId; Worker.scrapeId := scrapeId;
                            details := Some details;
                            r_dateInfo := Some (dateInfo summary);
                            error := None |} ];
         stats := {| ok := ok (stats run) + 1; fail := fail (stats run);
                     total := total (stats run) + 1 |};
         times := times run ++ [ms] |}
  | inr message =>
      {| results := results run
                    ++ [ {| Worker.matchId := matchId; Worker.scrapeId := scrapeId;
                            details := None; r_dateInfo := None;
                            error := Some (JPrim (PStr message)) |} ];
         stats := {| ok := ok (stats run); fail := fail (stats run) + 1;
                     total := total (stats run) + 1 |};
         times := times run ++ [ms] |}
  end.

Fixpoint loop (scrape : nat → jsval → MatchSummary + string)
    (clock elapsed : nat → Z) (i : nat) (batch : list (gmap string jsval))
    (run : Run) : Run :=
  match batch with
  | [] => run
  | row :: rest =>
      loop scrape clock elapsed (S i) rest
        (turn (scrape i) (clock i) (elapsed i) run row)
  end.

(** [times.reduce((a,b)=>a+b)]: without an initial value, an empty array
    has nothing to start from. *)
Definition sum (times : list Z) : outcome Z :=
  match times with
  | [] => Throw (TypeError "Reduce of empty array with no initial value")
  | t :: rest => Ok (fold_left Z.add rest t)
  end.

(** [Math.round(a / b)] for a positive [b]: the nearest integer, a half
    rounded up. *)
Definition roundDiv (a b : Z) : Z := (2 * a + b) / (2 * b).

(** The script from the loop on: what [output.json] holds in the end, the
    counters, and the average it reports or what it dies of. *)
Record Finished := {
  output : option (list ResultEntry);
  counters : Stats;
  average : outcome Z
}.

Definition main (writable : bool) (scrape : nat → jsval → MatchSummary + string)
    (clock elapsed : nat → Z) (batch : list (gmap string jsval)) : Finished :=
  let run := loop scrape clock elapsed 0 batch start in
  if writable then
    {| output := Some (results run);
       counters := stats run;
       average := s ← sum (times run);
                  Ok (roundDiv s (Z.of_nat (length (times run)))) |}
  else
    {| output := None; counters := stats run;
       average := Throw (IOError "output.json") |}.

End BatchScript.

(** ** Vocabulary for the importer's counters *)

Module ImportCount.

Import Worker ImportArtifacts Ops.

(** The entries of a result file that take effect, and those that are
    counted as errors. *)
Definition imported (r : ResultEntry) : bool :=
  bool_decide (effective r ≠ None).

Definition skipped (r : ResultEntry) : bool :=
  bool_decide (effective r = None).

Definition addErrors (n : Z) (t : Totals) : Totals :=
  {| totalProcessed := totalProcessed t + n;
     totalSuccessful := totalSuccessful t;
     totalErrors := totalErrors t + n |}.

End ImportCount.

(** ** fetch-artifacts.js *)

Module FetchArtifacts.

Import Regex.

(** *** The pages of the artifact list *)

(** The loop over the pages: [listPage page] is the answer of the server,
    the artifacts of the page and [total_count].  The loop has no bound of
    its own; [fuel] bounds the number of requests here. *)
Fixpoint fetchPages {A} (fuel : nat) (listPage : Z → list A * Z) (page : Z)
    (allArtifacts : list A) : option (list A) :=
  match fuel with
  | O => None
  | S fuel' =>
      let '(artifacts, total_count) := listPage page in
      let allArtifacts := allArtifacts ++ artifacts in
      if (length artifacts =? 0)%nat
         || (total_count <=? Z.of_nat (length allArtifacts))
      then Some allArtifacts
      else fetchPages fuel' listPage (page + 1) allArtifacts
  end.

(** *** Names *)

(** [/batch-\d+.*results?/] at the start of the text. *)
Definition batchResultsAt (s : string) : list string :=
  w1 ← litStr "batch-" s;
  w2 ← many1 reDigit w1.2;
  w3 ← many0 reDot w2.2;
  w4 ← litStr "result" w3.2;
  w5 ← opt "s" w4.2;
  [w1.1 +:+ w2.1 +:+ w3.1 +:+ w4.1 +:+ w5.1].

(** The filter for batch artifacts: [a.name.match(...)] is not null. *)
Definition isBatchArtifact (name : string) : bool :=
  bool_decide (search batchResultsAt name ≠ None).

(** [/batch-(\d+)/] at the start of the text: the group. *)
Definition batchAt (s : string) : list string :=
  w1 ← litStr "batch-" s;
  w2 ← many1 reDigit w1.2;
  [w2.1].

(** [parseInt(digits, 10)] on a run of digits.  The value is the number
    the digits denote; [parseInt] returns that number when it is below
    2^53 and the nearest double beyond. *)
Definition parseInt (digits : string) : Z :=
  let fix go (acc : Z) (s : string) : Z :=
    match s with
    | String a r =>
        if reDigit a then go (10 * acc + Z.of_nat (nat_of_ascii a - 48)) r
        else acc
    | "" => acc
    end in
  go 0 digits.

(** The name under which the JSON of an artifact is saved. *)
Definition outputFileName (name : string) : string :=
  match search batchAt name with
  | Some digits =>
      if negb (String.eqb digits "") then
        let batchNum := parseInt digits in
        let batchNumPadded := padStart 3 "0" (numToString batchNum) in
        "batch-" +:+ batchNumPadded +:+ ".json-results"
      else name
  | None => name
  end.

(** *** The loop over the batch artifacts *)

(** An artifact: its name and what downloading and unpacking it gives,
    an error or the files, each with its content when it can be copied. *)
Record Artifact := {
  name : string;
  extracted : outcome (list (string * option string))
}.

(** The output folder, as the files written in order (a later one
    replaces an earlier one of the same name), and the counters. *)
Record Progress := {
  written : list (string * string);
  successCount : Z;
  errorCount : Z
}.

Definition saveJson (artifact : Artifact) (p : Progress) (jsonContent : string)
  : Progress :=
  {| written := written p ++ [(outputFileName (name artifact), jsonContent)];
     successCount := successCount p + 1;
     errorCount := errorCount p |}.

Definition failed (p : Progress) : Progress :=
  {| written := written p; successCount := successCount p;
     errorCount := errorCount p + 1 |}.

(** The loop over the JSON files of one artifact; a file that cannot be
    copied ends it with an error. *)
Fixpoint saveAll (artifact : Artifact) (p : Progress)
    (jsonFiles : list (string * option string)) : Progress :=
  match jsonFiles with
  | [] => p
  | (_, Some jsonContent) :: rest =>
      saveAll artifact (saveJson artifact p jsonContent) rest
  | (_, None) :: _ => failed p
  end.

Definition processArtifact (p : Progress) (artifact : Artifact) : Progress :=
  match extracted artifact with
  | Ok files =>
      let jsonFiles := List.filter (fun file => endsWith ".json" file.1) files in
      if (0 <? length jsonFiles)%nat
      then saveAll artifact p jsonFiles
      else failed p
  | Throw _ => failed p
  end.

Definition processAll (allArtifacts : list Artifact) : Progress :=
  let batchArtifacts :=
    List.filter (fun a => isBatchArtifact (name a)) allArtifacts in
  fold_left processArtifact batchArtifacts
    {| written := []; successCount := 0; errorCount := 0 |}.

End FetchArtifacts.

(** ** import-artifacts.js: the files of the directory *)

Module ImportDirectory.

Import Database Worker ImportArtifacts Regex.

(** [main], from the listing of the directory on.  A file is its name and
    the entries it parses to, or none when it cannot be read as an array
    of entries: such a file is skipped. *)
Definition main (now : Z) (st : Store)
    (files : list (string * option (list ResultEntry))) : Store * Totals :=
  let jsonFiles := List.filter (fun f => endsWith ".json" f.1) files in
  fold_left (fun acc file =>
               match file.2 with
               | Some results => importFile now acc results
               | None => acc
               end)
    jsonFiles (st, noTotals).

End ImportDirectory.

(** ** Vocabulary for the artifact list *)

Module FetchSpec.

(** A server that holds [items] and answers a request for a page with the
    hundred items of that page and the number of all items. *)
Definition honest {A} (items : list A) (page : Z) : list A * Z :=
  (firstn 100 (skipn (100 * Z.to_nat (page - 1)) items),
   Z.of_nat (length items)).

End FetchSpec.

(** ** scrape-match-summary.js: from the page data to the summary *)

Module SummaryTail.

Import Utils Dates Worker.

(** What the page gives for a team: its name and the id from its link,
    each a string or null. *)
Record TeamData := {
  name : jsval;
  id : jsval
}.

(** The [normalize] of this file, the same text as in [createInternalId];
    [toLowerCase] is the engine's. *)
Definition normalize (toLowerCase : string → string) (s : jsval)
  : outcome string :=
  match s with
  | JPrim PUndefined | JPrim PNull => Ok ""
  | JPrim (PStr s) =>
      let r := keepLowerAlnum (toLowerCase s) in
      Ok (if String.eqb r "" then "" else r)
  | _ => Throw (TypeError "s?.toLowerCase is not a function")
  end.

Record Team := {
  data : TeamData;
  internalId : string
}.

Record Teams := {
  home : Team;
  away : Team;
  league : jsval
}.

(** The date information and the teams of the summary. *)
Record Tail := {
  dateInfo : option DateInfo;
  teams : Teams
}.

Definition tail (dateParse : string → option Z)
    (toLowerCase : string → string) (dateStr : jsval)
    (home away : TeamData) (league : jsval) : outcome Tail :=
  matchDate ← parseDate dateParse dateStr;
  dateInfo ←
    (if truthy matchDate then
       properInternalId ←
         createInternalId toLowerCase (name home) (name away) matchDate;
       Ok (Some {| parsedDate := matchDate;
                   properInternalId := JPrim (PStr properInternalId) |})
     else Ok None);
  homeId ← normalize toLowerCase (name home);
  awayId ← normalize toLowerCase (name away);
  Ok {| dateInfo := dateInfo;
        teams := {| home := {| data := home; internalId := homeId |};
                    away := {| data := away; internalId := awayId |};
                    league := league |} |}.

End SummaryTail.

(** ** database.js: leagues *)

Module Leagues.

Import Mongo.

(** The filter of one operation: [{country: league.country, league:
    league.league}]. *)
Definition leagueFilter (league d : gmap string jsval) : bool :=
  fieldEq "country" (getField "country" league) d
  && fieldEq "league" (getField "league" league) d.

Record BulkWriteResult := {
  upsertedCount : Z;
  matchedCount : Z
}.

(** One [updateOne] with [upsert: true] of the bulk write; [op] is the
    league and the reading of the clock it was stamped with. *)
Definition upsertLeague (acc : list (gmap string jsval) * BulkWriteResult)
    (op : gmap string jsval * Z) : list (gmap string jsval) * BulkWriteResult :=
  let '(c, res) := acc in
  let league := op.1 in
  let u := set (<["updatedAt" := JDate (Some op.2)]> league) in
  let '(c', hit) := updateOne (leagueFilter league) u c in
  if hit then
    (c', {| upsertedCount := upsertedCount res;
            matchedCount := matchedCount res + 1 |})
  else
    (c ++ [u {[ "country" := toBson (getField "country" league);
                "league" := toBson (getField "league" league) ]}],
     {| upsertedCount := upsertedCount res + 1;
        matchedCount := matchedCount res |}).

Fixpoint stamp (clock : nat → Z) (i : nat) (leagues : list (gmap string jsval))
  : list (gmap string jsval * Z) :=
  match leagues with
  | [] => []
  | league :: rest => (league, clock i) :: stamp clock (S i) rest
  end.

(** [saveLeagues(leagues)].  [arg] is [None] when the argument is no
    array.  The write is unordered: [schedule] is the order in which the
    server takes the operations. *)
Definition saveLeagues
    (schedule : list (gmap string jsval * Z) → list (gmap string jsval * Z))
    (clock : nat → Z) (arg : option (list (gmap string jsval)))
    (c : list (gmap string jsval))
  : list (gmap string jsval) * (Z + BulkWriteResult) :=
  match arg with
  | None | Some [] => (c, inl 0)
  | Some leagues =>
      let bulkOps := stamp clock 0 leagues in
      let '(c', res) :=
        fold_left upsertLeague (schedule bulkOps)
          (c, {| upsertedCount := 0; matchedCount := 0 |}) in
      (c', inr res)
  end.

(** [sort({country: 1, league: 1})] *)
Definition byCountryLeague (d1 d2 : gmap string jsval) : bool :=
  if valueLeb (d1 !! "country") (d2 !! "country")
     && valueLeb (d2 !! "country") (d1 !! "country")
  then valueLeb (d1 !! "league") (d2 !! "league")
  else valueLeb (d1 !! "country") (d2 !! "country").

(** [getLeagues(filter)] *)
Definition getLeagues (filter : gmap string jsval → bool)
    (c : list (gmap string jsval)) : list (gmap string jsval) :=
  sortBy byCountryLeague (find filter c).

(** The key a league is filed under. *)
Definition keyOf (league : gmap string jsval) : jsval * jsval :=
  (toBson (getField "country" league), toBson (getField "league" league)).

End Leagues.

(** ** Vocabulary for the key of the reconciler *)

Module KeySpec.

Import InternalIdSpec.





End KeySpec.

(** ** import-artifacts.js: a file as [JSON.parse] returns it *)

Module ImportParsed.

Import Database Worker ImportArtifacts.

(** [totalProcessed++], which comes before the [try]. *)
Definition countProcessed (t : Totals) : Totals :=
  {| totalProcessed := totalProcessed t + 1;
     totalSuccessful := totalSuccessful t;
     totalErrors := totalErrors t |}.

(** The loop over the elements of the parsed array.  An element is [None]
    when it is null: reading [result.error] throws inside the [try], the
    handler reads [result.matchId] for its message and throws as well, and
    this second error leaves the loop; the handler of the file catches it
    and the importer goes on with the next file.  An element that is not
    null is read through its properties, which are all absent for a number,
    a text or a boolean. *)
Fixpoint importResults (now : Z) (acc : Store * Totals)
    (results : list (option ResultEntry)) : Store * Totals :=
  match results with
  | [] => acc
  | Some r :: rest => importResults now (importEntry now acc r) rest
  | None :: _ => (acc.1, countProcessed acc.2)
  end.

(** [main], from the loop over the files on.  A file is [None] when it
    cannot be read or parsed, or parses to a value that cannot be iterated:
    the handler of the file logs it and the file is skipped. *)
Definition main (now : Z) (st : Store)
    (jsonFiles : list (option (list (option ResultEntry)))) : Store * Totals :=
  fold_left (fun acc file =>
               match file with
               | Some results => importResults now acc results
               | None => acc
               end)
    jsonFiles (st, noTotals).

End ImportParsed.

(** ** Vocabulary for parsed files *)

Module ParsedSpec.

Import Worker.

(** The entries of a parsed file that come before its first null. *)
Fixpoint readEntries (results : list (option ResultEntry)) : list ResultEntry :=
  match results with
  | Some r :: rest => r :: readEntries rest
  | _ => []
  end.

(** The file holds a null. *)
Definition cutShort (results : list (option ResultEntry)) : bool :=
  existsb (fun x => bool_decide (x = None)) results.

(** The same for a file that may be unreadable. *)
Definition entriesOf (file : option (list (option ResultEntry)))
  : list ResultEntry :=
  match file with
  | Some results => readEntries results
  | None => []
  end.

Definition isCutShort (file : option (list (option ResultEntry))) : bool :=
  match file with
  | Some results => cutShort results
  | None => false
  end.

(** A file with a null between an error entry and another error entry. *)
Definition withNull : list (option ResultEntry) :=
  [Some (ImportSpec.errorFor "m1" 1 "Navigation timeout"); None;
   Some (ImportSpec.errorFor "m2" 2 "Navigation timeout")].

End ParsedSpec.

(** * Properties *)

(** ** Event reconciliation (utils.js) *)

Section ReconcilerFacts.

Import Utils Reconcile.






















End ReconcilerFacts.



(** ** The worker's dedupe (scrape-match-summary.js) *)

(** C2, at the failing input.  On the two sightings of the goal the worker's
    [dedupeEvents] keeps the first one as it is, without the assist, where
    the reconciler of utils.js returns it with assist B; a later own-goal
    sighting does not set the flag; and the summary of a page that reports
    the goal twice carries the event without its assist. *)
Theorem worker_dedupe_drops_merge :
  Summary.dedupeEvents [Reconcile.goalNoAssist; Reconcile.goalWithAssist]
    = [Reconcile.goalNoAssist]
  ∧ Summary.summaryEvents
      [Reconcile.pageGoal PNull; Reconcile.pageGoal (PStr "B")]
    = JEvents [Reconcile.pageGoal PNull]
  ∧ Utils.dedupeEvents
      (map Summary.stripEvent
         [Reconcile.pageGoal PNull; Reconcile.pageGoal (PStr "B")])
    = [Reconcile.pageGoal (PStr "B")]
  ∧ Utils.dedupeEvents [Reconcile.goalNoAssist; Reconcile.goalWithAssist]
    = [Reconcile.goalWithAssist]
  ∧ Summary.dedupeEvents [Reconcile.goalNoAssist; Reconcile.goalWithAssist]
    ≠ Utils.dedupeEvents [Reconcile.goalNoAssist; Reconcile.goalWithAssist]
  ∧ Summary.dedupeEvents
      [Reconcile.goalNoAssist;
       Utils.setIsOwnGoal (PBool true) Reconcile.goalNoAssist]
    ≠ Utils.dedupeEvents
      [Reconcile.goalNoAssist;
       Utils.setIsOwnGoal (PBool true) Reconcile.goalNoAssist].
Proof.
  repeat split; try reflexivity; vm_compute; discriminate.
Qed.

(** ** Bulk insert (database.js) *)

Section BulkInsert.

Import Mongo Database.

Lemma keyTaken_app k c1 c2 :
  keyTaken k (c1 ++ c2) = keyTaken k c1 || keyTaken k c2.
Proof. unfold keyTaken. apply existsb_app. Qed.

Lemma keyTaken_self d c : keyTaken (indexKey d) (c ++ [d]) = true.
Proof.
  rewrite keyTaken_app. simpl. rewrite bool_decide_true by reflexivity.
  now rewrite orb_true_r.
Qed.

(** What an unordered bulk insert leaves behind. *)
Lemma insertUnordered_spec docs : ∀ c,
  ∃ ins, insertUnordered docs c
         = (c ++ ins, Z.of_nat (length ins),
            Z.of_nat (length docs) - Z.of_nat (length ins))
    ∧ sublist ins docs
    ∧ (∀ d, In d docs → keyTaken (indexKey d) (c ++ ins) = true)
    ∧ (∀ d, In d ins → keyTaken (indexKey d) c = false).
Proof.
  induction docs as [|d t IH]; intros c.
  - exists []. simpl. rewrite app_nil_r. repeat split; try tauto. constructor.
  - simpl. destruct (keyTaken (indexKey d) c) eqn:K.
    + destruct (IH c) as (ins & E & Hs & Hall & Hnew). rewrite E.
      exists ins. repeat split.
      * f_equal. lia.
      * now apply sublist_cons.
      * intros d' [<-|H]; [|auto]. rewrite keyTaken_app, K. reflexivity.
      * exact Hnew.
    + destruct (IH (c ++ [d])) as (ins & E & Hs & Hall & Hnew). rewrite E.
      exists (d :: ins). rewrite <- app_assoc. simpl. repeat split.
      * f_equal; [f_equal|]; lia.
      * now apply sublist_skip.
      * intros d' [<-|H].
        -- change (c ++ d :: ins) with (c ++ [d] ++ ins).
           rewrite app_assoc, keyTaken_app, keyTaken_self. reflexivity.
        -- specialize (Hall d' H). now rewrite <- app_assoc in Hall.
      * intros d' [<-|H]; [exact K|].
        specialize (Hnew d' H). rewrite keyTaken_app in Hnew.
        now apply orb_false_iff in Hnew.
Qed.

End BulkInsert.



(** ** Selection order (database.js) *)

Section SelectionOrder.

Import Mongo Database.

Lemma valueLeb_total a b : valueLeb a b = true ∨ valueLeb b a = true.
Proof.
  unfold valueLeb.
  destruct (typeRank a <? typeRank b) eqn:E1; [now left|].
  destruct (typeRank b <? typeRank a) eqn:E2; [now right|].
  destruct a as [[[| |x|x|x]|[x|]|x|x]|], b as [[[| |y|y|y]|[y|]|y|y]|];
    simpl in *; try discriminate; auto.
  - destruct x, y; simpl; auto.
  - destruct (Z.leb_spec x y); [now left|]. right. apply Z.leb_le. lia.
  - apply String.leb_total.
  - destruct (Z.leb_spec x y); [now left|]. right. apply Z.leb_le. lia.
Qed.


Variable A : Type.
Variable le : A → A → bool.
Hypothesis le_total : ∀ x y, le x y = true ∨ le y x = true.

Lemma insertBy_perm x l : Permutation (x :: l) (insertBy le x l).
Proof.
  induction l as [|y t IH]; simpl; [reflexivity|].
  destruct (le x y); [reflexivity|].
  rewrite perm_swap. now constructor.
Qed.

Lemma insertBy_sorted x l : ascending le l → ascending le (insertBy le x l).
Proof.
  induction l as [|y t IH]; simpl; intros HS.
  - repeat constructor.
  - destruct (le x y) eqn:E.
    + constructor; [exact HS|]. now constructor.
    + inversion HS as [|? ? HS' Hhd]; subst.
      constructor; [now apply IH|].
      destruct t as [|z t']; simpl.
      * constructor. destruct (le_total x y); congruence.
      * destruct (le x z).
        -- constructor. destruct (le_total x y); congruence.
        -- inversion Hhd; subst. now constructor.
Qed.

Lemma sortBy_perm l : Permutation l (sortBy le l).
Proof.
  induction l as [|x t IH]; simpl; [reflexivity|].
  rewrite <- insertBy_perm. now constructor.
Qed.

Lemma sortBy_sorted l : ascending le (sortBy le l).
Proof.
  induction l as [|x t IH]; simpl; [constructor|]. now apply insertBy_sorted.
Qed.



Lemma limit_prefix n (l : list A) : ∃ rest, l = Mongo.limit n l ++ rest.
Proof.
  unfold Mongo.limit. destruct (n =? 0).
  - exists []. now rewrite app_nil_r.
  - exists (skipn (Z.abs_nat n) l). now rewrite firstn_skipn.
Qed.

End SelectionOrder.



(** ** The shard workers *)

Section WorkerFacts.

Import Worker.

Lemma scrapeOne_shape scrape now row :
  let r := scrapeOne scrape now row in
  matchId r = rowMatchId row ∧ scrapeId r = rowScrapeId row
  ∧ (successEntry r ∨ failureEntry r)
  ∧ oneOfDetailsOrError r = true.
Proof.
  unfold scrapeOne, successEntry, failureEntry, oneOfDetailsOrError.
  destruct (scrape (rowMatchId row)); simpl.
  - repeat split; auto; try (left; repeat split; congruence).
  - repeat split; auto; try (right; repeat split; congruence).
Qed.

Lemma scrapeLoop_app scrape now batch : ∀ i results,
  scrapeLoop scrape now i batch results
  = results ++ scrapeLoop scrape now i batch [].
Proof.
  induction batch as [|row rest IH]; intros i results; simpl.
  - now rewrite app_nil_r.
  - rewrite IH, (IH _ [_]). now rewrite app_assoc.
Qed.

(** scrape-batch.js pushes one entry per row, in order, each with exactly
    one of [details] and [error]. *)
Lemma scrapeBatch_entries scrape now batch :
  map matchId (scrapeBatch scrape now batch) = map rowMatchId batch
  ∧ map scrapeId (scrapeBatch scrape now batch) = map rowScrapeId batch
  ∧ Forall (fun r => (successEntry r ∨ failureEntry r)
                     ∧ oneOfDetailsOrError r = true)
      (scrapeBatch scrape now batch).
Proof.
  unfold scrapeBatch. generalize 0%nat.
  induction batch as [|row rest IH]; intros i; simpl.
  - repeat split; constructor.
  - rewrite scrapeLoop_app. simpl.
    destruct (IH (S i)) as (H1 & H2 & H3).
    destruct (scrapeOne_shape (scrape i) now row) as (G1 & G2 & G3 & G4).
    rewrite H1, H2, G1, G2. repeat split; auto.
Qed.

End WorkerFacts.

(** C6, at the failing input.  On a shard of one row whose scrape step
    succeeds, scrape-batch-with-mem.js emits the entry with [matchId] and
    [scrapeId] only: it carries neither [details] nor [error] (nor
    [dateInfo]), where scrape-batch.js emits a success entry with
    [details] and [dateInfo]. *)
Theorem withMem_success_entry_is_bare :
  (∀ now,
     Worker.scrapeBatchWithMem 0 Worker.scrapeOk now Worker.oneRow
     = [ {| Worker.matchId := JPrim (PStr "m1");
            Worker.scrapeId := JPrim (PNum 1);
            Worker.details := None;
            Worker.r_dateInfo := None;
            Worker.error := None |} ])
  ∧ (∀ now,
       Forall (fun r => Worker.oneOfDetailsOrError r = false)
         (Worker.scrapeBatchWithMem 0 Worker.scrapeOk now Worker.oneRow))
  ∧ (∀ now,
       Forall (fun r => Worker.successEntry r
                        ∧ Worker.oneOfDetailsOrError r = true)
         (Worker.scrapeBatch Worker.scrapeOk now Worker.oneRow)).
Proof.
  split; [|split]; intros now.
  - reflexivity.
  - repeat constructor.
  - repeat constructor; simpl; congruence.
Qed.

(** ** The partitioner (export-batches.js) *)

Section Partitioner.

Import Mongo ExportBatches.

Variable writable : string → bool.
Variable now : Z.
Variable cfg : Config.

(** The collection the run started from. *)
Variable c : list (gmap string jsval).

Lemma markQueued_idemp d : markQueued now (markQueued now d) = markQueued now d.
Proof. unfold markQueued, set. by rewrite (assoc_L (∪)), (idemp_L (∪)). Qed.

Lemma markQueued_matchId d : markQueued now d !! "matchId" = d !! "matchId".
Proof.
  unfold markQueued, set. rewrite lookup_union_r; [reflexivity|].
  rewrite lookup_fmap. reflexivity.
Qed.

Lemma fieldIn_markQueued ids d :
  fieldIn "matchId" ids (markQueued now d) = fieldIn "matchId" ids d.
Proof.
  unfold fieldIn, fieldEq. now rewrite markQueued_matchId.
Qed.

Lemma flush_marks st st' :
  flush writable now st = Ok st' → PartitionSpec.marksFollowFiles now c st → PartitionSpec.marksFollowFiles now c st'.
Proof.
  unfold flush. destruct (writable _); [|discriminate].
  intros [= <-] [Hlen Hinv]. split; simpl.
  - unfold updateMany. now rewrite length_map.
  - intros i d d' Hc Hs. unfold updateMany in Hs.
    rewrite list_lookup_fmap in Hs.
    destruct (store st !! i) as [d1|] eqn:E1; [|discriminate].
    simpl in Hs. injection Hs as <-.
    destruct (Hinv i d d1 Hc E1) as [->|(-> & name & shard & Hin & Hsel)].
    + destruct (fieldIn "matchId" _ d) eqn:Q; [|now left].
      right. split; [reflexivity|].
      exists (fileName (fileIdx st + 1)), (buf st). split; [|exact Q].
      apply in_or_app. right. now left.
    + right. rewrite fieldIn_markQueued.
      assert (E : (if fieldIn "matchId" (map (getField "matchId") (buf st)) d
                   then markQueued now (markQueued now d)
                   else markQueued now d) = markQueued now d).
      { destruct (fieldIn "matchId" (map (getField "matchId") (buf st)) d);
          [apply markQueued_idemp | reflexivity]. }
      rewrite E. split; [reflexivity|].
      exists name, shard. split; [|exact Hsel]. apply in_or_app. now left.
Qed.

Lemma flush_files st st' :
  flush writable now st = Ok st' →
  shards st' = shards st ++ [buf st] ∧ buf st' = [].
Proof.
  unfold flush. destruct (writable _); [|discriminate].
  intros [= <-]. unfold shards. simpl. now rewrite map_app.
Qed.

Lemma init_of_snoc {A} (P : A → Prop) (l init : list A) x last :
  Forall P l → l ++ [x] = init ++ [last] → Forall P init.
Proof. intros H E. apply app_inj_tail in E. destruct E as [<- _]. exact H. Qed.

Lemma init_of_full {A} (P : A → Prop) (l init : list A) last :
  Forall P l → l = init ++ [last] → Forall P init.
Proof. intros H ->. apply Forall_app in H. tauto. Qed.

(** The invariant of the export loop. *)
Lemma exportLoop_spec cur : ∀ st st' err,
  exportLoop writable now cfg cur st = (st', err) →
  PartitionSpec.marksFollowFiles now c st →
  Forall (PartitionSpec.fullShard cfg) (shards st) →
  Forall (fun s => s ≠ []) (shards st) →
  PartitionSpec.marksFollowFiles now c st'
  ∧ (∃ rem, concat (shards st') ++ buf st' ++ rem
            = concat (shards st) ++ buf st ++ cur
            ∧ (err = None → buf st' = [] ∧ rem = []))
  ∧ (∀ init last, shards st' = init ++ [last] → Forall (PartitionSpec.fullShard cfg) init)
  ∧ Forall (fun s => s ≠ []) (shards st').
Proof.
  induction cur as [|m rest IH]; intros st st' err Hrun HM HF HN; simpl in Hrun.
  - case_bool_decide as Hb.
    + destruct (flush writable now st) as [st1|e] eqn:Hfl.
      * injection Hrun as <- <-.
        destruct (flush_files _ _ Hfl) as [Hsh Hbuf].
        split; [eapply flush_marks; eauto|]. split; [|split].
        -- exists []. rewrite Hsh, Hbuf, concat_app. simpl.
           rewrite !app_nil_r. auto.
        -- intros init last E. rewrite Hsh in E. eapply init_of_snoc; eauto.
        -- rewrite Hsh. apply Forall_app. split; [exact HN|]. now constructor.
      * injection Hrun as <- <-. split; [exact HM|]. split; [|split].
        -- exists []. split; [reflexivity | discriminate].
        -- intros init last E. eapply init_of_full; eauto.
        -- exact HN.
    + injection Hrun as <- <-. split; [exact HM|]. split; [|split].
      * exists []. split; [reflexivity|]. intros _. split; [|reflexivity].
        destruct (buf st); [reflexivity | discriminate Hb].
      * intros init last E. eapply init_of_full; eauto.
      * exact HN.
  - set (st1 := push m st) in *.
    assert (HM1 : PartitionSpec.marksFollowFiles now c st1) by exact HM.
    change (buf st ++ [m]) with (buf st1) in Hrun.
    destruct (Z.of_nat (length (buf st1)) =? LIMIT cfg) eqn:Hfull.
    + destruct (flush writable now st1) as [st2|e] eqn:Hfl.
      * destruct (flush_files _ _ Hfl) as [Hsh Hbuf].
        assert (HF2 : Forall (PartitionSpec.fullShard cfg) (shards st2)).
        { rewrite Hsh. apply Forall_app. split; [exact HF|].
          constructor; [|constructor]. unfold PartitionSpec.fullShard. lia. }
        assert (HN2 : Forall (fun s => s ≠ []) (shards st2)).
        { rewrite Hsh. apply Forall_app. split; [exact HN|].
          constructor; [|constructor]. simpl. now destruct (buf st). }
        destruct (IH st2 st' err Hrun (flush_marks _ _ Hfl HM1) HF2 HN2)
          as (R1 & (rem & R2 & R3) & R4 & R5).
        split; [exact R1|]. split; [|split; assumption].
        exists rem. split; [|exact R3].
        rewrite R2, Hsh, Hbuf, concat_app. simpl.
        rewrite app_nil_r, <- !app_assoc. reflexivity.
      * injection Hrun as <- <-. split; [exact HM1|]. split; [|split].
        -- exists rest. split; [|discriminate]. simpl.
           now rewrite <- app_assoc.
        -- intros init last E. eapply init_of_full; eauto.
        -- exact HN.
    + destruct (IH st1 st' err Hrun HM1 HF HN) as (R1 & (rem & R2 & R3) & R4 & R5).
      split; [exact R1|]. split; [|split; assumption].
      exists rem. split; [|exact R3]. rewrite R2. simpl.
      now rewrite <- app_assoc.
Qed.

Lemma project_matchId d :
  getField "matchId" (project ["scrapeId"; "matchId"] d) = getField "matchId" d.
Proof.
  unfold getField, project. f_equal.
  destruct (d !! "matchId") as [v|] eqn:E.
  - apply map_lookup_filter_Some. split; [exact E|]. simpl.
    apply list_elem_of_In. simpl. tauto.
  - apply map_lookup_filter_None. now left.
Qed.

End Partitioner.


(** ** The importer (import-artifacts.js) *)

Section Importer.

Import Mongo Database Worker ImportArtifacts ImportSpec.

Lemma set_lookup (s d : gmap string jsval) f :
  set s d !! f = match s !! f with
                 | Some v => Some (toBson v)
                 | None => d !! f
                 end.
Proof.
  unfold set. destruct (s !! f) as [v|] eqn:E.
  - apply lookup_union_Some_l. now rewrite lookup_fmap, E.
  - apply lookup_union_r. now rewrite lookup_fmap, E.
Qed.

Lemma updateOne_cases q u (c : list (gmap string jsval)) :
  (∃ pre d post, c = pre ++ d :: post
                 ∧ Forall (fun x => q x = false) pre ∧ q d = true
                 ∧ updateOne q u c = (pre ++ u d :: post, true))
  ∨ (Forall (fun x => q x = false) c ∧ updateOne q u c = (c, false)).
Proof.
  induction c as [|d t IH]; simpl.
  - right. auto.
  - destruct (q d) eqn:Q.
    + left. exists [], d, t. auto.
    + destruct IH as [(pre & x & post & -> & Hpre & Hx & ->)|[Hall ->]].
      * left. exists (d :: pre), x, post. repeat split; auto.
      * right. split; auto.
Qed.

Lemma updateOne_firstUpdated q u c : firstUpdated q u c (fst (updateOne q u c)).
Proof.
  destruct (updateOne_cases q u c) as [(pre & d & post & E & Hpre & Hd & ->)
                                      |[Hall ->]]; simpl.
  - left. exists pre, d, post. auto.
  - right. auto.
Qed.

Lemma upsertOne_firstUpserted f v u c :
  firstUpserted (fieldEq f v) u {[ f := toBson v ]} c (upsertOne f v u c).
Proof.
  unfold upsertOne.
  destruct (updateOne_cases (fieldEq f v) u c)
    as [(pre & d & post & E & Hpre & Hd & ->)|[Hall ->]].
  - left. exists pre, d, post. auto.
  - right. auto.
Qed.

(** An entry marked as an error, or one that carries neither [details] nor
    a proper internal id, leaves the store as it is. *)
Lemma importEntry_error now st t r :
  hasError r = true ∨ (details r = None ∧ r_dateInfo r = None) →
  importEntry now (st, t) r = (st, countError t).
Proof.
  unfold importEntry. intros [->|[Hd Hi]]; [reflexivity|].
  destruct (hasError r); [reflexivity|].
  unfold internalIdOf. now rewrite Hi, Hd.
Qed.

Lemma internalIdOf_details r d :
  details r = Some d → internalIdOf r = Ok (writtenInternalId r d).
Proof.
  unfold internalIdOf, writtenInternalId. intros ->.
  destruct (r_dateInfo r) as [[di|]|]; simpl; try reflexivity.
  now destruct (truthy (properInternalId di)).
Qed.

Lemma dateOf_written r : dateOf r = writtenDate r.
Proof.
  unfold dateOf, writtenDate, orElse.
  now destruct (r_dateInfo r) as [[di|]|].
Qed.

(** What a success entry does to the two collections. *)
Lemma importEntry_success now st t r d :
  hasError r = false → details r = Some d →
  importEntry now (st, t) r
  = ({| matches :=
          fst (updateOne (fieldEq "matchId" (matchId r))
                 (set (matchUpdate now r (writtenInternalId r d))) (matches st));
        match_details :=
          upsertOne "matchId" (matchId r) (set (detailsUpdate now r))
            (match_details st) |},
     countSuccess t).
Proof.
  intros He Hd. unfold importEntry. rewrite He, (internalIdOf_details r d Hd).
  now destruct (updateOne _ _ (matches st)).
Qed.

(** Neither the mark of the exporter nor the update of the importer
    touches a field outside those they set. *)
Lemma updateOne_field q s f (c : list (gmap string jsval)) :
  s !! f = None →
  fieldsOf f (fst (updateOne q (set s) c)) = fieldsOf f c.
Proof.
  intros Hs. induction c as [|d t IH]; simpl; [reflexivity|].
  destruct (q d); simpl.
  - unfold fieldsOf. simpl. now rewrite set_lookup, Hs.
  - destruct (updateOne q (set s) t) as [t' hit]. simpl in *.
    unfold fieldsOf in *. simpl. now rewrite IH.
Qed.

Lemma updateMany_field q s f (c : list (gmap string jsval)) :
  s !! f = None →
  fieldsOf f (updateMany q (set s) c) = fieldsOf f c.
Proof.
  intros Hs. unfold fieldsOf, updateMany. rewrite map_map.
  apply map_ext. intros d. destruct (q d); [|reflexivity].
  now rewrite set_lookup, Hs.
Qed.

Lemma importEntry_attempts now acc r :
  fieldsOf "processingAttempts" (matches (fst (importEntry now acc r)))
  = fieldsOf "processingAttempts" (matches (fst acc)).
Proof.
  destruct acc as [st t]. unfold importEntry.
  destruct (hasError r); [reflexivity|].
  destruct (internalIdOf r) as [iid|e]; [|reflexivity].
  pose proof (updateOne_field (fieldEq "matchId" (matchId r))
                (matchUpdate now r iid) "processingAttempts" (matches st)) as H.
  destruct (updateOne _ _ (matches st)) as [ms hit]. simpl in *.
  apply H. reflexivity.
Qed.

Lemma importFile_attempts now results : ∀ acc,
  fieldsOf "processingAttempts" (matches (fst (importFile now acc results)))
  = fieldsOf "processingAttempts" (matches (fst acc)).
Proof.
  unfold importFile.
  induction results as [|r rest IH]; intros acc; simpl; [reflexivity|].
  now rewrite IH, importEntry_attempts.
Qed.

Lemma exportLoop_attempts writable now cfg cur : ∀ st,
  fieldsOf "processingAttempts"
    (ExportBatches.store (fst (ExportBatches.exportLoop writable now cfg cur st)))
  = fieldsOf "processingAttempts" (ExportBatches.store st).
Proof.
  assert (Hfl : ∀ st st', ExportBatches.flush writable now st = Ok st' →
            fieldsOf "processingAttempts" (ExportBatches.store st')
            = fieldsOf "processingAttempts" (ExportBatches.store st)).
  { intros st st'. unfold ExportBatches.flush.
    destruct (writable _); [|discriminate]. intros [= <-]. simpl.
    apply updateMany_field. reflexivity. }
  induction cur as [|m rest IH]; intros st; simpl.
  - case_bool_decide; [|reflexivity].
    destruct (ExportBatches.flush writable now st) eqn:E; simpl; eauto.
  - destruct (_ =? _).
    + destruct (ExportBatches.flush writable now (ExportBatches.push m st)) eqn:E;
        simpl; [|reflexivity].
      rewrite IH. now apply Hfl in E.
    + now rewrite IH.
Qed.

End Importer.


(** C5, as the code has it.  A success entry (no error, details present)
    is counted as a success and
    - updates the first match with its [matchId]: the status becomes
      complete, the date becomes [dateInfo.parsedDate] when that is there
      and truthy and null otherwise, the internal id becomes
      [dateInfo.properInternalId] when that is there and truthy and the
      internal id of the details otherwise, the timestamp is renewed, and no
      other field changes (the attempt counters in particular);
    - upserts the details under the entry's [matchId]: the first details
      document with that [matchId] takes the fields of the details, and when
      there is none a document with that [matchId] and these fields is added.
    Without [dateInfo] the date written is null. *)
Theorem import_success_entry :
  ∀ now st t r d,
    ImportArtifacts.hasError r = false → Worker.details r = Some d →
    ∃ st',
      ImportArtifacts.importEntry now (st, t) r
        = (st', ImportArtifacts.countSuccess t)
      ∧ ImportSpec.firstUpdated (Mongo.fieldEq "matchId" (Worker.matchId r))
          (fun m => {[ "processingStatus" := JPrim (PStr "complete");
                       "date" := Mongo.toBson (ImportSpec.writtenDate r);
                       "internalId" :=
                         Mongo.toBson (ImportSpec.writtenInternalId r d);
                       "updatedAt" := JDate (Some now) ]} ∪ m)
          (Database.matches st) (Database.matches st')
      ∧ ImportSpec.firstUpserted (Mongo.fieldEq "matchId" (Worker.matchId r))
          (fun old =>
             (Mongo.toBson <$> <["updatedAt" := JDate (Some now)]> d) ∪ old)
          {[ "matchId" := Mongo.toBson (Worker.matchId r) ]}
          (Database.match_details st) (Database.match_details st')
      ∧ ImportSpec.fieldsOf "processingAttempts" (Database.matches st')
        = ImportSpec.fieldsOf "processingAttempts" (Database.matches st)
      ∧ (Worker.r_dateInfo r = None ∨ Worker.r_dateInfo r = Some None →
         ImportSpec.writtenDate r = JPrim PNull
         ∧ ImportSpec.writtenInternalId r d = Mongo.getField "internalId" d).
Proof.
  intros now st t r d He Hd. eexists. split.
  { apply importEntry_success; eassumption. }
  simpl. split; [|split; [|split]].
  - assert (E : ∀ m, Mongo.set (ImportArtifacts.matchUpdate now r
                                   (ImportSpec.writtenInternalId r d)) m
                     = {[ "processingStatus" := JPrim (PStr "complete");
                          "date" := Mongo.toBson (ImportSpec.writtenDate r);
                          "internalId" :=
                            Mongo.toBson (ImportSpec.writtenInternalId r d);
                          "updatedAt" := JDate (Some now) ]} ∪ m).
    { intros m. unfold Mongo.set, ImportArtifacts.matchUpdate.
      rewrite !fmap_insert, map_fmap_singleton, dateOf_written. reflexivity. }
    destruct (updateOne_firstUpdated
                (Mongo.fieldEq "matchId" (Worker.matchId r))
                (Mongo.set (ImportArtifacts.matchUpdate now r
                              (ImportSpec.writtenInternalId r d)))
                (Database.matches st))
      as [(pre & m & post & E1 & Hpre & Hm & E2)|[Hall E2]].
    + left. exists pre, m, post. rewrite E2, E. auto.
    + right. auto.
  - assert (E : ∀ old, Mongo.set (ImportArtifacts.detailsUpdate now r) old
                       = (Mongo.toBson <$> <["updatedAt" := JDate (Some now)]> d)
                         ∪ old).
    { intros old. unfold ImportArtifacts.detailsUpdate, Mongo.set.
      now rewrite Hd. }
    destruct (upsertOne_firstUpserted "matchId" (Worker.matchId r)
                (Mongo.set (ImportArtifacts.detailsUpdate now r))
                (Database.match_details st))
      as [(pre & m & post & E1 & Hpre & Hm & E2)|[Hall E2]].
    + left. exists pre, m, post. rewrite E2, E. auto.
    + right. rewrite E2, E. auto.
  - apply updateOne_field. reflexivity.
  - unfold ImportSpec.writtenDate, ImportSpec.writtenInternalId.
    intros [->| ->]; auto.
Qed.

Lemma import_success_entry_witness :
  ∃ st',
    ImportArtifacts.importEntry 0 (ImportSpec.datedStore, ImportArtifacts.noTotals)
      ImportSpec.undatedSuccess
      = (st', ImportArtifacts.countSuccess ImportArtifacts.noTotals)
    ∧ ImportSpec.fieldsOf "processingAttempts" (Database.matches st')
      = ImportSpec.fieldsOf "processingAttempts"
          (Database.matches ImportSpec.datedStore).
Proof.
  destruct (import_success_entry 0 ImportSpec.datedStore ImportArtifacts.noTotals
              ImportSpec.undatedSuccess _ eq_refl eq_refl)
    as (st' & H1 & _ & _ & H4 & _).
  exists st'. split; assumption.
Defined.

(** C5 as stated does not hold: a success entry without [dateInfo] does not
    leave the date of the match as it was, it writes null over it. *)
Lemma import_without_dateInfo_nulls_date :
  let st' := fst (ImportArtifacts.importEntry 0
                    (ImportSpec.datedStore, ImportArtifacts.noTotals)
                    ImportSpec.undatedSuccess) in
  ImportSpec.dateFieldOf "m1" (Database.matches ImportSpec.datedStore)
    = JPrim (PStr "2025-04-25T15:00:00.000Z")
  ∧ ImportSpec.statusOf "m1" (Database.matches st') = JPrim (PStr "complete")
  ∧ ImportSpec.dateFieldOf "m1" (Database.matches st') = JPrim PNull
  ∧ ImportSpec.dateFieldOf "m1" (Database.matches st')
    ≠ ImportSpec.dateFieldOf "m1" (Database.matches ImportSpec.datedStore).
Proof.
  repeat split; try (vm_compute; reflexivity). vm_compute. discriminate.
Qed.

(** C3, as the code has it.  No run of the exporter and no import changes
    an attempt counter.  Exporting five pending matches in shards of two
    writes three files, of 2, 2 and 1 records, and marks the five queued.
    After the import of a result file with success entries for m1 and m2
    and an error entry for m3, three entries are counted, two as successes
    and one as an error, m1 and m2 are complete, m3 is still queued, and the
    attempt counter of m3 is what it was before the export. *)
Theorem export_import_five :
  (∀ writable now cfg (c : list (gmap string jsval)),
     ImportSpec.fieldsOf "processingAttempts"
       (ExportBatches.store (fst (ExportBatches.exportBatches writable now cfg c)))
     = ImportSpec.fieldsOf "processingAttempts" c)
  ∧ (∀ now acc results,
       ImportSpec.fieldsOf "processingAttempts"
         (Database.matches (fst (ImportArtifacts.importFile now acc results)))
       = ImportSpec.fieldsOf "processingAttempts" (Database.matches (fst acc)))
  ∧ (∀ now1 now2 a1 a2 a3 a4 a5 d1 d2 di1 di2 message,
       let run := ImportSpec.exported now1 a1 a2 a3 a4 a5 in
       let res :=
         ImportArtifacts.importFile now2
           (ImportSpec.afterExport now1 a1 a2 a3 a4 a5, ImportArtifacts.noTotals)
           [ImportSpec.successFor "m1" 1 d1 di1;
            ImportSpec.successFor "m2" 2 d2 di2;
            ImportSpec.errorFor "m3" 3 message] in
       snd run = None
       ∧ map (fun f => (fst f, length (snd f))) (ExportBatches.files (fst run))
         = [("batches/batch-001.json", 2%nat); ("batches/batch-002.json", 2%nat);
            ("batches/batch-003.json", 1%nat)]
       ∧ map (fun id => ImportSpec.statusOf id (ExportBatches.store (fst run)))
           ["m1"; "m2"; "m3"; "m4"; "m5"]
         = repeat (JPrim (PStr "queued")) 5
       ∧ snd res = {| ImportArtifacts.totalProcessed := 3;
                      ImportArtifacts.totalSuccessful := 2;
                      ImportArtifacts.totalErrors := 1 |}
       ∧ ImportSpec.statusOf "m1" (Database.matches (fst res))
         = JPrim (PStr "complete")
       ∧ ImportSpec.statusOf "m2" (Database.matches (fst res))
         = JPrim (PStr "complete")
       ∧ ImportSpec.statusOf "m3" (Database.matches (fst res))
         = JPrim (PStr "queued")
       ∧ ImportSpec.attemptsOf "m3" (Database.matches (fst res)) = a3
       ∧ ImportSpec.attemptsOf "m3" (ImportSpec.fiveMatches a1 a2 a3 a4 a5) = a3).
Proof.
  split; [|split].
  - intros. apply exportLoop_attempts.
  - intros. apply importFile_attempts.
  - intros now1 now2 a1 a2 a3 a4 a5 d1 d2 di1 di2 message run res.
    assert (Eres : res =
      ImportArtifacts.importEntry now2
        (ImportArtifacts.importEntry now2
           (ImportArtifacts.importEntry now2
              (ImportSpec.afterExport now1 a1 a2 a3 a4 a5, ImportArtifacts.noTotals)
              (ImportSpec.successFor "m1" 1 d1 di1))
           (ImportSpec.successFor "m2" 2 d2 di2))
        (ImportSpec.errorFor "m3" 3 message)) by reflexivity.
    rewrite (importEntry_success _ _ _ _ d1) in Eres by reflexivity.
    rewrite (importEntry_success _ _ _ _ d2) in Eres by reflexivity.
    rewrite importEntry_error in Eres by (right; split; reflexivity).
    rewrite Eres. subst run.
    repeat split; vm_compute; reflexivity.
Qed.

(** C3 as stated does not hold: the attempt counter of the errored match
    is not one greater than before the export, it is unchanged. *)
Lemma errored_match_attempts_unchanged :
  let before := ImportSpec.fiveMatches (PNum 0) (PNum 0) (PNum 0) (PNum 0) (PNum 0) in
  let res :=
    ImportArtifacts.importFile 2
      (ImportSpec.afterExport 1 (PNum 0) (PNum 0) (PNum 0) (PNum 0) (PNum 0),
       ImportArtifacts.noTotals)
      [ImportSpec.successFor "m1" 1 ∅ None;
       ImportSpec.successFor "m2" 2 ∅ None;
       ImportSpec.errorFor "m3" 3 "Navigation timeout"] in
  ImportSpec.attemptsOf "m3" before = JPrim (PNum 0)
  ∧ ImportSpec.statusOf "m3" (Database.matches (fst res)) = JPrim (PStr "queued")
  ∧ ImportSpec.attemptsOf "m3" (Database.matches (fst res)) = JPrim (PNum 0)
  ∧ ImportSpec.attemptsOf "m3" (Database.matches (fst res)) ≠ JPrim (PNum (0 + 1)).
Proof.
  repeat split; try (vm_compute; reflexivity). vm_compute. discriminate.
Qed.

(** ** [createInternalId] (utils.js) *)

Section InternalId.

Import Utils InternalIdSpec.

Lemma keepLowerAlnum_all s : allChars isLowerAlnum (keepLowerAlnum s) = true.
Proof.
  induction s as [|a rest IH]; simpl; [reflexivity|].
  destruct (isLowerAlnum a) eqn:E; simpl; [now rewrite E|exact IH].
Qed.

Lemma normalize_name toLowerCase v :
  isName v → normalize toLowerCase v = Ok (teamPart toLowerCase v).
Proof.
  intros [->|[->|[s ->]]]; simpl; try reflexivity.
  destruct (String.eqb_spec (keepLowerAlnum (toLowerCase s)) "") as [->|_];
    reflexivity.
Qed.

Lemma keepLowerAlnum_chars s :
  chars (keepLowerAlnum s) = List.filter isLowerAlnum (chars s).
Proof.
  induction s as [|a rest IH]; [reflexivity|].
  cbn [keepLowerAlnum chars List.filter].
  destruct (isLowerAlnum a); cbn [chars]; now rewrite IH.
Qed.

Lemma append_nil (b : string) : "" +:+ b = b.
Proof. reflexivity. Qed.

Lemma append_cons x (a b : string) : String x a +:+ b = String x (a +:+ b).
Proof. reflexivity. Qed.

Lemma append_assoc (a b c : string) : (a +:+ b) +:+ c = a +:+ (b +:+ c).
Proof.
  induction a as [|x a IH]; [reflexivity|].
  now rewrite !append_cons, IH.
Qed.

Lemma allChars_app p a b :
  allChars p (a +:+ b) = allChars p a && allChars p b.
Proof.
  induction a as [|x a IH]; [reflexivity|].
  rewrite append_cons. simpl. now rewrite IH, andb_assoc.
Qed.

Lemma splitOn_nonempty c s : splitOn c s ≠ [].
Proof.
  destruct s as [|a rest]; simpl; [discriminate|].
  destruct (Ascii.eqb a c); [discriminate|].
  destruct (splitOn c rest); discriminate.
Qed.

(** The part before the first separator. *)
Lemma splitOn_hd c a rest :
  allChars (fun x => negb (Ascii.eqb x c)) a = true →
  hd "" (splitOn c (a +:+ String c rest)) = a.
Proof.
  induction a as [|x a IH]; rewrite ?append_nil, ?append_cons; simpl.
  - intros _. now rewrite Ascii.eqb_refl.
  - intros H. apply andb_true_iff in H. destruct H as [Hx Ha].
    apply negb_true_iff in Hx. rewrite Hx.
    specialize (IH Ha).
    destruct (splitOn c (a +:+ String c rest)) as [|w ws] eqn:E.
    + now apply splitOn_nonempty in E.
    + simpl in *. now subst.
Qed.

Lemma removeChar_app c a b :
  removeChar c (a +:+ b) = removeChar c a +:+ removeChar c b.
Proof.
  induction a as [|x a IH]; [reflexivity|].
  rewrite append_cons. simpl.
  destruct (Ascii.eqb x c); rewrite ?append_cons; now rewrite IH.
Qed.

Lemma removeChar_id c s :
  allChars (fun x => negb (Ascii.eqb x c)) s = true → removeChar c s = s.
Proof.
  induction s as [|x s IH]; simpl; [reflexivity|].
  intros H. apply andb_true_iff in H. destruct H as [Hx Hs].
  apply negb_true_iff in Hx. rewrite Hx. now rewrite IH.
Qed.

Lemma allChars_impl (p q : ascii → bool) s :
  (∀ a, p a = true → q a = true) → allChars p s = true → allChars q s = true.
Proof.
  intros Hpq. induction s as [|x s IH]; simpl; [reflexivity|].
  intros H. apply andb_true_iff in H. destruct H as [Hx Hs].
  apply andb_true_iff. split; [exact (Hpq x Hx) | exact (IH Hs)].
Qed.

Lemma digit_isDigit k : 0 ≤ k ≤ 9 → isDigit (digit k) = true.
Proof.
  intros H.
  assert (E : k = 0 ∨ k = 1 ∨ k = 2 ∨ k = 3 ∨ k = 4 ∨ k = 5 ∨ k = 6 ∨ k = 7
              ∨ k = 8 ∨ k = 9) by lia.
  repeat (destruct E as [->|E]; [reflexivity|]). now subst.
Qed.

Lemma isDigit_not c a : isDigit a = true → isDigit c = false →
  negb (Ascii.eqb a c) = true.
Proof.
  intros Ha Hc. apply negb_true_iff. apply Ascii.eqb_neq.
  intros ->. rewrite Ha in Hc. discriminate.
Qed.

Lemma digit_bounds v :
  0 ≤ v → 0 ≤ v mod 10 ≤ 9.
Proof. intros H. pose proof (Z.mod_pos_bound v 10 ltac:(lia)). lia. Qed.

Lemma digits2_all v : 0 ≤ v ≤ 99 → allChars isDigit (digits2 v) = true.
Proof.
  intros H. unfold digits2.
  change (allChars isDigit (String ?a (String ?b EmptyString)))
    with (isDigit a && (isDigit b && true)).
  assert (H1 : 0 ≤ v / 10 ≤ 9) by (Z.div_mod_to_equations; lia).
  assert (H2 : 0 ≤ v mod 10 ≤ 9) by (apply digit_bounds; lia).
  now rewrite (digit_isDigit _ H1), (digit_isDigit _ H2).
Qed.

Lemma digits4_all v : 0 ≤ v ≤ 9999 → allChars isDigit (digits4 v) = true.
Proof.
  intros H. unfold digits4.
  change (allChars isDigit (String ?a (String ?b ?s)))
    with (isDigit a && (isDigit b && allChars isDigit s)).
  assert (H1 : 0 ≤ v / 1000 ≤ 9) by (Z.div_mod_to_equations; lia).
  assert (H2 : 0 ≤ v / 100 mod 10 ≤ 9) by (Z.div_mod_to_equations; lia).
  assert (H3 : 0 ≤ v mod 100 ≤ 99) by (Z.div_mod_to_equations; lia).
  now rewrite (digit_isDigit _ H1), (digit_isDigit _ H2), (digits2_all _ H3).
Qed.

(** Padding agrees with the digits, checked on the whole range. *)
Lemma pad4_digits4 y : 0 ≤ y ≤ 9999 → pad 4 y = digits4 y.
Proof.
  intros H.
  assert (A : forallb (fun n => String.eqb (pad 4 (Z.of_nat n))
                                  (digits4 (Z.of_nat n))) (seq 0 (Z.to_nat 10000)) = true)
    by (vm_compute; reflexivity).
  rewrite forallb_forall in A.
  specialize (A (Z.to_nat y)). rewrite Z2Nat.id in A by lia.
  apply String.eqb_eq, A, in_seq. lia.
Qed.

Lemma pad2_digits2 v : 0 ≤ v ≤ 99 → pad 2 v = digits2 v.
Proof.
  intros H.
  assert (A : forallb (fun n => String.eqb (pad 2 (Z.of_nat n))
                                  (digits2 (Z.of_nat n))) (seq 0 (Z.to_nat 100)) = true)
    by (vm_compute; reflexivity).
  rewrite forallb_forall in A.
  specialize (A (Z.to_nat v)). rewrite Z2Nat.id in A by lia.
  apply String.eqb_eq, A, in_seq. lia.
Qed.

(** The month and the day of a civil date are in range. *)
Lemma civilFromDays_bounds days y m d :
  civilFromDays days = (y, m, d) → 1 ≤ m ≤ 12 ∧ 1 ≤ d ≤ 31.
Proof.
  unfold civilFromDays.
  set (z := days + 719468).
  set (era := z / 146097).
  set (doe := z - era * 146097).
  set (yoe := (doe - doe / 1460 + doe / 36524 - doe / 146096) / 365).
  set (doy := doe - (365 * yoe + yoe / 4 - yoe / 100)).
  set (mp := (5 * doy + 2) / 153).
  intros [= _ <- <-].
  assert (Hdoe : 0 ≤ doe ≤ 146096).
  { subst doe era. pose proof (Z.mod_pos_bound z 146097 ltac:(lia)) as Hm.
    rewrite Z.mod_eq in Hm by lia. lia. }
  clearbody doe. clear z era.
  assert (Hdoy : 0 ≤ doy ≤ 365).
  { subst doy yoe. Z.div_mod_to_equations. lia. }
  clearbody doy.
  assert (Hmp : 0 ≤ mp ≤ 11).
  { subst mp. Z.div_mod_to_equations. lia. }
  split.
  - destruct (mp <? 10) eqn:E; lia.
  - subst mp. Z.div_mod_to_equations. lia.
Qed.

(** The date part of a valid date whose year has four digits. *)
Lemma datePartOf_yyyymmdd t y m d :
  civilFromDays (t / 86400000) = (y, m, d) → 0 ≤ y ≤ 9999 →
  datePartOf (JDate (Some t)) = yyyymmdd y m d.
Proof.
  intros Hc Hy. destruct (civilFromDays_bounds _ _ _ _ Hc) as [Hm Hd].
  unfold datePartOf, toISOString. rewrite Hc.
  unfold yearString.
  replace ((0 <=? y) && (y <=? 9999)) with true
    by (symmetry; apply andb_true_iff; split; apply Z.leb_le; lia).
  rewrite pad4_digits4, (pad2_digits2 m), (pad2_digits2 d) by lia.
  set (time := pad 2 _ +:+ _).
  assert (Hy4 := digits4_all y Hy).
  assert (Hm2 := digits2_all m ltac:(lia)).
  assert (Hd2 := digits2_all d ltac:(lia)).
  assert (HT : ∀ s, allChars isDigit s = true →
                    allChars (fun x => negb (Ascii.eqb x "T")) s = true).
  { intros s. apply allChars_impl. intros a Ha.
    now apply isDigit_not. }
  assert (HD : ∀ s, allChars isDigit s = true →
                    allChars (fun x => negb (Ascii.eqb x "-")) s = true).
  { intros s. apply allChars_impl. intros a Ha.
    now apply isDigit_not. }
  replace (digits4 y +:+ "-" +:+ digits2 m +:+ "-" +:+ digits2 d +:+ "T" +:+ time)
    with ((digits4 y +:+ "-" +:+ digits2 m +:+ "-" +:+ digits2 d)
          +:+ String "T" time)
    by (now rewrite !append_assoc).
  rewrite splitOn_hd.
  - rewrite !removeChar_app.
    rewrite (removeChar_id "-" (digits4 y)), (removeChar_id "-" (digits2 m)),
      (removeChar_id "-" (digits2 d)) by (apply HD; assumption).
    change (removeChar "-" "-") with "". rewrite !append_nil.
    unfold yyyymmdd. reflexivity.
  - rewrite !allChars_app.
    rewrite (HT _ Hy4), (HT _ Hm2), (HT _ Hd2). reflexivity.
Qed.

End InternalId.

(** ** The names of the shard files *)

Section FileNames.

Import Mongo ExportBatches PartitionSpec.

Lemma readNumber_zero s : readNumber (String "0" s) = readNumber s.
Proof.
  unfold readNumber. simpl.
  now destruct (NilEmpty.uint_of_string s).
Qed.

Lemma readNumber_numToString idx : 0 ≤ idx → readNumber (numToString idx) = Some idx.
Proof.
  intros H. unfold numToString, readNumber.
  rewrite <- (of_to idx) at 2.
  destruct (Z.to_int idx) as [d|d] eqn:E.
  - unfold NilZero.string_of_int, NilZero.string_of_uint, Z.of_int.
    destruct d; [reflexivity | rewrite NilEmpty.usu; reflexivity ..].
  - exfalso. destruct idx; simpl in E; try discriminate. lia.
Qed.

Lemma concat_repeat_S (c : ascii) k :
  String.concat "" (repeat (String c "") (S k))
  = String c (String.concat "" (repeat (String c "") k)).
Proof.
  simpl. destruct (repeat (String c "") k) eqn:E; reflexivity.
Qed.

Lemma readNumber_zeros k s :
  readNumber (String.concat "" (repeat "0" k) +:+ s) = readNumber s.
Proof.
  induction k as [|k IH]; [reflexivity|].
  now rewrite concat_repeat_S, append_cons, readNumber_zero.
Qed.


Lemma string_length_app (a b : string) :
  String.length (a +:+ b) = (String.length a + String.length b)%nat.
Proof.
  induction a as [|x a IH]; [reflexivity|].
  rewrite append_cons. simpl. now rewrite IH.
Qed.






End FileNames.




(** A run that is ended by a failed write: the second file cannot be
    written, so the run stops there; the one shard is the first two of the
    five records, these are queued and all the others are still pending. *)
Lemma export_failed_write_marks_nothing :
  let run := ExportBatches.exportBatches ImportSpec.onlyFirstFile 1
               PartitionSpec.shardsOfTwo
               (ImportSpec.fiveMatches (PNum 0) (PNum 0) (PNum 0) (PNum 0) (PNum 0)) in
  snd run = Some (IOError "batches/batch-002.json")
  ∧ map fst (ExportBatches.files (fst run)) = ["batches/batch-001.json"]
  ∧ map (fun id => ImportSpec.statusOf id (ExportBatches.store (fst run)))
      ["m1"; "m2"; "m3"; "m4"; "m5"]
    = [JPrim (PStr "queued"); JPrim (PStr "queued"); JPrim (PStr "pending");
       JPrim (PStr "pending"); JPrim (PStr "pending")].
Proof. repeat split; vm_compute; reflexivity. Qed.

(** ** The calendar of [toISOString] *)

Section Calendar.

Import Utils InternalIdSpec PartitionSpec.

Lemma allFrom_inv p s n :
  fst (Pos.iter (fun st : Z * bool => (fst st + 1, snd st && p (fst st)))
         (s, true) n) = s + Z.pos n
  ∧ (snd (Pos.iter (fun st : Z * bool => (fst st + 1, snd st && p (fst st)))
            (s, true) n) = true →
     ∀ i, s ≤ i < s + Z.pos n → p i = true).
Proof.
  induction n as [|n [IH1 IH2]] using Pos.peano_ind.
  - cbn. split; [reflexivity|]. intros H i Hi.
    replace i with s by lia. exact H.
  - rewrite Pos.iter_succ. cbn [fst snd]. rewrite IH1. split; [lia|].
    intros H. apply andb_true_iff in H as [H1 H2]. intros i Hi.
    destruct (Z.eq_dec i (s + Z.pos n)) as [->|Hne]; [exact H2|].
    apply (IH2 H1). lia.
Qed.

Lemma allFrom_spec p s n :
  allFrom p s n = true → ∀ i, s ≤ i < s + Z.pos n → p i = true.
Proof. intros H. exact (proj2 (allFrom_inv p s n) H). Qed.

(** *** Four hundred years are 146097 days *)

Lemma isLeap_period y k : isLeap (y + 400 * k) = isLeap y.
Proof.
  unfold isLeap.
  replace (y + 400 * k) with (y + (100 * k) * 4) at 1 by lia.
  replace (y + 400 * k) with (y + (4 * k) * 100) at 1 by lia.
  replace (y + 400 * k) with (y + k * 400) by lia.
  now rewrite !Z.mod_add by lia.
Qed.

Lemma isDay_period y m d k : isDay (y + 400 * k) m d = isDay y m d.
Proof. unfold isDay, daysInMonth. now rewrite isLeap_period. Qed.

Lemma leapsThrough_period x k : leapsThrough (x + 400 * k) = leapsThrough x + 97 * k.
Proof.
  unfold leapsThrough.
  replace (x + 400 * k) with (x + (100 * k) * 4) at 1 by lia.
  replace (x + 400 * k) with (x + (4 * k) * 100) at 1 by lia.
  replace (x + 400 * k) with (x + k * 400) by lia.
  rewrite !Z.div_add by lia. lia.
Qed.

Lemma dayNumber_period y m d k :
  dayNumber (y + 400 * k) m d = dayNumber y m d + 146097 * k.
Proof.
  unfold dayNumber, daysBeforeYear, daysBeforeMonth, daysInMonth.
  replace (y + 400 * k - 1) with (y - 1 + 400 * k) by lia.
  rewrite leapsThrough_period.
  assert (E : ∀ l, map (fun k0 : nat =>
                          if Z.of_nat k0 =? 2
                          then if isLeap (y + 400 * k) then 29 else 28
                          else if (Z.of_nat k0 =? 4) || (Z.of_nat k0 =? 6)
                                  || (Z.of_nat k0 =? 9) || (Z.of_nat k0 =? 11)
                               then 30 else 31) l
                   = map (fun k0 : nat =>
                            if Z.of_nat k0 =? 2
                            then if isLeap y then 29 else 28
                            else if (Z.of_nat k0 =? 4) || (Z.of_nat k0 =? 6)
                                    || (Z.of_nat k0 =? 9) || (Z.of_nat k0 =? 11)
                                 then 30 else 31) l).
  { intros l. apply map_ext. intros a. now rewrite isLeap_period. }
  rewrite E. lia.
Qed.

Lemma civilFromDays_period n k :
  civilFromDays (n + 146097 * k)
  = let '(y, m, d) := civilFromDays n in (y + 400 * k, m, d).
Proof.
  unfold civilFromDays.
  replace (n + 146097 * k + 719468) with (n + 719468 + k * 146097) by lia.
  rewrite Z.div_add by lia.
  set (z := n + 719468). set (era := z / 146097).
  replace (z + k * 146097 - (era + k) * 146097) with (z - era * 146097) by lia.
  set (doe := z - era * 146097).
  set (yoe := (doe - doe / 1460 + doe / 36524 - doe / 146096) / 365).
  set (doy := doe - (365 * yoe + yoe / 4 - yoe / 100)).
  set (mp := (5 * doy + 2) / 153).
  f_equal. f_equal. lia.
Qed.

(** *** One period, day by day and date by date *)

Lemma era_days :
  allFrom (fun z => let '(y, m, d) := civilFromDays (z - 719468) in
                    isDay y m d && (dayNumber y m d =? z - 719468))
    0 146097 = true.
Proof. vm_cast_no_check (eq_refl true). Qed.

Lemma era_dates :
  allFrom (fun i => let y := i / 372 in
                    let m := i / 31 mod 12 + 1 in
                    let d := i mod 31 + 1 in
                    negb (isDay y m d)
                    || match civilFromDays (dayNumber y m d) with
                       | (y', m', d') => (y' =? y) && (m' =? m) && (d' =? d)
                       end)
    0 148800 = true.
Proof. vm_cast_no_check (eq_refl true). Qed.

(** The date of a day number is a day of the calendar, and it is the day
    with that number. *)
Lemma civilFromDays_day n y m d :
  civilFromDays n = (y, m, d) → isDay y m d = true ∧ dayNumber y m d = n.
Proof.
  intros H.
  set (z := n + 719468). set (q := z / 146097). set (z0 := z mod 146097).
  assert (Hz0 : 0 ≤ z0 < 146097) by (apply Z.mod_pos_bound; lia).
  assert (Hz : z = z0 + 146097 * q).
  { unfold z0, q. rewrite Z.mod_eq by lia. lia. }
  assert (Hn : n = (z0 - 719468) + 146097 * q) by lia.
  pose proof (allFrom_spec _ _ _ era_days z0 ltac:(lia)) as Hw.
  cbv beta in Hw.
  rewrite Hn, civilFromDays_period in H.
  destruct (civilFromDays (z0 - 719468)) as [[y0 m0] d0].
  injection H as <- <- <-.
  apply andb_true_iff in Hw as [Hd He]. apply Z.eqb_eq in He.
  rewrite isDay_period, dayNumber_period. split; [exact Hd | lia].
Qed.

(** The day number of a day of the calendar has that day as its date. *)
Lemma civilFromDays_dayNumber y m d :
  isDay y m d = true → civilFromDays (dayNumber y m d) = (y, m, d).
Proof.
  intros H.
  set (q := y / 400). set (y0 := y mod 400).
  assert (Hy0 : 0 ≤ y0 < 400) by (apply Z.mod_pos_bound; lia).
  assert (Hy : y = y0 + 400 * q).
  { unfold y0, q. rewrite Z.mod_eq by lia. lia. }
  rewrite Hy, isDay_period in H. rewrite Hy, dayNumber_period.
  assert (Hb : 1 ≤ m ≤ 12 ∧ 1 ≤ d ≤ 31).
  { unfold isDay, daysInMonth in H. rewrite !andb_true_iff in H.
    destruct H as [[[H1 H2] H3] H4].
    apply Z.leb_le in H1, H2, H3, H4.
    split; [lia|]. split; [lia|].
    destruct (m =? 2); [destruct (isLeap y0); lia|].
    destruct ((m =? 4) || (m =? 6) || (m =? 9) || (m =? 11)); lia. }
  set (i := y0 * 372 + (m - 1) * 31 + (d - 1)).
  pose proof (allFrom_spec _ _ _ era_dates i ltac:(unfold i; lia)) as Hw.
  cbv beta zeta in Hw.
  replace (i / 372) with y0 in Hw
    by (unfold i; apply (Z.div_unique _ _ _ ((m - 1) * 31 + (d - 1))); lia).
  replace (i / 31) with (y0 * 12 + (m - 1)) in Hw
    by (unfold i; apply (Z.div_unique _ _ _ (d - 1)); lia).
  replace ((y0 * 12 + (m - 1)) mod 12 + 1) with m in Hw
    by (rewrite <- (Z.mod_unique (y0 * 12 + (m - 1)) 12 y0 (m - 1)); lia).
  replace (i mod 31 + 1) with d in Hw
    by (rewrite <- (Z.mod_unique i 31 (y0 * 12 + (m - 1)) (d - 1));
        unfold i; lia).
  rewrite H in Hw. cbn [negb orb] in Hw.
  rewrite civilFromDays_period.
  destruct (civilFromDays (dayNumber y0 m d)) as [[y' m'] d'].
  rewrite !andb_true_iff in Hw. destruct Hw as [[E1 E2] E3].
  apply Z.eqb_eq in E1, E2, E3. now rewrite E1, E2, E3.
Qed.

Lemma isDay_bounds y m d : isDay y m d = true → 1 ≤ m ≤ 12 ∧ 1 ≤ d ≤ 31.
Proof.
  unfold isDay, daysInMonth. rewrite !andb_true_iff.
  intros [[[H1 H2] H3] H4]. apply Z.leb_le in H1, H2, H3, H4.
  split; [lia|]. split; [lia|].
  destruct (m =? 2); [destruct (isLeap y); lia|].
  destruct ((m =? 4) || (m =? 6) || (m =? 9) || (m =? 11)); lia.
Qed.

(** Every time value falls on a day, and on one day only. *)
Lemma utcDay_exists t : ∃ y m d, utcDay t y m d.
Proof.
  destruct (civilFromDays (t / msPerDay)) as [[y m] d] eqn:E.
  destruct (civilFromDays_day _ _ _ _ E) as [Hd Hn].
  exists y, m, d. split; [exact Hd|]. rewrite Hn. unfold msPerDay.
  pose proof (Z.mod_pos_bound t 86400000 ltac:(lia)) as Hm.
  rewrite Z.mod_eq in Hm by lia. lia.
Qed.

Lemma utcDay_civil t y m d :
  utcDay t y m d → civilFromDays (t / 86400000) = (y, m, d).
Proof.
  intros [Hd Ht]. unfold msPerDay in Ht.
  replace (t / 86400000) with (dayNumber y m d).
  - now apply civilFromDays_dayNumber.
  - apply (Z.div_unique t 86400000 _ (t - dayNumber y m d * 86400000)); lia.
Qed.

End Calendar.

(** ** The date part of an internal id *)

Section DatePart.

Import Utils InternalIdSpec PartitionSpec.

(** *** Decimal numerals *)

Lemma string_of_uint_digits u :
  allChars isDigit (NilEmpty.string_of_uint u) = true.
Proof. induction u; cbn; auto. Qed.

Lemma numToString_digits v : 0 ≤ v → allChars isDigit (numToString v) = true.
Proof.
  intros H. unfold numToString.
  destruct (Z.to_int v) as [u|u] eqn:E.
  - unfold NilZero.string_of_int, NilZero.string_of_uint.
    destruct u; [reflexivity | apply string_of_uint_digits ..].
  - exfalso. destruct v; simpl in E; try discriminate. lia.
Qed.

Lemma zeros_digits k :
  allChars isDigit (String.concat "" (repeat "0" k)) = true.
Proof.
  induction k as [|k IH]; [reflexivity|].
  rewrite concat_repeat_S. cbn [allChars]. now rewrite IH.
Qed.

Lemma zeros_length k (c : ascii) :
  String.length (String.concat "" (repeat (String c "") k)) = k.
Proof.
  induction k as [|k IH]; [reflexivity|].
  rewrite concat_repeat_S. cbn [String.length]. now rewrite IH.
Qed.

(** The year filled to six digits: digits only, at least six, that read as
    the year. *)
Lemma sixDigits_numeral v :
  0 ≤ v →
  allChars isDigit (sixDigits v) = true
  ∧ (6 ≤ String.length (sixDigits v))%nat
  ∧ readNumber (sixDigits v) = Some v.
Proof.
  intros H. unfold sixDigits, padStart. split; [|split].
  - now rewrite allChars_app, zeros_digits, numToString_digits.
  - rewrite string_length_app, zeros_length. lia.
  - rewrite readNumber_zeros. now apply readNumber_numToString.
Qed.

(** *** The date part *)

Lemma datePart_of_text ytext m d time :
  allChars (fun x => negb (Ascii.eqb x "T")) ytext = true →
  1 ≤ m ≤ 12 → 1 ≤ d ≤ 31 →
  removeChar "-"
    (hd "" (splitOn "T"
              (ytext +:+ "-" +:+ pad 2 m +:+ "-" +:+ pad 2 d +:+ "T" +:+ time)))
  = removeChar "-" ytext +:+ digits2 m +:+ digits2 d.
Proof.
  intros Hy Hm Hd.
  rewrite (pad2_digits2 m), (pad2_digits2 d) by lia.
  assert (Hm2 := digits2_all m ltac:(lia)).
  assert (Hd2 := digits2_all d ltac:(lia)).
  assert (HT : ∀ s, allChars isDigit s = true →
                    allChars (fun x => negb (Ascii.eqb x "T")) s = true).
  { intros s. apply allChars_impl. intros a Ha. now apply isDigit_not. }
  assert (HD : ∀ s, allChars isDigit s = true →
                    allChars (fun x => negb (Ascii.eqb x "-")) s = true).
  { intros s. apply allChars_impl. intros a Ha. now apply isDigit_not. }
  replace (ytext +:+ "-" +:+ digits2 m +:+ "-" +:+ digits2 d +:+ "T" +:+ time)
    with ((ytext +:+ "-" +:+ digits2 m +:+ "-" +:+ digits2 d)
          +:+ String "T" time)
    by (now rewrite !append_assoc).
  rewrite splitOn_hd.
  - rewrite !removeChar_app.
    rewrite (removeChar_id "-" (digits2 m)), (removeChar_id "-" (digits2 d))
      by (apply HD; assumption).
    change (removeChar "-" "-") with "". now rewrite !append_nil.
  - rewrite !allChars_app. rewrite Hy, (HT _ Hm2), (HT _ Hd2). reflexivity.
Qed.

Lemma datePartOf_day t y m d :
  utcDay t y m d →
  datePartOf (JDate (Some t)) = yearText y +:+ digits2 m +:+ digits2 d.
Proof.
  intros Hu. pose proof (utcDay_civil _ _ _ _ Hu) as Hc.
  destruct (isDay_bounds _ _ _ (proj1 Hu)) as [Hm Hd].
  assert (HT : ∀ s, allChars isDigit s = true →
                    allChars (fun x => negb (Ascii.eqb x "T")) s = true).
  { intros s. apply allChars_impl. intros a Ha. now apply isDigit_not. }
  assert (HD : ∀ s, allChars isDigit s = true →
                    allChars (fun x => negb (Ascii.eqb x "-")) s = true).
  { intros s. apply allChars_impl. intros a Ha. now apply isDigit_not. }
  unfold datePartOf, toISOString. rewrite Hc.
  unfold yearString, yearText.
  destruct ((0 <=? y) && (y <=? 9999)) eqn:E4.
  - apply andb_true_iff in E4 as [E1 E2]. apply Z.leb_le in E1, E2.
    rewrite pad4_digits4 by lia.
    rewrite datePart_of_text by (try lia; apply HT, digits4_all; lia).
    rewrite removeChar_id by (apply HD, digits4_all; lia). reflexivity.
  - destruct (y <? 0) eqn:En.
    + apply Z.ltb_lt in En.
      destruct (sixDigits_numeral (- y) ltac:(lia)) as (Hs & _ & _).
      replace (Z.abs y) with (- y) by lia.
      change (pad 6 (- y)) with (sixDigits (- y)).
      rewrite datePart_of_text; try lia.
      * rewrite removeChar_app. change (removeChar "-" "-") with "".
        rewrite append_nil, removeChar_id by now apply HD. reflexivity.
      * rewrite allChars_app. cbn [allChars]. now rewrite (HT _ Hs).
    + apply Z.ltb_ge in En.
      destruct (sixDigits_numeral y ltac:(lia)) as (Hs & _ & _).
      replace (Z.abs y) with y by lia.
      change (pad 6 y) with (sixDigits y).
      rewrite datePart_of_text; try lia.
      * rewrite removeChar_app. change (removeChar "-" "+") with "+".
        rewrite removeChar_id by now apply HD. reflexivity.
      * rewrite allChars_app. cbn [allChars]. now rewrite (HT _ Hs).
Qed.

End DatePart.

(** C10, as the code has it.  For team names that are strings or missing
    (null, undefined), for every value of the date and whatever the
    engine's [toLowerCase] is, [createInternalId] returns, without
    throwing, the date part, an underscore, the home part, [_vs_] and the
    away part.  A team part is the name lowercased with every character
    outside [a-z0-9] removed: the characters [a-z0-9] of the lowered name,
    in their order; it is empty for a missing name.  The date part is
    empty when the date is no valid [Date].  A valid [Date] falls on one
    day of the calendar, UTC, and its date part is the year followed by
    the month and the day in two digits each: the year in four digits,
    which makes YYYYMMDD, when it is one of 0 to 9999; for another year,
    the year in decimal filled to six digits with zeros, after a plus sign
    when it is past 9999 (the minus sign of a year before 0 goes with the
    hyphens). *)
Theorem createInternalId_shape :
  ∀ toLowerCase homeTeam awayTeam date,
    InternalIdSpec.isName homeTeam → InternalIdSpec.isName awayTeam →
    Utils.createInternalId toLowerCase homeTeam awayTeam date
      = Ok (Utils.datePartOf date +:+ "_"
            +:+ InternalIdSpec.teamPart toLowerCase homeTeam
            +:+ "_vs_" +:+ InternalIdSpec.teamPart toLowerCase awayTeam)
    ∧ (∀ name,
         InternalIdSpec.allChars Utils.isLowerAlnum
           (InternalIdSpec.teamPart toLowerCase name) = true
         ∧ (∀ s, name = JPrim (PStr s) →
              InternalIdSpec.chars (InternalIdSpec.teamPart toLowerCase name)
              = List.filter Utils.isLowerAlnum
                  (InternalIdSpec.chars (toLowerCase s)))
         ∧ (name = JPrim PUndefined ∨ name = JPrim PNull →
            InternalIdSpec.teamPart toLowerCase name = ""))
    ∧ ((∀ t, date ≠ JDate (Some t)) → Utils.datePartOf date = "")
    ∧ (∀ t, date = JDate (Some t) →
         (∃ y m d, InternalIdSpec.utcDay t y m d)
         ∧ ∀ y m d,
             InternalIdSpec.utcDay t y m d →
             Utils.datePartOf date
             = InternalIdSpec.yearText y +:+ InternalIdSpec.digits2 m
               +:+ InternalIdSpec.digits2 d
             ∧ (0 ≤ y ≤ 9999 →
                Utils.datePartOf date = InternalIdSpec.yyyymmdd y m d
                ∧ String.length (Utils.datePartOf date) = 8%nat
                ∧ InternalIdSpec.allChars InternalIdSpec.isDigit
                    (Utils.datePartOf date) = true)
             ∧ (9999 < y →
                InternalIdSpec.yearText y = "+" +:+ InternalIdSpec.sixDigits y)
             ∧ (y < 0 →
                InternalIdSpec.yearText y = InternalIdSpec.sixDigits (- y)))
    ∧ (∀ v, 0 ≤ v →
         InternalIdSpec.allChars InternalIdSpec.isDigit
           (InternalIdSpec.sixDigits v) = true
         ∧ (6 ≤ String.length (InternalIdSpec.sixDigits v))%nat
         ∧ PartitionSpec.readNumber (InternalIdSpec.sixDigits v) = Some v).
Proof.
  intros toLowerCase homeTeam awayTeam date Hh Ha.
  split; [|split; [|split; [|split]]].
  - unfold Utils.createInternalId.
    rewrite (normalize_name _ _ Hh), (normalize_name _ _ Ha). reflexivity.
  - intros name. split; [|split].
    + destruct name as [[| | | |s]| | |]; try reflexivity.
      apply keepLowerAlnum_all.
    + intros s ->. apply keepLowerAlnum_chars.
    + intros [->| ->]; reflexivity.
  - intros Hno. destruct date as [p|[t|]|ev|js]; try reflexivity.
    now destruct (Hno t).
  - intros t ->. split; [apply utcDay_exists|].
    intros y m d Hu. pose proof (datePartOf_day t y m d Hu) as Hp.
    destruct (isDay_bounds _ _ _ (proj1 Hu)) as [Hm Hd].
    split; [exact Hp|]. split; [|split].
    + intros Hy. rewrite Hp. unfold InternalIdSpec.yearText.
      replace ((0 <=? y) && (y <=? 9999)) with true
        by (symmetry; apply andb_true_iff; split; apply Z.leb_le; lia).
      split; [reflexivity|]. split; [reflexivity|].
      rewrite !allChars_app, digits4_all, !digits2_all by lia. reflexivity.
    + intros Hy. unfold InternalIdSpec.yearText.
      replace (y <=? 9999) with false by (symmetry; apply Z.leb_gt; lia).
      rewrite andb_false_r.
      now replace (y <? 0) with false by (symmetry; apply Z.ltb_ge; lia).
    + intros Hy. unfold InternalIdSpec.yearText.
      replace (0 <=? y) with false by (symmetry; apply Z.leb_gt; lia).
      cbn [andb].
      now replace (y <? 0) with true by (symmetry; apply Z.ltb_lt; lia).
  - apply sixDigits_numeral.
Qed.

Lemma createInternalId_shape_witness :
  Utils.createInternalId InternalIdSpec.lowerAscii
    (PStr "Real Madrid C.F.") PNull InternalIdSpec.kickoff
    = Ok "20250425_realmadridcf_vs_"
  ∧ Utils.datePartOf InternalIdSpec.kickoff
    = InternalIdSpec.yyyymmdd 2025 4 25.
Proof.
  destruct (createInternalId_shape InternalIdSpec.lowerAscii
              (PStr "Real Madrid C.F.") PNull InternalIdSpec.kickoff)
    as (H1 & _ & _ & H4 & _).
  - right. right. eexists. reflexivity.
  - right. left. reflexivity.
  - split; [rewrite H1; vm_compute; reflexivity|].
    destruct (H4 1745593200000 eq_refl) as [_ H].
    destruct (H 2025 4 25) as (_ & Hy & _).
    + split; [reflexivity|].
      replace (InternalIdSpec.dayNumber 2025 4 25) with 20203
        by (vm_compute; reflexivity).
      unfold InternalIdSpec.msPerDay. lia.
    + apply Hy. lia.
Defined.

(** C10 as stated does not hold: beyond the four-digit years the date part
    is no YYYYMMDD.  For 1 January 10000 it is the expanded year of
    [toISOString] with its plus sign, eleven characters; for 1 January of
    the year before the year 0 it has ten digits, the minus sign gone with
    the hyphens. *)
Lemma createInternalId_year_10000 :
  InternalIdSpec.utcDay InternalIdSpec.newYear10000 10000 1 1
  ∧ Utils.toISOString InternalIdSpec.newYear10000 = "+010000-01-01T00:00:00.000Z"
  ∧ Utils.createInternalId InternalIdSpec.lowerAscii (PStr "A") (PStr "B")
      (JDate (Some InternalIdSpec.newYear10000))
    = Ok "+0100000101_a_vs_b"
  ∧ InternalIdSpec.allChars InternalIdSpec.isDigit
      (Utils.datePartOf (JDate (Some InternalIdSpec.newYear10000))) = false
  ∧ String.length (Utils.datePartOf (JDate (Some InternalIdSpec.newYear10000)))
    = 11%nat
  ∧ InternalIdSpec.utcDay InternalIdSpec.newYearMinus1 (-1) 1 1
  ∧ Utils.toISOString InternalIdSpec.newYearMinus1 = "-000001-01-01T00:00:00.000Z"
  ∧ Utils.datePartOf (JDate (Some InternalIdSpec.newYearMinus1)) = "0000010101".
Proof.
  assert (Hday : ∀ t y n, InternalIdSpec.dayNumber y 1 1 = n →
                          t = n * 86400000 → InternalIdSpec.utcDay t y 1 1).
  { intros t y n Hn ->. split; [reflexivity|]. rewrite Hn.
    unfold InternalIdSpec.msPerDay. lia. }
  split; [apply (Hday _ _ 2932897); vm_compute; reflexivity|].
  split; [vm_compute; reflexivity|]. split; [vm_compute; reflexivity|].
  split; [vm_compute; reflexivity|]. split; [vm_compute; reflexivity|].
  split; [apply (Hday _ _ (-719893)); vm_compute; reflexivity|].
  split; vm_compute; reflexivity.
Qed.

(** A name that is no string, null or undefined has no [toLowerCase]. *)
Lemma createInternalId_number_throws :
  ∀ toLowerCase,
    Utils.createInternalId toLowerCase (PNum 7) (PStr "B") (JDate None)
    = Throw (TypeError "str?.toLowerCase is not a function").
Proof. reflexivity. Qed.

(** Capitals beyond ASCII: with an engine that lowers the dotted capital I
    to [i] and a combining dot, and the Kelvin sign to [k], these letters
    stay in the team parts. *)
Lemma createInternalId_beyond_ascii :
  ∀ toLowerCase date,
    toLowerCase InternalIdSpec.dottedIstanbul
      = InternalIdSpec.dottedIstanbulLowered →
    toLowerCase InternalIdSpec.kelvinSign = "k" →
    Utils.createInternalId toLowerCase
      (PStr InternalIdSpec.dottedIstanbul) (PStr InternalIdSpec.kelvinSign) date
    = Ok (Utils.datePartOf date +:+ "_istanbul_vs_k").
Proof.
  intros toLowerCase date H1 H2.
  unfold Utils.createInternalId, Utils.normalize. rewrite H1, H2.
  reflexivity.
Qed.

(** ** Importing twice *)

Section Idempotence.

Import Mongo Database Worker ImportArtifacts Ops.

Lemma fieldEq_key k d :
  fieldEq "matchId" k d = bool_decide (indexKey d = toBson k).
Proof.
  unfold fieldEq, indexKey. destruct (d !! "matchId") as [w|]; simpl.
  - reflexivity.
  - apply bool_decide_ext. split; congruence.
Qed.

Lemma fieldEq_true k d :
  fieldEq "matchId" k d = true ↔ indexKey d = toBson k.
Proof. rewrite fieldEq_key. apply bool_decide_eq_true. Qed.

Lemma fieldEq_false k d :
  fieldEq "matchId" k d = false ↔ indexKey d ≠ toBson k.
Proof. rewrite fieldEq_key. apply bool_decide_eq_false. Qed.

Lemma agreeBut_refl o c : agreeBut o c c.
Proof.
  induction c as [|d t IH]; [constructor|].
  destruct (fieldEq "matchId" (opKey o) d) eqn:E.
  - apply agree_hit; auto.
  - apply agree_skip; auto.
Qed.

Lemma set_agree (s d1 d2 : gmap string jsval) :
  (∀ f, s !! f = None → d1 !! f = d2 !! f) → set s d1 = set s d2.
Proof.
  intros H. apply map_eq. intros f. rewrite !set_lookup.
  destruct (s !! f) eqn:E; [reflexivity | now apply H].
Qed.

(** The update itself evens out what it is allowed to differ on. *)
Lemma applyUpdate_agree o c1 c2 :
  agreeBut o c1 c2 → applyUpdate o c1 = applyUpdate o c2.
Proof.
  unfold applyUpdate. induction 1 as [|d1 d2 t H1 H2 Hf|d t1 t2 Hd _ IH]; simpl.
  - reflexivity.
  - rewrite H1, H2. simpl. f_equal. now apply set_agree.
  - rewrite Hd.
    destruct (updateOne _ _ t1) as [t1' h1], (updateOne _ _ t2) as [t2' h2].
    simpl in *. now rewrite IH.
Qed.

(** Another update keeps the two collections as close as they were. *)
Lemma applyUpdate_keeps o p c1 c2 :
  keyStable p → agreeBut o c1 c2 →
  agreeBut o (applyUpdate p c1) (applyUpdate p c2).
Proof.
  intros Hp. unfold applyUpdate.
  induction 1 as [|d1 d2 t H1 H2 Hf|d t1 t2 Hd Hag IH]; simpl.
  - constructor.
  - assert (E : fieldEq "matchId" (opKey p) d2 = fieldEq "matchId" (opKey p) d1).
    { apply fieldEq_true in H1, H2. rewrite !fieldEq_key.
      apply bool_decide_ext. now rewrite H1, H2. }
    rewrite E. destruct (fieldEq "matchId" (opKey p) d1) eqn:Q; simpl.
    + apply fieldEq_true in H1, H2, Q.
      apply agree_hit.
      * apply fieldEq_true. rewrite (Hp d1 Q). congruence.
      * apply fieldEq_true. rewrite (Hp d2); congruence.
      * intros f Hno. rewrite !set_lookup.
        destruct (opFields p !! f); [reflexivity | now apply Hf].
    + destruct (updateOne _ _ t) as [t' h]. simpl. apply agree_hit; assumption.
  - destruct (fieldEq "matchId" (opKey p) d) eqn:Q; simpl.
    + apply agree_skip; [|assumption].
      apply fieldEq_true in Q. apply fieldEq_false in Hd.
      apply fieldEq_false. rewrite (Hp d Q). congruence.
    + destruct (updateOne _ _ t1) as [t1' h1], (updateOne _ _ t2) as [t2' h2].
      simpl in *. now apply agree_skip.
Qed.

(** A difference that a later update of the run evens out does not show
    in the result. *)
Lemma runUpdate_agree ops : ∀ o c1 c2,
  Forall keyStable ops → In o ops → agreeBut o c1 c2 →
  runUpdate ops c1 = runUpdate ops c2.
Proof.
  unfold runUpdate.
  induction ops as [|p rest IH]; intros o c1 c2 Hk Hin Hag; [destruct Hin|].
  inversion Hk as [|? ? Hp Hrest]; subst. simpl.
  destruct Hin as [->|Hin].
  - now rewrite (applyUpdate_agree o c1 c2 Hag).
  - apply (IH o); auto. now apply applyUpdate_keeps.
Qed.

Lemma applyUpdate_close o c : keyStable o → agreeBut o (applyUpdate o c) c.
Proof.
  intros Ho. unfold applyUpdate. induction c as [|d t IH]; simpl; [constructor|].
  destruct (fieldEq "matchId" (opKey o) d) eqn:Q; simpl.
  - apply agree_hit; [|exact Q|].
    + apply fieldEq_true in Q. apply fieldEq_true. now apply Ho.
    + intros f Hno. now rewrite set_lookup, Hno.
  - destruct (updateOne _ _ t) as [t' h]. simpl in *. now apply agree_skip.
Qed.

(** Updates of the run that were applied before the run do not show. *)
Lemma runUpdate_absorbs ops : Forall keyStable ops →
  ∀ before c, incl before ops →
    runUpdate ops (runUpdate before c) = runUpdate ops c.
Proof.
  intros Hk before. induction before as [|p before' IH] using rev_ind;
    intros c Hincl; [reflexivity|].
  unfold runUpdate at 2. rewrite fold_left_app. simpl.
  fold (runUpdate before' c).
  assert (Hp : In p ops) by (apply Hincl, in_or_app; right; now left).
  rewrite (runUpdate_agree ops p _ (runUpdate before' c) Hk Hp).
  - apply IH. intros x Hx. apply Hincl, in_or_app. now left.
  - apply applyUpdate_close. rewrite List.Forall_forall in Hk. now apply Hk.
Qed.

Lemma runUpdate_idempotent ops c :
  Forall keyStable ops → runUpdate ops (runUpdate ops c) = runUpdate ops c.
Proof. intros Hk. apply runUpdate_absorbs; [exact Hk | apply incl_refl]. Qed.

(** *** Upserts *)

Lemma updateOne_keys o c :
  keyStable o → map indexKey (applyUpdate o c) = map indexKey c.
Proof.
  intros Ho. unfold applyUpdate. induction c as [|d t IH]; simpl; [reflexivity|].
  destruct (fieldEq "matchId" (opKey o) d) eqn:Q; simpl.
  - apply fieldEq_true in Q. f_equal. rewrite (Ho d Q). congruence.
  - destruct (updateOne _ _ t) as [t' h]. simpl in *. now rewrite IH.
Qed.

Lemma existsb_key k c1 c2 :
  map indexKey c1 = map indexKey c2 →
  existsb (fieldEq "matchId" k) c1 = existsb (fieldEq "matchId" k) c2.
Proof.
  revert c2. induction c1 as [|d1 t1 IH]; intros [|d2 t2] H; try discriminate;
    [reflexivity|].
  injection H as Hd Ht. simpl. rewrite (IH t2 Ht), !fieldEq_key.
  f_equal. apply bool_decide_ext. now rewrite Hd.
Qed.

Lemma stubs_keys ops : ∀ c1 c2,
  map indexKey c1 = map indexKey c2 → stubs ops c1 = stubs ops c2.
Proof.
  induction ops as [|o rest IH]; intros c1 c2 H; simpl; [reflexivity|].
  rewrite (existsb_key _ c1 c2 H).
  destruct (existsb _ c2); [now apply IH|].
  f_equal. apply IH. now rewrite !map_app, H.
Qed.

(** The flag of [updateOne] tells whether a document matches. *)
Lemma updateOne_hit q u (c : list (gmap string jsval)) :
  snd (updateOne q u c) = existsb q c.
Proof.
  induction c as [|d t IH]; simpl; [reflexivity|].
  destruct (q d); simpl; [reflexivity|].
  destruct (updateOne q u t). simpl in *. exact IH.
Qed.

Lemma updateOne_app_hit q u (c1 c2 : list (gmap string jsval)) :
  existsb q c1 = true →
  fst (updateOne q u (c1 ++ c2)) = fst (updateOne q u c1) ++ c2.
Proof.
  induction c1 as [|d t IH]; simpl; [discriminate|].
  destruct (q d); simpl; [reflexivity|]. intros H.
  specialize (IH H).
  destruct (updateOne q u (t ++ c2)), (updateOne q u t). simpl in *.
  now rewrite IH.
Qed.

Lemma updateOne_app_miss q u (c1 c2 : list (gmap string jsval)) :
  existsb q c1 = false →
  fst (updateOne q u (c1 ++ c2)) = c1 ++ fst (updateOne q u c2).
Proof.
  induction c1 as [|d t IH]; simpl; [reflexivity|].
  destruct (q d); simpl; [discriminate|]. intros H.
  specialize (IH H).
  destruct (updateOne q u (t ++ c2)), (updateOne q u c2). simpl in *.
  now rewrite IH.
Qed.

Lemma applyUpsert_cases o c :
  applyUpsert o c =
  if existsb (fieldEq "matchId" (opKey o)) c then applyUpdate o c
  else c ++ [set (opFields o) {[ "matchId" := toBson (opKey o) ]}].
Proof.
  unfold applyUpsert, applyUpdate, upsertOne.
  rewrite <- updateOne_hit with (u := set (opFields o)).
  now destruct (updateOne _ _ c) as [c' []].
Qed.

Lemma stub_key k : indexKey {[ "matchId" := toBson k ]} = toBson k.
Proof. unfold indexKey. now rewrite lookup_singleton_eq. Qed.

Lemma applyUpdate_app_hit o c1 c2 :
  existsb (fieldEq "matchId" (opKey o)) c1 = true →
  applyUpdate o (c1 ++ c2) = applyUpdate o c1 ++ c2.
Proof. apply updateOne_app_hit. Qed.

Lemma applyUpdate_app_miss o c1 c2 :
  existsb (fieldEq "matchId" (opKey o)) c1 = false →
  applyUpdate o (c1 ++ {[ "matchId" := toBson (opKey o) ]} :: c2)
  = c1 ++ set (opFields o) {[ "matchId" := toBson (opKey o) ]} :: c2.
Proof.
  intros E. unfold applyUpdate. rewrite (updateOne_app_miss _ _ _ _ E). simpl.
  assert (Q : fieldEq "matchId" (opKey o) {[ "matchId" := toBson (opKey o) ]}
              = true) by (apply fieldEq_true, stub_key).
  now rewrite Q.
Qed.

(** A run of upserts is the run of the updates on the collection extended
    by the documents it would insert. *)
Lemma runUpsert_stubs ops : Forall keyStable ops →
  ∀ c, runUpsert ops c = runUpdate ops (c ++ stubs ops c).
Proof.
  unfold runUpsert, runUpdate.
  induction ops as [|o rest IH]; intros Hk c; simpl.
  - now rewrite app_nil_r.
  - inversion Hk as [|? ? Ho Hrest]; subst.
    rewrite applyUpsert_cases.
    destruct (existsb (fieldEq "matchId" (opKey o)) c) eqn:E.
    + rewrite (IH Hrest). f_equal.
      rewrite (applyUpdate_app_hit o c _ E). f_equal.
      apply stubs_keys. now apply updateOne_keys.
    + rewrite (IH Hrest). f_equal.
      rewrite (applyUpdate_app_miss o c _ E), <- app_assoc. simpl.
      do 2 f_equal.
      apply stubs_keys. rewrite !map_app. simpl. do 2 f_equal.
      rewrite stub_key. apply Ho, stub_key.
Qed.

Lemma existsb_app_l {A} (q : A → bool) l1 l2 :
  existsb q l1 = true → existsb q (l1 ++ l2) = true.
Proof. intros H. now rewrite existsb_app, H. Qed.

(** Every key the run looks for is there once the stubs are. *)
Lemma stubs_cover ops : ∀ c o,
  In o ops → existsb (fieldEq "matchId" (opKey o)) (c ++ stubs ops c) = true.
Proof.
  induction ops as [|p rest IH]; intros c o Hin; [destruct Hin|].
  simpl. destruct (existsb (fieldEq "matchId" (opKey p)) c) eqn:E.
  - destruct Hin as [->|Hin]; [now apply existsb_app_l | now apply IH].
  - change (c ++ ?s :: ?l) with (c ++ [s] ++ l). rewrite app_assoc.
    destruct Hin as [->|Hin]; [|now apply IH].
    apply existsb_app_l. rewrite existsb_app. simpl.
    assert (Q : fieldEq "matchId" (opKey o) {[ "matchId" := toBson (opKey o) ]}
                = true) by (apply fieldEq_true, stub_key).
    rewrite Q. now rewrite orb_true_r.
Qed.

Lemma stubs_none ops : ∀ c,
  (∀ o, In o ops → existsb (fieldEq "matchId" (opKey o)) c = true) →
  stubs ops c = [].
Proof.
  induction ops as [|p rest IH]; intros c H; simpl; [reflexivity|].
  rewrite (H p) by now left. apply IH. intros o Ho. apply H. now right.
Qed.

Lemma runUpdate_keys ops : Forall keyStable ops →
  ∀ c, map indexKey (runUpdate ops c) = map indexKey c.
Proof.
  unfold runUpdate. induction ops as [|o rest IH]; intros Hk c; simpl;
    [reflexivity|].
  inversion Hk; subst. rewrite IH by assumption. now apply updateOne_keys.
Qed.

Lemma runUpsert_idempotent ops c :
  Forall keyStable ops → runUpsert ops (runUpsert ops c) = runUpsert ops c.
Proof.
  intros Hk.
  rewrite (runUpsert_stubs ops Hk (runUpsert ops c)).
  rewrite (runUpsert_stubs ops Hk c).
  rewrite (stubs_none ops (runUpdate ops (c ++ stubs ops c))).
  - rewrite app_nil_r. now apply runUpdate_idempotent.
  - intros o Ho.
    rewrite (existsb_key _ _ (c ++ stubs ops c)) by now apply runUpdate_keys.
    now apply stubs_cover.
Qed.

(** *** The importer as two runs *)

Lemma importFile_runs now results : ∀ st t,
  fst (importFile now (st, t) results)
  = {| matches := runUpdate (matchOps now results) (matches st);
       match_details := runUpsert (detailOps now results) (match_details st) |}.
Proof.
  unfold importFile, runUpdate, runUpsert.
  induction results as [|r rest IH]; intros st t; simpl.
  - now destruct st.
  - unfold effective, importEntry.
    destruct (hasError r); [apply IH|].
    destruct (internalIdOf r) as [internalId|e]; [|apply IH].
    destruct (updateOne (fieldEq "matchId" (matchId r))
                (set (matchUpdate now r internalId)) (matches st))
      as [ms hit] eqn:E.
    rewrite IH. simpl. unfold applyUpdate, applyUpsert. simpl.
    now rewrite E.
Qed.

(** *** Timestamps *)

Lemma untimed_set (s d : gmap string jsval) :
  delete "updatedAt" (set s d)
  = set (delete "updatedAt" s) (delete "updatedAt" d).
Proof. unfold set. now rewrite delete_union, fmap_delete. Qed.

Lemma untimed_fieldEq k (d : gmap string jsval) :
  fieldEq "matchId" k (delete "updatedAt" d) = fieldEq "matchId" k d.
Proof. unfold fieldEq. now rewrite lookup_delete_ne by discriminate. Qed.

Lemma untimed_updateOne k s (c : list (gmap string jsval)) :
  map (delete "updatedAt") (fst (updateOne (fieldEq "matchId" k) (set s) c))
  = fst (updateOne (fieldEq "matchId" k) (set (delete "updatedAt" s))
           (map (delete "updatedAt") c)).
Proof.
  induction c as [|d t IH]; simpl; [reflexivity|].
  rewrite untimed_fieldEq. destruct (fieldEq "matchId" k d); simpl.
  - now rewrite untimed_set.
  - destruct (updateOne _ (set s) t), (updateOne _ _ (map _ t)).
    simpl in *. now rewrite IH.
Qed.

Lemma untimed_applyUpdate o c :
  map (delete "updatedAt") (applyUpdate o c)
  = applyUpdate (untimedOp o) (map (delete "updatedAt") c).
Proof. apply untimed_updateOne. Qed.

Lemma untimed_existsb k (c : list (gmap string jsval)) :
  existsb (fieldEq "matchId" k) (map (delete "updatedAt") c)
  = existsb (fieldEq "matchId" k) c.
Proof.
  induction c as [|d t IH]; simpl; [reflexivity|].
  now rewrite untimed_fieldEq, IH.
Qed.

Lemma untimed_applyUpsert o c :
  map (delete "updatedAt") (applyUpsert o c)
  = applyUpsert (untimedOp o) (map (delete "updatedAt") c).
Proof.
  rewrite !applyUpsert_cases. simpl. rewrite untimed_existsb.
  destruct (existsb _ c); [apply untimed_applyUpdate|].
  rewrite map_app. simpl. rewrite untimed_set.
  rewrite (delete_id {[ "matchId" := toBson (opKey o) ]})
    by (now rewrite lookup_singleton_ne by discriminate).
  reflexivity.
Qed.





(** *** Keys *)

Lemma keyStable_without_matchId k (s : gmap string jsval) :
  s !! "matchId" = None → keyStable {| opKey := k; opFields := s |}.
Proof.
  intros Hs d Hd. simpl in *. unfold indexKey in *.
  now rewrite set_lookup, Hs.
Qed.



(** [saveMatchDetails] files the details under the [matchId] they carry,
    so saving them again changes nothing but the timestamp. *)
Lemma saveMatchDetails_twice now1 now2 details st :
  untimed (fst (saveMatchDetails now2 details
                  (fst (saveMatchDetails now1 details st))))
  = untimed (fst (saveMatchDetails now1 details st)).
Proof.
  unfold saveMatchDetails, untimed. simpl. f_equal.
  pose (op now := {| opKey := getField "matchId" details;
                     opFields := <["updatedAt" := JDate (Some now)]> details |}).
  change (map (delete "updatedAt")
            (applyUpsert (op now2) (applyUpsert (op now1) (match_details st)))
          = map (delete "updatedAt") (applyUpsert (op now1) (match_details st))).
  rewrite !untimed_applyUpsert.
  assert (E : untimedOp (op now2) = untimedOp (op now1)).
  { unfold untimedOp, op. simpl. now rewrite !delete_insert_eq. }
  rewrite E.
  apply (runUpsert_idempotent [untimedOp (op now1)]).
  constructor; [|constructor].
  unfold untimedOp, op. simpl. rewrite delete_insert_eq.
  unfold getField.
  destruct (details !! "matchId") as [v|] eqn:Ev; simpl.
  - intros d Hd. simpl in *. unfold indexKey.
    rewrite set_lookup, lookup_delete_ne, Ev by discriminate. simpl.
    now destruct v as [[]| | |].
  - apply keyStable_without_matchId.
    now rewrite lookup_delete_ne by discriminate.
Qed.

(** What scrape-batch.js emits is filed under its own key. *)
Lemma scrapeOne_ownKey scrape now row : ownKey (scrapeOne scrape now row).
Proof.
  unfold ownKey, scrapeOne. destruct (scrape (rowMatchId row)); simpl.
  - intros d [= <-]. right. unfold detailsOf, createMatchDetails.
    erewrite lookup_union_Some_l; [reflexivity|]. apply lookup_insert_eq.
  - discriminate.
Qed.

(** A parsed file is imported as the entries before its first null, and
    counted once more when it holds a null. *)
Lemma importResults_read now results : ∀ st t,
  ImportParsed.importResults now (st, t) results
  = (let r := importFile now (st, t) (ParsedSpec.readEntries results) in
     (r.1, if ParsedSpec.cutShort results
           then ImportParsed.countProcessed r.2 else r.2)).
Proof.
  induction results as [|[r|] rest IH]; intros st t.
  - reflexivity.
  - cbn [ImportParsed.importResults ParsedSpec.readEntries ParsedSpec.cutShort
         existsb].
    rewrite bool_decide_false by discriminate. cbn [orb].
    destruct (importEntry now (st, t) r) as [st1 t1] eqn:E.
    rewrite IH. unfold importFile. cbn [fold_left]. now rewrite E.
  - cbn [ImportParsed.importResults ParsedSpec.readEntries ParsedSpec.cutShort
         existsb].
    rewrite bool_decide_true by reflexivity. reflexivity.
Qed.

Lemma importFile_store now results st t t' :
  (importFile now (st, t) results).1 = (importFile now (st, t') results).1.
Proof.
  change ((importFile now (st, t) results).1)
    with (fst (importFile now (st, t) results)).
  change ((importFile now (st, t') results).1)
    with (fst (importFile now (st, t') results)).
  now rewrite !importFile_runs.
Qed.

End Idempotence.




(** [updateMatchStatus] is the one operation that counts attempts: each
    call adds one, so calling it twice is not calling it once. *)
Lemma updateMatchStatus_counts_each_call :
  let st0 := {| Database.matches := [ImportSpec.pendingMatch "m1" 1 (PNum 0)];
                Database.match_details := [] |} in
  let st1 := fst (Database.updateMatchStatus 1 (PStr "m1") (PStr "complete") st0) in
  let st2 := fst (Database.updateMatchStatus 2 (PStr "m1") (PStr "complete") st1) in
  ImportSpec.attemptsOf "m1" (Database.matches st1) = JPrim (PNum 1)
  ∧ ImportSpec.attemptsOf "m1" (Database.matches st2) = JPrim (PNum 2)
  ∧ ImportSpec.statusOf "m1" (Database.matches st2) = JPrim (PStr "complete").
Proof. repeat split; vm_compute; reflexivity. Qed.

(** * More of the code: schema, store, dates, worker, importer, fetcher *)

Section SchemaFacts.

Import Mongo Database Schema.

Lemma union_absorb (a d1 d2 : gmap string jsval) :
  (∀ i, d1 !! i = None → d2 !! i = None) → (a ∪ d1) ∪ d2 = a ∪ d1.
Proof.
  intros H. apply map_eq. intros i.
  rewrite !lookup_union.
  pose proof (H i) as Hi.
  destruct (d1 !! i) as [w|].
  - destruct (a !! i), (d2 !! i); reflexivity.
  - rewrite (Hi eq_refl). destruct (a !! i); reflexivity.
Qed.

Lemma missingFields_In m f :
  In f (missingFields m) ↔ In f required ∧ truthy (getField f m) = false.
Proof.
  unfold missingFields. rewrite List.filter_In, negb_true_iff. reflexivity.
Qed.

Lemma validateMatch_valid m :
  valid (validateMatch m) = true
  ↔ ∀ f, In f required → truthy (getField f m) = true.
Proof.
  unfold validateMatch.
  destruct (missingFields m) as [|f0 rest] eqn:E; simpl.
  - split; [intros _ f Hf | reflexivity].
    destruct (truthy (getField f m)) eqn:T; [reflexivity|].
    assert (In f (missingFields m)) as H by (apply missingFields_In; auto).
    rewrite E in H. destruct H.
  - split; [discriminate|]. intros H.
    assert (In f0 (missingFields m)) as H0 by (rewrite E; left; reflexivity).
    apply missingFields_In in H0 as [Hr Hf]. rewrite (H f0 Hr) in Hf. discriminate.
Qed.

Lemma createMatch_required now1 now2 data f :
  In f required →
  truthy (getField f (createMatch now1 now2 data)) = truthy (getField f data).
Proof.
  intros Hf. unfold getField, createMatch. rewrite lookup_union.
  destruct (data !! f) as [v|].
  - match goal with |- context [Some v ∪ ?x] => destruct x end; reflexivity.
  - simpl in Hf.
    repeat (destruct Hf as [<-|Hf]; [reflexivity|]). destruct Hf.
Qed.

End SchemaFacts.

(** X1.  The constructors of schema.js only fill in what is missing.
    Applied to a record that the same constructor has built, [createMatch],
    [createMatchDetails] and [createMatchH2H] return it as it is, whatever
    the clock reads by then; every field that [data] gives is kept with its
    value; and [createMatch] adds no [processingAttempts] of its own. *)
Theorem schema_constructors_fill_once :
  (∀ now1 now2 now3 now4 data,
     Schema.createMatch now3 now4 (Schema.createMatch now1 now2 data)
     = Schema.createMatch now1 now2 data)
  ∧ (∀ now now' data,
       Worker.createMatchDetails now' (Worker.createMatchDetails now data)
       = Worker.createMatchDetails now data)
  ∧ (∀ now1 now2 now3 now4 data,
       Schema.createMatchH2H now3 now4 (Schema.createMatchH2H now1 now2 data)
       = Schema.createMatchH2H now1 now2 data)
  ∧ (∀ now1 now2 data f v,
       data !! f = Some v →
       Schema.createMatch now1 now2 data !! f = Some v
       ∧ Schema.createMatchH2H now1 now2 data !! f = Some v
       ∧ Worker.createMatchDetails now1 data !! f = Some v)
  ∧ (∀ now1 now2 data,
       Schema.createMatch now1 now2 data !! "processingAttempts"
       = data !! "processingAttempts").
Proof.
  split; [|split; [|split; [|split]]].
  - intros. unfold Schema.createMatch. apply union_absorb.
    intros i. rewrite ?lookup_insert_None, ?lookup_singleton_None. tauto.
  - intros. unfold Worker.createMatchDetails. apply union_absorb.
    intros i. rewrite ?lookup_insert_None, ?lookup_singleton_None. tauto.
  - intros. unfold Schema.createMatchH2H. apply union_absorb.
    intros i. rewrite ?lookup_insert_None, ?lookup_singleton_None. tauto.
  - intros now1 now2 data f v H.
    unfold Schema.createMatch, Schema.createMatchH2H, Worker.createMatchDetails.
    repeat split; apply lookup_union_Some_l; exact H.
  - intros now1 now2 data. unfold Schema.createMatch. rewrite lookup_union.
    destruct (data !! "processingAttempts"); reflexivity.
Qed.

(** X2.  [validateMatch] accepts a record exactly when [matchId],
    [internalId], [team], [homeTeam] and [awayTeam] are all truthy;
    otherwise it returns one message, which lists the missing ones in that
    order.  A record built by [createMatch] is valid exactly when [data]
    itself gives the five fields: the defaults are empty strings, so
    [createMatch({})] misses all five. *)
Theorem validateMatch_createMatch :
  (∀ m, Schema.valid (Schema.validateMatch m) = true
        ↔ ∀ f, In f Schema.required → truthy (Mongo.getField f m) = true)
  ∧ (∀ m, Schema.valid (Schema.validateMatch m) = false →
          Schema.errors (Schema.validateMatch m)
            = Some ["Missing required fields: "
                    +:+ String.concat ", " (Schema.missingFields m)]
          ∧ Schema.missingFields m ≠ []
          ∧ ∀ f, In f (Schema.missingFields m)
                 ↔ In f Schema.required ∧ truthy (Mongo.getField f m) = false)
  ∧ (∀ now1 now2 data,
       Schema.valid (Schema.validateMatch (Schema.createMatch now1 now2 data)) = true
       ↔ ∀ f, In f Schema.required → truthy (Mongo.getField f data) = true)
  ∧ (∀ now1 now2, Schema.missingFields (Schema.createMatch now1 now2 ∅) = Schema.required).
Proof.
  split; [exact validateMatch_valid|].
  split.
  { intros m Hv. split; [|split; [|apply missingFields_In]].
    - revert Hv. unfold Schema.validateMatch.
      destruct (Schema.missingFields m); simpl; [discriminate | reflexivity].
    - intros E. revert Hv. unfold Schema.validateMatch. rewrite E. discriminate. }
  split.
  { intros now1 now2 data. rewrite validateMatch_valid.
    split; intros H f Hf.
    - rewrite <- (createMatch_required now1 now2) by exact Hf. auto.
    - rewrite createMatch_required by exact Hf. auto. }
  intros now1 now2. reflexivity.
Qed.

Section SelectionFacts.

Import Mongo Database Schema.

Lemma find_first (q : gmap string jsval → bool) pre d post :
  Forall (fun x => q x = false) pre → q d = true →
  List.find q (pre ++ d :: post) = Some d.
Proof.
  induction 1 as [|x pre Hx _ IH]; intros Hd; simpl.
  - now rewrite Hd.
  - rewrite Hx. auto.
Qed.

Lemma find_none (q : gmap string jsval → bool) c :
  Forall (fun x => q x = false) c → List.find q c = None.
Proof. induction 1 as [|x c Hx _ IH]; simpl; [reflexivity|now rewrite Hx]. Qed.

Lemma fieldEq_ext f v (d1 d2 : gmap string jsval) :
  d1 !! f = d2 !! f → fieldEq f v d1 = fieldEq f v d2.
Proof. unfold fieldEq. now intros ->. Qed.

Lemma inc_lookup f n (d : gmap string jsval) g :
  inc f n d !! g
  = if decide (g = f) then
      match d !! f with
      | None => Some (JPrim (PNum n))
      | Some (JPrim (PNum m)) => Some (JPrim (PNum (m + n)))
      | Some v => Some v
      end
    else d !! g.
Proof.
  unfold inc. destruct (decide (g = f)) as [->|Hne].
  - destruct (d !! f) as [[[]| | |]|] eqn:E; rewrite ?lookup_insert_eq; auto.
  - destruct (d !! f) as [[[]| | |]|]; rewrite ?lookup_insert_ne by congruence; auto.
Qed.

Lemma selected_In o st d :
  In d (getMatchesForProcessing o st) →
  In d (matches st) ∧ processingQuery o d = true.
Proof.
  unfold getMatchesForProcessing. intros H.
  destruct (limit_prefix _ (Database.limit o)
              (sortBy (fieldLeb (sortField (matches st)))
                 (find (processingQuery o) (matches st)))) as [rest E].
  assert (In d (sortBy (fieldLeb (sortField (matches st)))
                  (find (processingQuery o) (matches st)))) as H'.
  { rewrite E. apply in_or_app. now left. }
  apply (Permutation_in _ (Permutation_sym (sortBy_perm _ _ _))) in H'.
  unfold find in H'. now apply List.filter_In in H'.
Qed.

Lemma fieldLt_number f n (d : gmap string jsval) :
  fieldLt f n d = true ↔ ∃ m, d !! f = Some (JPrim (PNum m)) ∧ m < n.
Proof.
  unfold fieldLt. split.
  - destruct (d !! f) as [[[]| | |]|]; try discriminate.
    intros H. eexists. split; [reflexivity|]. now apply Z.ltb_lt.
  - intros (m & -> & H). now apply Z.ltb_lt.
Qed.

End SelectionFacts.

(** X3.  [getMatchesForProcessing] returns only records of the collection
    that satisfy its query, so each of them carries a number under
    [processingAttempts], below [maxAttempts].  A record built by
    [createMatch] from a [data] without [processingAttempts] and inserted by
    [saveMatches] is therefore never returned, whatever the options. *)
Theorem selection_needs_counter :
  (∀ o st d,
     In d (Database.getMatchesForProcessing o st) →
     In d (Database.matches st)
     ∧ Database.processingQuery o d = true
     ∧ ∃ n, d !! "processingAttempts" = Some (JPrim (PNum n))
            ∧ n < Database.maxAttempts o)
  ∧ (∀ now1 now2 now data o st,
       data !! "processingAttempts" = None →
       let m := Schema.createMatch now1 now2 data in
       let st' := fst (Database.saveMatches None now (Some [m]) st) in
       ∀ d, In d (Database.getMatchesForProcessing o st') →
            d ≠ <["createdAt" := JDate (Some now)]> m).
Proof.
  assert (∀ o st d,
     In d (Database.getMatchesForProcessing o st) →
     In d (Database.matches st)
     ∧ Database.processingQuery o d = true
     ∧ ∃ n, d !! "processingAttempts" = Some (JPrim (PNum n))
            ∧ n < Database.maxAttempts o) as H.
  { intros o st d Hd. apply selected_In in Hd as [Hin Hq].
    split; [exact Hin|]. split; [exact Hq|].
    unfold Database.processingQuery in Hq.
    repeat (apply andb_true_iff in Hq as [Hq ?]).
    now apply fieldLt_number. }
  split; [exact H|].
  intros now1 now2 now data o st Hdata m st' d Hd ->.
  apply H in Hd as (_ & _ & n & Hn & _).
  rewrite lookup_insert_ne in Hn by discriminate.
  unfold m, Schema.createMatch in Hn. rewrite lookup_union, Hdata in Hn.
  discriminate.
Qed.

Section InsertFacts.

Import Mongo Database Schema.

Lemma set_keeps (s d : gmap string jsval) f :
  s !! f = None → set s d !! f = d !! f.
Proof. intros H. rewrite set_lookup, H. reflexivity. Qed.

Lemma all_refused docs : ∀ c,
  (∀ d, In d docs → keyTaken (indexKey d) c = true) →
  insertUnordered docs c = (c, 0, Z.of_nat (length docs)).
Proof.
  induction docs as [|d t IH]; intros c H; [reflexivity|].
  cbn [insertUnordered]. rewrite (H d) by (now left).
  rewrite IH by (intros; apply H; now right).
  f_equal. cbn [length]. lia.
Qed.

Lemma indexKey_createdAt v (m : gmap string jsval) :
  indexKey (<["createdAt" := v]> m) = indexKey m.
Proof. unfold indexKey. now rewrite lookup_insert_ne. Qed.

Lemma keyTaken_In k c : keyTaken k c = true ↔ In k (map indexKey c).
Proof.
  unfold keyTaken. rewrite existsb_exists, in_map_iff.
  split; intros (d & H1 & H2).
  - exists d. split; [now apply bool_decide_eq_true in H2 | exact H1].
  - exists d. split; [exact H2 | now apply bool_decide_eq_true].
Qed.

Lemma insertUnordered_NoDup docs : ∀ c,
  List.NoDup (map indexKey c) →
  List.NoDup (map indexKey (fst (fst (insertUnordered docs c)))).
Proof.
  induction docs as [|d t IH]; intros c H; [exact H|].
  cbn [insertUnordered]. destruct (keyTaken (indexKey d) c) eqn:K.
  - specialize (IH c H). destruct (insertUnordered t c) as [[c' n] r]. exact IH.
  - assert (List.NoDup (map indexKey (c ++ [d]))) as H'.
    { rewrite map_app. apply List.NoDup_app; [exact H | |].
      - constructor; [intros [] | constructor].
      - intros k Hk [<-|[]]. apply keyTaken_In in Hk. congruence. }
    specialize (IH _ H'). destruct (insertUnordered t (c ++ [d])) as [[c' n] r].
    exact IH.
Qed.

End InsertFacts.


(** X6.  Saving the same batch of matches a second time inserts nothing:
    the second call returns 0 and leaves the store as the first call left
    it, for every batch, store and reading of the clock. *)
Theorem saveMatches_again_inserts_nothing :
  ∀ now1 now2 (ms : list (gmap string jsval)) st,
    let st1 := fst (Database.saveMatches None now1 (Some ms) st) in
    Database.saveMatches None now2 (Some ms) st1 = (st1, Ok 0).
Proof.
  intros now1 now2 ms st st1.
  destruct ms as [|m0 ms']; [reflexivity|].
  set (ms := m0 :: ms') in *.
  set (stamp now := map (fun m : gmap string jsval =>
                           <["createdAt" := JDate (Some now)]> m) ms).
  destruct (insertUnordered_spec (stamp now1) (Database.matches st))
    as (ins & E & _ & Hall & _).
  assert (Database.matches st1 = Database.matches st ++ ins
          ∧ Database.match_details st1 = Database.match_details st) as [E1 E2].
  { unfold st1, Database.saveMatches, ms. fold ms. cbv zeta.
    unfold Mongo.insertMany. fold (stamp now1). rewrite E.
    destruct (_ =? 0); simpl; auto. }
  assert (Mongo.insertUnordered (stamp now2) (Database.matches st1)
          = (Database.matches st1, 0, Z.of_nat (length (stamp now2)))) as E3.
  { apply all_refused. intros d Hd. unfold stamp in Hd.
    apply in_map_iff in Hd as (m & <- & Hm).
    rewrite indexKey_createdAt, E1.
    rewrite <- (indexKey_createdAt (JDate (Some now1))).
    apply Hall. unfold stamp. apply in_map_iff. eauto. }
  unfold Database.saveMatches, ms. fold ms. cbv zeta.
  unfold Mongo.insertMany. fold (stamp now2). rewrite E3.
  assert ((Z.of_nat (length (stamp now2)) =? 0) = false) as ->.
  { apply Z.eqb_neq. unfold stamp, ms. rewrite length_map. simpl. lia. }
  simpl. f_equal. destruct st1. reflexivity.
Qed.

(** X7.  [saveMatches] keeps the [matchId]s of the collection distinct:
    when no two records share one before the call, none do after it,
    whatever the batch and whether or not the store fails.  The records
    that were there stay as they were, the new ones come after them, and
    [match_details] is not touched. *)
Theorem saveMatches_keeps_unique :
  ∀ fault now arg st,
    List.NoDup (map Mongo.indexKey (Database.matches st)) →
    let st' := fst (Database.saveMatches fault now arg st) in
    List.NoDup (map Mongo.indexKey (Database.matches st'))
    ∧ (∃ ins, Database.matches st' = Database.matches st ++ ins)
    ∧ Database.match_details st' = Database.match_details st.
Proof.
  intros fault now arg st Hnd st'.
  destruct arg as [[|m0 ms']|].
  1,3: simpl; split; [exact Hnd|]; split; [exists []; now rewrite app_nil_r | reflexivity].
  set (ms := m0 :: ms') in *.
  set (docs := map (fun m : gmap string jsval =>
                      <["createdAt" := JDate (Some now)]> m) ms).
  assert (Database.matches st'
          = fst (Mongo.insertMany fault docs (Database.matches st))
          ∧ Database.match_details st' = Database.match_details st) as [E1 E2].
  { unfold st', Database.saveMatches. fold ms. cbv zeta. fold docs.
    destruct (Mongo.insertMany fault docs (Database.matches st)) as [c' [res|[msg|err|path]]];
      simpl; auto.
    destruct (JS.code err =? 11000); simpl; auto. }
  rewrite E1. split; [|split; [|exact E2]].
  - unfold Mongo.insertMany. destruct fault; [exact Hnd|].
    pose proof (insertUnordered_NoDup docs _ Hnd) as H.
    destruct (Mongo.insertUnordered docs (Database.matches st)) as [[c' n] r].
    destruct (r =? 0); exact H.
  - unfold Mongo.insertMany. destruct fault; [exists []; simpl; now rewrite app_nil_r|].
    destruct (insertUnordered_spec docs (Database.matches st)) as (ins & E & _).
    rewrite E. exists ins. destruct (_ =? 0); reflexivity.
Qed.

(** The theorem at a concrete input. *)
Lemma saveMatches_keeps_unique_witness :
  List.NoDup (map Mongo.indexKey
                (Database.matches
                   (fst (Database.saveMatches None 0 (Some Scenario.batchOfFive)
                           Scenario.storeWithTwo)))).
Proof.
  apply (saveMatches_keeps_unique None 0 (Some Scenario.batchOfFive)
           Scenario.storeWithTwo).
  vm_compute. repeat constructor; simpl; intuition discriminate.
Defined.

Section LimitFacts.

Import Mongo Database Schema.

Lemma limit_length {A} n (l : list A) :
  n ≠ 0 → length (Mongo.limit n l) = Nat.min (Z.abs_nat n) (length l).
Proof.
  intros H. unfold Mongo.limit.
  destruct (n =? 0) eqn:E; [apply Z.eqb_eq in E; contradiction|].
  apply length_firstn.
Qed.

End LimitFacts.

(** X4.  What [limit] does to [getMatchesForProcessing]: every record
    returned is one of the collection that satisfies the query; with a
    positive limit the result has the smaller of [limit] and the number of
    matching records; with [limit: 0] it has all of them; and it is empty
    when nothing matches. *)
Theorem getMatchesForProcessing_limit :
  ∀ o st,
    let matching := Mongo.find (Database.processingQuery o) (Database.matches st) in
    Forall (fun d => In d (Database.matches st)
                     ∧ Database.processingQuery o d = true)
      (Database.getMatchesForProcessing o st)
    ∧ (Database.limit o = 0 →
       Permutation (Database.getMatchesForProcessing o st) matching)
    ∧ (0 < Database.limit o →
       length (Database.getMatchesForProcessing o st)
       = Nat.min (Z.to_nat (Database.limit o)) (length matching))
    ∧ (matching = [] → Database.getMatchesForProcessing o st = []).
Proof.
  intros o st matching. split; [|split; [|split]].
  - apply List.Forall_forall. intros d. apply selected_In.
  - intros H. unfold Database.getMatchesForProcessing, Mongo.limit.
    rewrite H. simpl. symmetry. apply sortBy_perm.
  - intros H. unfold Database.getMatchesForProcessing.
    rewrite limit_length by lia.
    replace (Z.abs_nat (Database.limit o)) with (Z.to_nat (Database.limit o)) by lia.
    f_equal. symmetry. apply Permutation_length. apply sortBy_perm.
  - intros H. unfold Database.getMatchesForProcessing. fold matching. rewrite H.
    unfold Mongo.limit. simpl. destruct (_ =? 0); [reflexivity|].
    apply firstn_nil.
Qed.

Section StatusFacts.

Import Mongo Database StoreSpec.

Lemma withMatches_same st : withMatches (matches st) st = st.
Proof. now destruct st. Qed.

Lemma updateMatchStatus_step now id status st d n :
  findOne (fieldEq "matchId" id) (matches st) = Some d →
  counterOf d = Some n →
  ∃ st' d',
    updateMatchStatus now id status st = (st', true)
    ∧ match_details st' = match_details st
    ∧ length (matches st') = length (matches st)
    ∧ findOne (fieldEq "matchId" id) (matches st') = Some d'
    ∧ d' !! "processingStatus" = Some (toBson status)
    ∧ d' !! "processingAttempts" = Some (JPrim (PNum (n + 1)))
    ∧ d' !! "updatedAt" = Some (JDate (Some now))
    ∧ ∀ f, f ≠ "processingStatus" → f ≠ "processingAttempts" →
           f ≠ "updatedAt" → d' !! f = d !! f.
Proof.
  intros Hfind Hn. unfold updateMatchStatus.
  set (u := fun d0 : gmap string jsval =>
              inc "processingAttempts" 1
                (set {[ "processingStatus" := status;
                        "updatedAt" := JDate (Some now) ]} d0)).
  assert (∀ d0 f, f ≠ "processingStatus" → f ≠ "processingAttempts" →
                  f ≠ "updatedAt" → u d0 !! f = d0 !! f) as Hother.
  { intros d0 f H1 H2 H3. unfold u. rewrite inc_lookup.
    rewrite decide_False by exact H2. apply set_keeps.
    rewrite lookup_insert_ne by congruence. now rewrite lookup_singleton_ne. }
  destruct (updateOne_cases (fieldEq "matchId" id) u (matches st))
    as [(pre & d0 & post & Ec & Hpre & Hd0 & E)|[Hall E]].
  - rewrite E. unfold findOne in Hfind. rewrite Ec, (find_first _ _ _ _ Hpre Hd0) in Hfind.
    injection Hfind as <-.
    exists (withMatches (pre ++ u d0 :: post) st), (u d0).
    split; [reflexivity|]. split; [reflexivity|].
    split; [simpl; rewrite Ec, !length_app; reflexivity|].
    split.
    { simpl. apply find_first; [exact Hpre|].
      rewrite (fieldEq_ext "matchId" id (u d0) d0); [exact Hd0|].
      apply Hother; discriminate. }
    split.
    { unfold u. rewrite inc_lookup, decide_False by discriminate.
      rewrite set_lookup. reflexivity. }
    split.
    { unfold u. rewrite inc_lookup, decide_True by reflexivity.
      rewrite set_keeps by reflexivity.
      unfold counterOf in Hn.
      destruct (d0 !! "processingAttempts") as [[[]| | |]|]; try discriminate;
        injection Hn as <-; reflexivity. }
    split; [|apply Hother].
    unfold u. rewrite inc_lookup, decide_False by discriminate.
    rewrite set_lookup. reflexivity.
  - unfold findOne in Hfind. rewrite (find_none _ _ Hall) in Hfind. discriminate.
Qed.

End StatusFacts.

(** X8.  [updateMatchStatus] for a [matchId] that no record has changes
    nothing and returns false.  For the first record with the [matchId],
    when its attempt counter is a number or missing, it sets the status and
    [updatedAt], adds one to the counter (a missing one counts as zero),
    leaves every other field alone and returns true.  After a series of
    calls the counter has grown by the number of calls, and once it has
    reached [maxAttempts] the record is no longer selected by
    [getMatchesForProcessing]. *)
Theorem updateMatchStatus_counts :
  (∀ now id status st,
     Mongo.findOne (Mongo.fieldEq "matchId" id) (Database.matches st) = None →
     Database.updateMatchStatus now id status st = (st, false))
  ∧ (∀ now id status st d n,
       Mongo.findOne (Mongo.fieldEq "matchId" id) (Database.matches st) = Some d →
       StoreSpec.counterOf d = Some n →
       ∃ st' d',
         Database.updateMatchStatus now id status st = (st', true)
         ∧ Database.match_details st' = Database.match_details st
         ∧ Mongo.findOne (Mongo.fieldEq "matchId" id) (Database.matches st')
           = Some d'
         ∧ d' !! "processingStatus" = Some (Mongo.toBson status)
         ∧ d' !! "processingAttempts" = Some (JPrim (PNum (n + 1)))
         ∧ d' !! "updatedAt" = Some (JDate (Some now))
         ∧ ∀ f, f ≠ "processingStatus" → f ≠ "processingAttempts" →
                f ≠ "updatedAt" → d' !! f = d !! f)
  ∧ (∀ calls id st d n,
       Mongo.findOne (Mongo.fieldEq "matchId" id) (Database.matches st) = Some d →
       StoreSpec.counterOf d = Some n →
       ∃ d',
         Mongo.findOne (Mongo.fieldEq "matchId" id)
           (Database.matches (StoreSpec.updateStatuses id calls st)) = Some d'
         ∧ StoreSpec.counterOf d' = Some (n + Z.of_nat (length calls))
         ∧ ∀ o, Database.maxAttempts o ≤ n + Z.of_nat (length calls) →
                ¬ In d' (Database.getMatchesForProcessing o
                           (StoreSpec.updateStatuses id calls st))).
Proof.
  split; [|split].
  - intros now id status st Hnone. unfold Database.updateMatchStatus.
    destruct (updateOne_cases (Mongo.fieldEq "matchId" id)
                (fun d => Mongo.inc "processingAttempts" 1
                   (Mongo.set {[ "processingStatus" := status;
                                 "updatedAt" := JDate (Some now) ]} d))
                (Database.matches st))
      as [(pre & d0 & post & Ec & Hpre & Hd0 & E)|[Hall E]].
    + unfold Mongo.findOne in Hnone.
      rewrite Ec, (find_first _ _ _ _ Hpre Hd0) in Hnone. discriminate.
    + rewrite E. now rewrite withMatches_same.
  - intros now id status st d n Hfind Hn.
    destruct (updateMatchStatus_step now id status st d n Hfind Hn)
      as (st' & d' & E & Hdet & _ & Hrest).
    exists st', d'. auto.
  - intros calls. induction calls as [|[now status] calls IH]; intros id st d n Hfind Hn.
    + exists d. simpl. split; [exact Hfind|]. split; [now rewrite Z.add_0_r|].
      intros o Ho Hin. apply selected_In in Hin as [_ Hq].
      unfold Database.processingQuery in Hq.
      repeat (apply andb_true_iff in Hq as [Hq ?]).
      match goal with H : Mongo.fieldLt _ _ _ = true |- _ =>
        apply fieldLt_number in H as (m & Hm & Hlt) end.
      unfold StoreSpec.counterOf in Hn. rewrite Hm in Hn. injection Hn as ->. lia.
    + destruct (updateMatchStatus_step now id status st d n Hfind Hn)
        as (st' & d' & E & _ & _ & Hfind' & _ & Hc & _).
      assert (StoreSpec.counterOf d' = Some (n + 1)) as Hn'
        by (unfold StoreSpec.counterOf; now rewrite Hc).
      destruct (IH id st' d' (n + 1) Hfind' Hn') as (d'' & H1 & H2 & H3).
      unfold StoreSpec.updateStatuses. cbn [fold_left fst snd]. rewrite E. cbn [fst].
      fold (StoreSpec.updateStatuses id calls st').
      exists d''. split; [exact H1|].
      replace (n + Z.of_nat (length ((now, status) :: calls)))
        with (n + 1 + Z.of_nat (length calls)) by (cbn [length]; lia).
      auto.
Qed.

Section DetailsFacts.

Import Mongo Database.

Lemma fieldEq_hit f v (d : gmap string jsval) :
  d !! f = Some (toBson v) → fieldEq f v d = true.
Proof. unfold fieldEq. intros ->. now apply bool_decide_eq_true. Qed.

(** An update under the key [k] of the field [f] that leaves the key of
    the document it finds alone. *)
Lemma keyed_update f k (s d : gmap string jsval) :
  (s !! f = None ∨ ∃ v, s !! f = Some v ∧ toBson v = toBson k) →
  fieldEq f k d = true → fieldEq f k (set s d) = true.
Proof.
  intros [Hs|(v & Hs & Hv)] H.
  - rewrite (fieldEq_ext f k (set s d) d); [exact H|]. now apply set_keeps.
  - apply fieldEq_hit. rewrite set_lookup, Hs. now rewrite Hv.
Qed.

Lemma keyed_base f k (s : gmap string jsval) :
  (s !! f = None ∨ ∃ v, s !! f = Some v ∧ toBson v = toBson k) →
  fieldEq f k (set s {[ f := toBson k ]}) = true.
Proof.
  intros Hs. apply keyed_update; [exact Hs|].
  apply fieldEq_hit. now rewrite lookup_singleton_eq.
Qed.

Lemma own_key f (s : gmap string jsval) :
  s !! f = None ∨ ∃ v, s !! f = Some v ∧ toBson v = toBson (getField f s).
Proof.
  unfold getField. destruct (s !! f) as [v|]; [right|left; reflexivity].
  exists v. split; reflexivity.
Qed.

Lemma upsertOne_keyed f k (s : gmap string jsval) c :
  (s !! f = None ∨ ∃ v, s !! f = Some v ∧ toBson v = toBson k) →
  let q := fieldEq f k in
  let c' := upsertOne f k (set s) c in
  (∃ d, findOne q c' = Some d
        ∧ (∀ g v, s !! g = Some v → d !! g = Some (toBson v))
        ∧ (∀ g old, findOne q c = Some old → s !! g = None → d !! g = old !! g)
        ∧ (findOne q c = None → d = set s {[ f := toBson k ]}))
  ∧ length c' = (length c + (if existsb q c then 0 else 1))%nat
  ∧ (∀ x, q x = false → In x c' ↔ In x c).
Proof.
  intros Hs q c'. unfold c', upsertOne.
  destruct (updateOne_cases q (set s) c)
    as [(pre & d0 & post & Ec & Hpre & Hd0 & E)|[Hall E]]; fold q; rewrite E.
  - split; [|split].
    + exists (set s d0). split; [|split; [|split]].
      * apply find_first; [exact Hpre|]. now apply keyed_update.
      * intros g v Hg. now rewrite set_lookup, Hg.
      * intros g old Hold Hg. unfold findOne in Hold.
        rewrite Ec, (find_first _ _ _ _ Hpre Hd0) in Hold. injection Hold as <-.
        now apply set_keeps.
      * unfold findOne. rewrite Ec, (find_first _ _ _ _ Hpre Hd0). discriminate.
    + assert (existsb q c = true) as ->.
      { rewrite Ec, existsb_app. simpl. rewrite Hd0. now rewrite orb_true_r. }
      rewrite Ec, !length_app. simpl. lia.
    + intros x Hx. rewrite Ec, !in_app_iff. simpl.
      assert (set s d0 ≠ x).
      { intros <-. unfold q in Hx. rewrite keyed_update in Hx; [discriminate|exact Hs|exact Hd0]. }
      assert (d0 ≠ x) by (intros <-; congruence).
      tauto.
  - split; [|split].
    + exists (set s {[ f := toBson k ]}). split; [|split; [|split]].
      * unfold findOne.
        replace (c ++ [set s {[ f := toBson k ]}])
          with (c ++ set s {[ f := toBson k ]} :: []) by reflexivity.
        apply find_first; [exact Hall | now apply keyed_base].
      * intros g v Hg. now rewrite set_lookup, Hg.
      * intros g old Hold. unfold findOne in Hold.
        rewrite (find_none _ _ Hall) in Hold. discriminate.
      * reflexivity.
    + assert (existsb q c = false) as ->.
      { apply not_true_is_false. intros Hex. apply existsb_exists in Hex as (x & Hin & Hq).
        rewrite List.Forall_forall in Hall. rewrite (Hall x Hin) in Hq. discriminate. }
      rewrite length_app. reflexivity.
    + intros x Hx. rewrite in_app_iff. simpl.
      assert (set s {[ f := toBson k ]} ≠ x).
      { intros <-. unfold q in Hx. rewrite keyed_base in Hx; [discriminate|exact Hs]. }
      tauto.
Qed.

End DetailsFacts.

(** X9.  After [saveMatchDetails(details)] a look-up under
    [details.matchId] finds a document that has every field of [details]
    and the new [updatedAt]; the fields that [details] does not mention
    are those of the document that was found before.  The collection grows
    by one document when there was none under that [matchId] and keeps its
    size otherwise; documents under other [matchId]s and the [matches]
    collection are not touched. *)
Theorem saveMatchDetails_then_find :
  ∀ now details st,
    let q := Mongo.fieldEq "matchId" (Mongo.getField "matchId" details) in
    let st' := fst (Database.saveMatchDetails now details st) in
    Database.matches st' = Database.matches st
    ∧ (∃ d, Mongo.findOne q (Database.match_details st') = Some d
            ∧ d !! "updatedAt" = Some (JDate (Some now))
            ∧ (∀ f v, details !! f = Some v → f ≠ "updatedAt" →
                      d !! f = Some (Mongo.toBson v))
            ∧ (∀ f old,
                 Mongo.findOne q (Database.match_details st) = Some old →
                 details !! f = None → f ≠ "updatedAt" → d !! f = old !! f))
    ∧ length (Database.match_details st')
      = (length (Database.match_details st)
         + (if existsb q (Database.match_details st) then 0 else 1))%nat
    ∧ (∀ x, q x = false →
            In x (Database.match_details st') ↔ In x (Database.match_details st)).
Proof.
  intros now details st q st'.
  split; [reflexivity|].
  assert (Mongo.getField "matchId" (<["updatedAt" := JDate (Some now)]> details)
          = Mongo.getField "matchId" details) as Ek.
  { unfold Mongo.getField. now rewrite lookup_insert_ne. }
  pose proof (own_key "matchId" (<["updatedAt" := JDate (Some now)]> details)) as Hk.
  rewrite Ek in Hk.
  pose proof (upsertOne_keyed "matchId" (Mongo.getField "matchId" details)
                (<["updatedAt" := JDate (Some now)]> details)
                (Database.match_details st) Hk) as H.
  cbv zeta in H. fold q in H.
  destruct H as ((d & Hfind & Hnew & Hold & _) & Hlen & Hothers).
  split; [|split; [exact Hlen | exact Hothers]].
  exists d. split; [exact Hfind|]. split; [|split].
  - rewrite (Hnew "updatedAt" (JDate (Some now))); [reflexivity|].
    apply lookup_insert_eq.
  - intros f v Hf Hne. apply Hnew. now rewrite lookup_insert_ne.
  - intros f old Hfo Hf Hne. apply Hold; [exact Hfo|].
    now rewrite lookup_insert_ne.
Qed.

Section CollectionFacts.

Import Mongo Database Collections.

Lemma find_filter_head {A} (q : A → bool) c :
  List.find q c = head (List.filter q c).
Proof.
  induction c as [|x c IH]; simpl; [reflexivity|].
  destruct (q x); [reflexivity | exact IH].
Qed.

Lemma head_unwind {A} (l : list A) : head (unwind l) = Some (head l).
Proof. destruct l; reflexivity. Qed.

Lemma head_flat_map {A B} (f : A → list B) l x y :
  head l = Some x → head (f x) = Some y → head (flat_map f l) = Some y.
Proof.
  destruct l as [|x' t]; [discriminate|]. intros [= ->]. simpl.
  destruct (f x); [discriminate | auto].
Qed.

Lemma head_map {A B} (f : A → B) l : head (map f l) = option_map f (head l).
Proof. destruct l; reflexivity. Qed.

Lemma lookupBy_key k m c :
  fieldEq "matchId" k m = true →
  lookupBy m c = List.filter (fieldEq "matchId" k) c.
Proof.
  intros Hm. apply fieldEq_true in Hm. unfold lookupBy.
  apply List.filter_ext. intros x. rewrite fieldEq_key, Hm. reflexivity.
Qed.

Lemma indexKey_delete f (d : gmap string jsval) :
  f ≠ "matchId" → indexKey (delete f d) = indexKey d.
Proof. intros H. unfold indexKey. now rewrite lookup_delete_ne. Qed.

Lemma getFullMatchData_found id db m :
  findOne (fieldEq "matchId" id) (matches (core db)) = Some m →
  getFullMatchData id db
  = Some {| fm_match := delete "h2h" (delete "details" m);
            fm_details := findOne (fieldEq "matchId" id) (match_details (core db));
            fm_h2h := findOne (fieldEq "matchId" id) (match_h2h db) |}.
Proof.
  intros Hm. unfold findOne in *. rewrite find_filter_head in Hm.
  unfold getFullMatchData, find.
  destruct (List.filter (fieldEq "matchId" id) (matches (core db)))
    as [|m' rest] eqn:E; [discriminate|].
  injection Hm as ->.
  assert (fieldEq "matchId" id m = true) as Hq.
  { assert (In m (List.filter (fieldEq "matchId" id) (matches (core db)))) as H
      by (rewrite E; now left).
    now apply List.filter_In in H. }
  cbn [map]. cbn [fm_match fm_details fm_h2h].
  rewrite !(find_filter_head (fieldEq "matchId" id)).
  rewrite <- (lookupBy_key id m) by exact Hq.
  rewrite <- (lookupBy_key id (delete "details" m))
    by (rewrite fieldEq_key in *; now rewrite indexKey_delete).
  eapply head_flat_map.
  - eapply head_flat_map; [reflexivity|].
    cbn [fm_match fm_details fm_h2h].
    rewrite head_map, head_unwind. reflexivity.
  - cbn [fm_match fm_details fm_h2h].
    rewrite head_map, head_unwind. reflexivity.
Qed.

End CollectionFacts.

(** X10.  [getFullMatchData(matchId)] returns null exactly when no match
    has the [matchId]; otherwise it returns the first such match, without
    fields [details] and [h2h] of its own, joined with the first details
    document and the first head-to-head document under the same [matchId]
    (none where there is none).  After [saveMatchDetails] and [saveMatchH2H]
    for the [matchId] of an existing match, it returns that match with
    documents that carry the saved fields. *)
Theorem getFullMatchData_joins :
  (∀ id db,
     Mongo.findOne (Mongo.fieldEq "matchId" id)
       (Database.matches (Collections.core db)) = None →
     Collections.getFullMatchData id db = None)
  ∧ (∀ id db m,
       Mongo.findOne (Mongo.fieldEq "matchId" id)
         (Database.matches (Collections.core db)) = Some m →
       Collections.getFullMatchData id db
       = Some {| Collections.fm_match := delete "h2h" (delete "details" m);
                 Collections.fm_details :=
                   Mongo.findOne (Mongo.fieldEq "matchId" id)
                     (Database.match_details (Collections.core db));
                 Collections.fm_h2h :=
                   Mongo.findOne (Mongo.fieldEq "matchId" id)
                     (Collections.match_h2h db) |})
  ∧ (∀ now1 now2 details h2hData id db m,
       Mongo.findOne (Mongo.fieldEq "matchId" id)
         (Database.matches (Collections.core db)) = Some m →
       Mongo.getField "matchId" details = id →
       Mongo.getField "matchId" h2hData = id →
       let db1 :=
         Collections.withCore
           (fst (Database.saveMatchDetails now1 details (Collections.core db)))
           db in
       let db2 := fst (Collections.saveMatchH2H now2 h2hData db1) in
       ∃ j d h,
         Collections.getFullMatchData id db2 = Some j
         ∧ Collections.fm_match j = delete "h2h" (delete "details" m)
         ∧ Collections.fm_details j = Some d
         ∧ Collections.fm_h2h j = Some h
         ∧ (∀ f v, details !! f = Some v → f ≠ "updatedAt" →
                   d !! f = Some (Mongo.toBson v))
         ∧ (∀ f v, h2hData !! f = Some v → f ≠ "updatedAt" →
                   h !! f = Some (Mongo.toBson v))).
Proof.
  split; [|split].
  - intros id db Hnone. unfold Mongo.findOne in Hnone.
    rewrite find_filter_head in Hnone.
    unfold Collections.getFullMatchData, Mongo.find.
    destruct (List.filter _ _); [reflexivity | discriminate].
  - exact getFullMatchData_found.
  - intros now1 now2 details h2hData id db m Hm Hd Hh db1 db2.
    assert (∀ now (s : gmap string jsval) c,
              Mongo.getField "matchId" s = id →
              ∃ x, Mongo.findOne (Mongo.fieldEq "matchId" id)
                     (Mongo.upsertOne "matchId" id
                        (Mongo.set (<["updatedAt" := JDate (Some now)]> s)) c)
                   = Some x
                   ∧ ∀ f v, s !! f = Some v → f ≠ "updatedAt" →
                            x !! f = Some (Mongo.toBson v)) as Hup.
    { intros now s c Hs.
      pose proof (own_key "matchId" (<["updatedAt" := JDate (Some now)]> s)) as Hk.
      assert (Mongo.getField "matchId" (<["updatedAt" := JDate (Some now)]> s) = id) as Ek.
      { rewrite <- Hs. unfold Mongo.getField. now rewrite lookup_insert_ne. }
      rewrite Ek in Hk.
      destruct (upsertOne_keyed "matchId" id _ c Hk) as ((x & Hx & Hnew & _) & _).
      exists x. split; [exact Hx|].
      intros f v Hf Hne. apply Hnew. now rewrite lookup_insert_ne. }
    destruct (Hup now1 details (Database.match_details (Collections.core db)) Hd)
      as (d & Hfd & Hdf).
    destruct (Hup now2 h2hData (Collections.match_h2h db) Hh) as (h & Hfh & Hhf).
    exists {| Collections.fm_match := delete "h2h" (delete "details" m);
              Collections.fm_details := Some d;
              Collections.fm_h2h := Some h |}, d, h.
    split; [|repeat split; assumption].
    rewrite (getFullMatchData_found id db2 m).
    + unfold db2, db1, Collections.saveMatchH2H, Database.saveMatchDetails.
      cbn [fst Collections.core Collections.match_h2h Collections.withH2H
           Collections.withCore Database.match_details Database.withDetails].
      rewrite Hd, Hh, Hfd, Hfh. reflexivity.
    + exact Hm.
Qed.

(** X11.  [saveCheckpoint(data)] followed by [getCheckpoint()] returns a
    document with [_id] "scraper-state", the new [updatedAt] and every
    field of [data]; a field saved earlier that [data] does not mention is
    still there; and the collection grows by one document only when it
    held no checkpoint.  A [data] that carries another [_id] is refused by
    the store and nothing is written. *)
Theorem checkpoint_round_trip :
  (∀ now data db,
     (data !! "_id" = None
      ∨ ∃ v, data !! "_id" = Some v ∧ Mongo.toBson v = Collections.checkpointId) →
     ∃ db' d,
       Collections.saveCheckpoint now data db = (db', Ok true)
       ∧ Collections.core db' = Collections.core db
       ∧ Collections.match_h2h db' = Collections.match_h2h db
       ∧ Collections.getCheckpoint db' = Some d
       ∧ d !! "_id" = Some Collections.checkpointId
       ∧ d !! "updatedAt" = Some (JDate (Some now))
       ∧ (∀ f v, data !! f = Some v → f ≠ "updatedAt" →
                 d !! f = Some (Mongo.toBson v))
       ∧ (∀ f old, Collections.getCheckpoint db = Some old →
                   data !! f = None → f ≠ "updatedAt" → d !! f = old !! f)
       ∧ length (Collections.checkpoints db')
         = (length (Collections.checkpoints db)
            + (if Collections.getCheckpoint db is Some _ then 0 else 1))%nat)
  ∧ (∀ now data db v,
       data !! "_id" = Some v → Mongo.toBson v ≠ Collections.checkpointId →
       Collections.saveCheckpoint now data db
       = (db, Throw (StoreError Collections.immutableField))).
Proof.
  split.
  - intros now data db Hid.
    set (s := <["updatedAt" := JDate (Some now)]> data).
    assert (s !! "_id" = data !! "_id") as Es
      by (unfold s; now rewrite lookup_insert_ne).
    assert (s !! "_id" = None
            ∨ ∃ v, s !! "_id" = Some v
                   ∧ Mongo.toBson v = Mongo.toBson Collections.checkpointId) as Hk.
    { rewrite Es. exact Hid. }
    destruct (upsertOne_keyed "_id" Collections.checkpointId s
                (Collections.checkpoints db) Hk)
      as ((d & Hd & Hnew & Hold & _) & Hlen & _).
    exists (Collections.withCheckpoints
              (Mongo.upsertOne "_id" Collections.checkpointId (Mongo.set s)
                 (Collections.checkpoints db)) db), d.
    split.
    { unfold Collections.saveCheckpoint. fold s.
      destruct Hid as [Hn|(v & Hv & Hb)]; rewrite Es.
      - rewrite Hn. reflexivity.
      - rewrite Hv, bool_decide_true by exact Hb. reflexivity. }
    split; [reflexivity|]. split; [reflexivity|].
    split; [exact Hd|].
    split.
    { unfold Mongo.findOne in Hd. apply List.find_some in Hd as [_ Hq].
      unfold Mongo.fieldEq in Hq. destruct (d !! "_id") as [w|].
      - apply bool_decide_eq_true in Hq. now rewrite Hq.
      - apply bool_decide_eq_true in Hq. discriminate. }
    split.
    { rewrite (Hnew "updatedAt" (JDate (Some now))); [reflexivity|].
      unfold s. apply lookup_insert_eq. }
    split.
    { intros f v Hf Hne. apply Hnew. unfold s. now rewrite lookup_insert_ne. }
    split.
    { intros f old Ho Hf Hne. apply Hold; [exact Ho|].
      unfold s. now rewrite lookup_insert_ne. }
    cbn [Collections.checkpoints Collections.withCheckpoints].
    rewrite Hlen. f_equal. unfold Collections.getCheckpoint, Mongo.findOne.
    destruct (List.find _ _) as [x|] eqn:Ef.
    + apply List.find_some in Ef as [Hin Hq].
      assert (existsb (Mongo.fieldEq "_id" Collections.checkpointId)
                (Collections.checkpoints db) = true) as ->; [|reflexivity].
      apply existsb_exists. eauto.
    + assert (existsb (Mongo.fieldEq "_id" Collections.checkpointId)
                (Collections.checkpoints db) = false) as ->; [|reflexivity].
      apply not_true_is_false. intros Hex.
      apply existsb_exists in Hex as (x & Hin & Hq).
      now rewrite (List.find_none _ _ Ef x Hin) in Hq.
  - intros now data db v Hv Hne. unfold Collections.saveCheckpoint.
    rewrite lookup_insert_ne by discriminate. rewrite Hv.
    now rewrite bool_decide_false by exact Hne.
Qed.

Section DateFacts.

Import Utils Mongo Database Regex Dates InternalIdSpec DateSpec.

Lemma reSpace_not_digit a : reSpace a = true → reDigit a = false.
Proof.
  unfold reSpace, reDigit. generalize (nat_of_ascii a). intros n H.
  apply orb_true_iff in H as [H|H]; [apply orb_true_iff in H as [H|H]|].
  - apply andb_true_iff in H as [_ H]. apply Nat.leb_le in H.
    apply andb_false_iff. left. apply Nat.leb_gt. lia.
  - apply Nat.eqb_eq in H. subst. reflexivity.
  - apply Nat.eqb_eq in H. subst. reflexivity.
Qed.

Lemma digit_not_lit a c :
  reDigit a = true → reDigit c = false → Ascii.eqb a c = false.
Proof.
  intros Ha Hc. destruct (Ascii.eqb a c) eqn:E; [|reflexivity].
  apply Ascii.eqb_eq in E. subst. congruence.
Qed.

Lemma lit_hit c r : lit c (String c r) = [(String c "", r)].
Proof. unfold lit. now rewrite Ascii.eqb_refl. Qed.

Lemma oneOrTwo_cases d :
  oneOrTwoDigits d = true →
  (∃ a, d = String a "" ∧ reDigit a = true)
  ∨ (∃ a b, d = String a (String b "") ∧ reDigit a = true ∧ reDigit b = true).
Proof.
  unfold oneOrTwoDigits. intros H. apply andb_true_iff in H as [Hl Hd].
  destruct d as [|a [|b [|c d]]]; try discriminate.
  - left. exists a. cbn in Hd. rewrite andb_true_r in Hd. auto.
  - right. exists a, b. cbn in Hd. rewrite andb_true_r in Hd.
    apply andb_true_iff in Hd as [? ?]. auto.
Qed.

(** [\d{1,2}] followed by a literal that is no digit. *)
Lemma digits12_lit {B} (K : string * string → string * string → list B) d c rest :
  oneOrTwoDigits d = true → reDigit c = false →
  (w1 ← digits12 (d +:+ String c rest); w2 ← lit c w1.2; K w1 w2)
  = K (d, String c rest) (String c "", rest).
Proof.
  intros Hd Hc. destruct (oneOrTwo_cases d Hd) as [(a & -> & Ha)|(a & b & -> & Ha & Hb)].
  - rewrite append_cons, append_nil. cbn [digits12]. rewrite Ha, Hc.
    cbn [mbind list_bind]. cbn [snd]. rewrite lit_hit.
    cbn [mbind list_bind]. now rewrite !app_nil_r.
  - rewrite !append_cons, append_nil. cbn [digits12]. rewrite Ha, Hb.
    cbn [mbind list_bind]. cbn [snd]. rewrite lit_hit.
    cbn [lit]. rewrite (digit_not_lit b c Hb Hc).
    cbn [mbind list_bind]. now rewrite !app_nil_r.
Qed.

Lemma digitsN_exact n : ∀ Y r,
  nDigits n Y = true → digitsN n (Y +:+ r) = [(Y, r)].
Proof.
  unfold nDigits. induction n as [|n IH]; intros Y r H;
    apply andb_true_iff in H as [Hl Hd].
  - destruct Y; [|discriminate]. now rewrite append_nil.
  - destruct Y as [|a Y]; [discriminate|].
    cbn in Hd. apply andb_true_iff in Hd as [Ha Hd].
    rewrite append_cons. cbn [digitsN]. rewrite Ha.
    rewrite IH; [reflexivity|]. cbn in Hl. now rewrite Hl, Hd.
Qed.

Lemma bind_map {A B C} (g : A → B) (K : B → list C) (l : list A) :
  (w ← map g l; K w) = (w ← l; K (g w)).
Proof.
  induction l as [|x l IH]; [reflexivity|].
  cbn [map mbind list_bind] in *. now rewrite IH.
Qed.

Lemma bind_app {A B} (K : A → list B) (l1 l2 : list A) :
  (w ← l1 ++ l2; K w) = (w ← l1; K w) ++ (w ← l2; K w).
Proof.
  induction l1 as [|x l IH]; [reflexivity|].
  cbn [app mbind list_bind] in *. now rewrite IH, app_assoc.
Qed.

(** [\s+] followed by something that cannot start with white space. *)
Lemma spaces_then {B} ws : ∀ (K : string * string → list B) r,
  whiteSpace ws = true → many1 reSpace r = [] →
  (∀ x a r', reSpace a = true → K (x, String a r') = []) →
  (w ← many1 reSpace (ws +:+ r); K w) = K (ws, r).
Proof.
  unfold whiteSpace. induction ws as [|a ws IH]; intros K r H Hr HK;
    [discriminate|].
  apply andb_true_iff in H as [_ H]. cbn in H.
  apply andb_true_iff in H as [Ha Hws].
  rewrite append_cons. cbn [many1]. rewrite Ha.
  rewrite bind_app, bind_map. destruct ws as [|b ws].
  - rewrite append_nil, Hr. cbn [mbind list_bind fst snd]. now rewrite app_nil_r.
  - rewrite (IH (fun w => K (String a w.1, w.2)) r).
    + cbn [fst snd]. cbn [mbind list_bind].
      rewrite append_cons. cbn in Hws. apply andb_true_iff in Hws as [Hb _].
      rewrite (HK _ b _ Hb). now rewrite !app_nil_r.
    + cbn. cbn in Hws. exact Hws.
    + exact Hr.
    + intros x c r' Hc. apply HK. exact Hc.
Qed.

Lemma search_here {M} (at_ : string → list M) s m l :
  at_ s = m :: l → search at_ s = Some m.
Proof. intros H. destruct s; cbn [search]; now rewrite H. Qed.

Lemma digits12_space a r : reSpace a = true → digits12 (String a r) = [].
Proof. intros H. cbn [digits12]. now rewrite (reSpace_not_digit a H). Qed.

Lemma spaces_digit h r :
  oneOrTwoDigits h = true → many1 reSpace (h +:+ r) = [].
Proof.
  intros H. destruct (oneOrTwo_cases h H) as [(a & -> & Ha)|(a & b & -> & Ha & _)];
    rewrite append_cons; cbn [many1];
    destruct (reSpace a) eqn:E; try reflexivity;
    apply reSpace_not_digit in E; congruence.
Qed.

Lemma dateAt_pattern d M Y ws h m rest :
  oneOrTwoDigits d = true → oneOrTwoDigits M = true → nDigits 4 Y = true →
  whiteSpace ws = true → oneOrTwoDigits h = true → nDigits 2 m = true →
  dateAt (d +:+ "." +:+ M +:+ "." +:+ Y +:+ ws +:+ h +:+ ":" +:+ m +:+ rest)
  = [(d, M, Y, h +:+ ":" +:+ m)].
Proof.
  intros Hd HM HY Hws Hh Hm. unfold dateAt.
  change ("." +:+ M +:+ "." +:+ Y +:+ ws +:+ h +:+ ":" +:+ m +:+ rest)
    with (String "." (M +:+ "." +:+ Y +:+ ws +:+ h +:+ ":" +:+ m +:+ rest)).
  rewrite (digits12_lit _ d "." _ Hd eq_refl). cbn [fst snd].
  change ("." +:+ Y +:+ ws +:+ h +:+ ":" +:+ m +:+ rest)
    with (String "." (Y +:+ ws +:+ h +:+ ":" +:+ m +:+ rest)).
  rewrite (digits12_lit _ M "." _ HM eq_refl). cbn [fst snd].
  rewrite (digitsN_exact 4 Y _ HY). cbn [mbind list_bind fst snd].
  rewrite app_nil_r.
  rewrite (spaces_then ws _ (h +:+ ":" +:+ m +:+ rest) Hws).
  - cbn [fst snd].
    change (":" +:+ m +:+ rest) with (String ":" (m +:+ rest)).
    rewrite (digits12_lit _ h ":" _ Hh eq_refl). cbn [fst snd].
    rewrite (digitsN_exact 2 m _ Hm). cbn [mbind list_bind fst snd].
    reflexivity.
  - apply spaces_digit. exact Hh.
  - intros x a r' Ha. cbn [snd]. rewrite (digits12_space a r' Ha). reflexivity.
Qed.

End DateFacts.

(** X12.  For a text that starts with day, month (one or two digits
    each), a four-digit year, white space and a time with a one- or
    two-digit hour, as in "25.04.2025 15:00", [parseDate] returns the
    [Date] built from "YYYY-MM-DDTh:mm:00": day and month are padded to two
    digits, the hour is not, and the [Date] is returned without a check, so
    it is returned also when the engine cannot read that text. *)
Theorem parseDate_pattern :
  ∀ dateParse d M Y ws h m rest,
    DateSpec.oneOrTwoDigits d = true → DateSpec.oneOrTwoDigits M = true →
    DateSpec.nDigits 4 Y = true → DateSpec.whiteSpace ws = true →
    DateSpec.oneOrTwoDigits h = true → DateSpec.nDigits 2 m = true →
    Dates.parseDate dateParse
      (JPrim (PStr (d +:+ "." +:+ M +:+ "." +:+ Y +:+ ws +:+ h +:+ ":" +:+ m
                    +:+ rest)))
    = Ok (JDate (dateParse
                   (Y +:+ "-" +:+ padStart 2 "0" M +:+ "-" +:+ padStart 2 "0" d
                    +:+ "T" +:+ h +:+ ":" +:+ m +:+ ":00"))).
Proof.
  intros dateParse d M Y ws h m rest Hd HM HY Hws Hh Hm.
  unfold Dates.parseDate.
  unfold Dates.searchDate.
  rewrite (search_here _ _ _ _ (dateAt_pattern d M Y ws h m rest Hd HM HY Hws Hh Hm)).
  assert (truthy (JPrim (PStr (d +:+ "." +:+ M +:+ "." +:+ Y +:+ ws +:+ h +:+ ":"
                               +:+ m +:+ rest))) = true) as ->.
  { destruct (oneOrTwo_cases d Hd) as [(a & -> & _)|(a & b & -> & _)]; reflexivity. }
  cbn [negb]. unfold Dates.isoText. now rewrite !append_assoc.
Qed.

(** The theorem at a concrete input. *)
Lemma parseDate_pattern_witness :
  Dates.parseDate
    (fun text => if String.eqb text "2025-04-05T9:05:00" then Some 0 else None)
    (JPrim (PStr "5.4.2025 9:05 (local)"))
  = Ok (JDate (Some 0)).
Proof.
  exact (parseDate_pattern
           (fun text => if String.eqb text "2025-04-05T9:05:00" then Some 0 else None)
           "5" "4" "2025" " " "9" "05" " (local)"
           eq_refl eq_refl eq_refl eq_refl eq_refl eq_refl).
Defined.

Section DateUpdateFacts.

Import Mongo Database Dates.

Lemma updateOne_keyed f k (s : gmap string jsval) c :
  (s !! f = None ∨ ∃ v, s !! f = Some v ∧ toBson v = toBson k) →
  let q := fieldEq f k in
  let c' := fst (updateOne q (set s) c) in
  length c' = length c
  ∧ (findOne q c = None → c' = c)
  ∧ (∀ d, findOne q c = Some d →
          findOne q c' = Some (set s d))
  ∧ (∀ x, q x = false → In x c' ↔ In x c).
Proof.
  intros Hs q c'. unfold c'.
  destruct (updateOne_cases q (set s) c)
    as [(pre & d0 & post & Ec & Hpre & Hd0 & E)|[Hall E]]; rewrite E; cbn [fst].
  - split; [rewrite Ec, !length_app; reflexivity|].
    split.
    { unfold findOne. rewrite Ec, (find_first _ _ _ _ Hpre Hd0). discriminate. }
    split.
    { intros d. unfold findOne. rewrite Ec, (find_first _ _ _ _ Hpre Hd0).
      intros [= <-]. apply find_first; [exact Hpre|]. now apply keyed_update. }
    intros x Hx. rewrite Ec, !in_app_iff. simpl.
    assert (set s d0 ≠ x).
    { intros <-. unfold q in Hx. rewrite keyed_update in Hx; [discriminate|exact Hs|exact Hd0]. }
    assert (d0 ≠ x) by (intros <-; congruence).
    tauto.
  - split; [reflexivity|]. split; [reflexivity|]. split; [|tauto].
    intros d. unfold findOne. rewrite (find_none _ _ Hall). discriminate.
Qed.

Lemma updateFields_lookup now1 now2 date internalId f :
  updateFields now1 now2 date internalId !! f
  = if decide (f = "internalId") then
      (if truthy internalId then Some internalId else None)
    else if decide (f = "date") then Some date
    else if decide (f = "dateFixed") then Some (JPrim (PBool true))
    else if decide (f = "dateFixedAt") then Some (JDate (Some now1))
    else if decide (f = "updatedAt") then Some (JDate (Some now2))
    else None.
Proof.
  unfold updateFields.
  destruct (decide (f = "internalId")) as [->|H0].
  { destruct (truthy internalId); [apply lookup_insert_eq | reflexivity]. }
  assert (({[ "date" := date; "dateFixed" := JPrim (PBool true);
              "dateFixedAt" := JDate (Some now1);
              "updatedAt" := JDate (Some now2) ]} : gmap string jsval) !! f
          = if decide (f = "date") then Some date
            else if decide (f = "dateFixed") then Some (JPrim (PBool true))
            else if decide (f = "dateFixedAt") then Some (JDate (Some now1))
            else if decide (f = "updatedAt") then Some (JDate (Some now2))
            else None) as E.
  { do 3 (destruct (decide (f = _)) as [->|?];
            [reflexivity | rewrite lookup_insert_ne by congruence]).
    destruct (decide (f = "updatedAt")) as [->|?]; [reflexivity|].
    now rewrite lookup_singleton_ne by congruence. }
  destruct (truthy internalId); [rewrite lookup_insert_ne by congruence|]; exact E.
Qed.

End DateUpdateFacts.

(** X13.  [updateMatchDate] throws before it touches the store when
    [date] is no valid [Date] (a RangeError for an invalid one).  With a
    valid date it updates the first match with the [matchId] and no other
    record: [date], [dateFixed], [dateFixedAt] and [updatedAt] are set,
    [internalId] is replaced only when the argument is truthy, every other
    field stays, and [match_details] is not touched.  Without such a match
    the store is unchanged and the result is false. *)
Theorem updateMatchDate_effect :
  (∀ now1 now2 matchId date internalId st,
     (∀ t, date ≠ JDate (Some t)) →
     ∃ e, Dates.updateMatchDate now1 now2 matchId date internalId st
          = (st, inl e))
  ∧ (∀ now1 now2 matchId internalId st,
       Dates.updateMatchDate now1 now2 matchId (JDate None) internalId st
       = (st, inl (Dates.RangeError "Invalid time value")))
  ∧ (∀ now1 now2 matchId t internalId st,
       let q := Mongo.fieldEq "matchId" matchId in
       let res := Dates.updateMatchDate now1 now2 matchId (JDate (Some t))
                    internalId st in
       snd res = inr (bool_decide
                        (Database.matches (fst res) ≠ Database.matches st))
       ∧ Database.match_details (fst res) = Database.match_details st
       ∧ length (Database.matches (fst res)) = length (Database.matches st)
       ∧ (Mongo.findOne q (Database.matches st) = None →
          fst res = st ∧ snd res = inr false)
       ∧ (∀ x, q x = false →
               In x (Database.matches (fst res)) ↔ In x (Database.matches st))
       ∧ (∀ d, Mongo.findOne q (Database.matches st) = Some d →
               ∃ d', Mongo.findOne q (Database.matches (fst res)) = Some d'
                 ∧ d' !! "date" = Some (JDate (Some t))
                 ∧ d' !! "dateFixed" = Some (JPrim (PBool true))
                 ∧ d' !! "dateFixedAt" = Some (JDate (Some now1))
                 ∧ d' !! "updatedAt" = Some (JDate (Some now2))
                 ∧ d' !! "internalId"
                   = (if truthy internalId then Some (Mongo.toBson internalId)
                      else d !! "internalId")
                 ∧ ∀ f, f ∉ ["date"; "dateFixed"; "dateFixedAt"; "updatedAt";
                             "internalId"] → d' !! f = d !! f)).
Proof.
  split; [|split].
  - intros now1 now2 matchId date internalId st Hd.
    destruct date as [[]|[t|]| |]; cbn [Dates.updateMatchDate]; eauto.
    destruct (Hd t eq_refl).
  - reflexivity.
  - intros now1 now2 matchId t internalId st q res. subst q.
    set (q := Mongo.fieldEq "matchId" matchId) in *.
    set (s := Dates.updateFields now1 now2 (JDate (Some t)) internalId).
    assert (s !! "matchId" = None) as Hs
      by (unfold s; rewrite updateFields_lookup; destruct (truthy internalId); reflexivity).
    destruct (updateOne_keyed "matchId" matchId s (Database.matches st) (or_introl Hs))
      as (Hlen & Hnone & Hsome & Hothers).
    fold q in Hlen, Hnone, Hsome, Hothers.
    assert (res = (Database.withMatches
                     (fst (Mongo.updateOne q (Mongo.set s) (Database.matches st))) st,
                   inr (bool_decide
                          (fst (Mongo.updateOne q (Mongo.set s) (Database.matches st))
                           ≠ Database.matches st)))) as Eres.
    { unfold res, Dates.updateMatchDate. fold s. fold q.
      destruct (Mongo.updateOne q (Mongo.set s) (Database.matches st)). reflexivity. }
    rewrite Eres. cbn [fst snd Database.matches Database.match_details Database.withMatches].
    split; [reflexivity|]. split; [reflexivity|]. split; [exact Hlen|].
    split.
    { intros Hn. rewrite (Hnone Hn). rewrite withMatches_same.
      split; [reflexivity|]. now rewrite bool_decide_false by (intros H; now apply H). }
    split; [exact Hothers|].
    intros d Hd. exists (Mongo.set s d). split; [now apply Hsome|].
    unfold s. rewrite !set_lookup, !updateFields_lookup.
    repeat (split; [reflexivity|]).
    split.
    { rewrite decide_True by reflexivity. destruct (truthy internalId); reflexivity. }
    intros f Hf. rewrite set_lookup, updateFields_lookup.
    rewrite !not_elem_of_cons in Hf. destruct Hf as (? & ? & ? & ? & ? & _).
    rewrite !decide_False by assumption. reflexivity.
Qed.

Section WorkerDedupeFacts.

Import Summary SummarySpec.

Lemma sameTriple_triple event e :
  sameTriple event e = bool_decide (triple e = triple event).
Proof.
  unfold sameTriple, strictEq, triple.
  destruct (decide (minute e = minute event)) as [E1|E1];
    destruct (decide (type e = type event)) as [E2|E2];
    destruct (decide (player e = player event)) as [E3|E3];
    rewrite ?(bool_decide_true _ E1), ?(bool_decide_false _ E1),
            ?(bool_decide_true _ E2), ?(bool_decide_false _ E2),
            ?(bool_decide_true _ E3), ?(bool_decide_false _ E3);
    cbn [andb]; symmetry;
    first [ apply bool_decide_eq_true; congruence
          | apply bool_decide_eq_false; congruence ].
Qed.

Lemma findIndexFrom_miss {A} (q : A → bool) pre rest : ∀ k,
  existsb q pre = false →
  findIndexFrom q (pre ++ rest) k = findIndexFrom q rest (k + Z.of_nat (length pre)).
Proof.
  induction pre as [|x pre IH]; intros k H; cbn [app length findIndexFrom].
  - f_equal. lia.
  - cbn [existsb] in H. apply orb_false_iff in H as [Hx Hp].
    rewrite Hx, IH by exact Hp. f_equal. lia.
Qed.

Lemma findIndexFrom_hit {A} (q : A → bool) pre rest : ∀ k,
  existsb q pre = true →
  k ≤ findIndexFrom q (pre ++ rest) k < k + Z.of_nat (length pre).
Proof.
  induction pre as [|x pre IH]; intros k H; [discriminate|].
  cbn [app length findIndexFrom]. cbn [existsb] in H.
  destruct (q x); [lia|]. cbn [orb] in H. specialize (IH (k + 1) H). lia.
Qed.

Lemma existsb_triple e pre :
  existsb (sameTriple e) pre = bool_decide (triple e ∈ map triple pre).
Proof.
  induction pre as [|x pre IH]; cbn [existsb map].
  - symmetry. apply bool_decide_eq_false. apply not_elem_of_nil.
  - rewrite IH, sameTriple_triple.
    destruct (decide (triple x = triple e)) as [E|E].
    + rewrite (bool_decide_true _ E). cbn [orb]. symmetry.
      apply bool_decide_eq_true. rewrite E. apply list_elem_of_here.
    + rewrite (bool_decide_false _ E). cbn [orb].
      apply bool_decide_ext. rewrite elem_of_cons. intuition congruence.
Qed.

(** An event is kept when its triple does not occur before it. *)
Lemma keeps_first pre e post :
  (Z.of_nat (length pre) =? findIndex (sameTriple e) (pre ++ e :: post))
  = negb (bool_decide (triple e ∈ map triple pre)).
Proof.
  unfold findIndex. rewrite <- existsb_triple.
  destruct (existsb (sameTriple e) pre) eqn:E.
  - pose proof (findIndexFrom_hit (sameTriple e) pre (e :: post) 0 E).
    cbn [negb]. apply Z.eqb_neq. lia.
  - rewrite findIndexFrom_miss by exact E. cbn [findIndexFrom].
    rewrite sameTriple_triple, bool_decide_true by reflexivity.
    cbn [negb]. apply Z.eqb_eq. lia.
Qed.

Lemma firstOfEach_seen seen1 seen2 l :
  (∀ t, t ∈ seen1 ↔ t ∈ seen2) → firstOfEach seen1 l = firstOfEach seen2 l.
Proof.
  revert seen1 seen2. induction l as [|e l IH]; intros seen1 seen2 H; [reflexivity|].
  cbn [firstOfEach]. rewrite (bool_decide_ext _ _ (H (triple e))).
  destruct (bool_decide _); [now apply IH|]. f_equal. apply IH.
  intros t. rewrite !elem_of_cons, H. reflexivity.
Qed.

Lemma filterFrom_firstOfEach l : ∀ pre,
  filterFrom (fun event index self => index =? findIndex (sameTriple event) self)
    (pre ++ l) l (Z.of_nat (length pre))
  = firstOfEach (map triple pre) l.
Proof.
  induction l as [|e l IH]; intros pre; [reflexivity|].
  cbn [filterFrom firstOfEach]. rewrite keeps_first.
  assert (filterFrom
            (fun event index self => index =? findIndex (sameTriple event) self)
            (pre ++ e :: l) l (Z.of_nat (length pre) + 1)
          = firstOfEach (map triple (pre ++ [e])) l) as E.
  { rewrite <- IH. rewrite <- app_assoc. cbn [app]. f_equal.
    rewrite length_app. cbn [length]. lia. }
  rewrite E. clear E.
  assert (firstOfEach (map triple (pre ++ [e])) l
          = firstOfEach (triple e :: map triple pre) l) as E2.
  { apply firstOfEach_seen. intros t. rewrite map_app. cbn [map].
    rewrite elem_of_app, !elem_of_cons, elem_of_nil. tauto. }
  destruct (bool_decide (triple e ∈ map triple pre)) eqn:D; cbn [negb].
  - rewrite E2. apply firstOfEach_seen. intros t. rewrite elem_of_cons.
    apply bool_decide_eq_true in D. split; [|auto]. intros [->|H]; auto.
  - now rewrite E2.
Qed.

Lemma dedupeEvents_firstOfEach events :
  Summary.dedupeEvents events = firstOfEach [] events.
Proof. apply (filterFrom_firstOfEach events []). Qed.

Lemma firstOfEach_sublist l : ∀ seen, sublist (firstOfEach seen l) l.
Proof.
  induction l as [|e l IH]; intros seen; cbn [firstOfEach]; [constructor|].
  destruct (bool_decide _); [apply sublist_cons | apply sublist_skip]; apply IH.
Qed.

Lemma firstOfEach_fresh l : ∀ seen e,
  In e (firstOfEach seen l) → triple e ∉ seen.
Proof.
  induction l as [|x l IH]; intros seen e; cbn [firstOfEach]; [intros []|].
  destruct (bool_decide (triple x ∈ seen)) eqn:D.
  - apply IH.
  - intros [<-|H]; [now apply bool_decide_eq_false in D|].
    apply IH in H. rewrite not_elem_of_cons in H. tauto.
Qed.

Lemma firstOfEach_NoDup l : ∀ seen, List.NoDup (map triple (firstOfEach seen l)).
Proof.
  induction l as [|x l IH]; intros seen; cbn [firstOfEach]; [constructor|].
  destruct (bool_decide (triple x ∈ seen)); [apply IH|].
  cbn [map]. constructor; [|apply IH].
  intros H. apply in_map_iff in H as (e & He & Hin).
  apply firstOfEach_fresh in Hin. rewrite <- He in Hin.
  apply Hin. apply list_elem_of_here.
Qed.

Lemma firstOfEach_covers l : ∀ seen e,
  In e l → triple e ∈ seen ∨ In (triple e) (map triple (firstOfEach seen l)).
Proof.
  induction l as [|x l IH]; intros seen e; [intros []|].
  cbn [firstOfEach]. intros [<-|H].
  - destruct (bool_decide (triple x ∈ seen)) eqn:D.
    + left. now apply bool_decide_eq_true in D.
    + right. now left.
  - destruct (bool_decide (triple x ∈ seen)) eqn:D; [now apply IH|].
    destruct (IH (triple x :: seen) e H) as [Hs|Hs].
    + apply elem_of_cons in Hs as [->|Hs]; [right; now left | now left].
    + right. now right.
Qed.

Lemma firstOfEach_again l : ∀ seen,
  firstOfEach seen (firstOfEach seen l) = firstOfEach seen l.
Proof.
  induction l as [|x l IH]; intros seen; [reflexivity|].
  cbn [firstOfEach]. destruct (bool_decide (triple x ∈ seen)) eqn:D; [apply IH|].
  cbn [firstOfEach]. rewrite D. f_equal. apply IH.
Qed.

End WorkerDedupeFacts.

(** X14.  The [dedupeEvents] of scrape-match-summary.js returns, in
    order and unchanged, the events whose (minute, type, player) does not
    occur earlier in the list.  So the result is a sublist of the input,
    no two of its events share the three values, every input event has its
    three values represented, a second pass changes nothing, and the
    result is empty only for an empty input. *)
Theorem worker_dedupe_first_occurrences :
  ∀ events,
    Summary.dedupeEvents events = SummarySpec.firstOfEach [] events
    ∧ sublist (Summary.dedupeEvents events) events
    ∧ List.NoDup (map SummarySpec.triple (Summary.dedupeEvents events))
    ∧ (∀ e, In e events →
            In (SummarySpec.triple e)
              (map SummarySpec.triple (Summary.dedupeEvents events)))
    ∧ Summary.dedupeEvents (Summary.dedupeEvents events)
      = Summary.dedupeEvents events
    ∧ (Summary.dedupeEvents events = [] ↔ events = []).
Proof.
  intros events. rewrite !dedupeEvents_firstOfEach.
  split; [reflexivity|].
  split; [apply firstOfEach_sublist|].
  split; [apply firstOfEach_NoDup|].
  split.
  { intros e He. destruct (firstOfEach_covers events [] e He) as [H|H]; [|exact H].
    now apply not_elem_of_nil in H. }
  split; [apply firstOfEach_again|].
  split; [|now intros ->].
  destruct events as [|e l]; [reflexivity|]. cbn. discriminate.
Qed.

Section StripFacts.

Import Utils Summary.

Lemma filter_again {A} (p : A → bool) l :
  List.filter p (List.filter p l) = List.filter p l.
Proof.
  induction l as [|x l IH]; [reflexivity|]. cbn [List.filter].
  destruct (p x) eqn:E; [cbn [List.filter]; rewrite E; now f_equal | exact IH].
Qed.

End StripFacts.

(** X15.  The clean-up of an extracted event leaves no event of type
    "ownGoal": an own goal becomes a goal with [isOwnGoal] true, any other
    event keeps its type and flag.  Minute, player and assist are kept, the
    diagnostic properties and only these are dropped, and cleaning an
    event twice gives what cleaning it once gives. *)
Theorem stripEvent_clean :
  ∀ event,
    let clean := Summary.stripEvent event in
    type clean ≠ PStr "ownGoal"
    ∧ Summary.stripEvent clean = clean
    ∧ minute clean = minute event
    ∧ player clean = player event
    ∧ assist clean = assist event
    ∧ (type event = PStr "ownGoal" →
       type clean = PStr "goal" ∧ isOwnGoal clean = PBool true)
    ∧ (type event ≠ PStr "ownGoal" →
       type clean = type event ∧ isOwnGoal clean = isOwnGoal event)
    ∧ (∀ name v, In (name, v) (others clean)
                 ↔ In (name, v) (others event)
                   ∧ Summary.diagnostic name = false).
Proof.
  intros event clean. unfold clean, Summary.stripEvent, strictEq.
  destruct (decide (type event = PStr "ownGoal")) as [E|E].
  - rewrite (bool_decide_true _ E).
    cbn [type minute player assist isOwnGoal others Utils.setIsOwnGoal Summary.setType].
    rewrite filter_again.
    split; [discriminate|]. split; [reflexivity|].
    repeat (split; [reflexivity|]).
    split; [auto|]. split; [contradiction|].
    intros name v. rewrite List.filter_In, negb_true_iff. reflexivity.
  - rewrite (bool_decide_false _ E).
    cbn [type minute player assist isOwnGoal others].
    rewrite (bool_decide_false _ E). rewrite filter_again.
    split; [exact E|]. split; [reflexivity|].
    repeat (split; [reflexivity|]).
    split; [contradiction|]. split; [auto|].
    intros name v. rewrite List.filter_In, negb_true_iff. reflexivity.
Qed.

(** X17.  The summary reports its events as null exactly when the page
    gave none, and as the cleaned and deduplicated list otherwise; the
    details that the batch loops build from the summary always hold an
    array under [events], the empty one in the first case. *)
Theorem details_events_is_array :
  ∀ now matchId basicInfo teams dateInfo raw,
    let summary := {| Worker.basicInfo := basicInfo;
                      Worker.events := Summary.summaryEvents raw;
                      Worker.teams := teams;
                      Worker.dateInfo := dateInfo |} in
    (Summary.summaryEvents raw = JPrim PNull ↔ raw = [])
    ∧ (raw ≠ [] →
       Summary.summaryEvents raw
       = JEvents (Summary.dedupeEvents (map Summary.stripEvent raw)))
    ∧ Worker.detailsOf now matchId summary !! "events"
      = Some (JEvents (Summary.dedupeEvents (map Summary.stripEvent raw))).
Proof.
  intros now matchId basicInfo teams dateInfo raw summary.
  assert (Summary.dedupeEvents (map Summary.stripEvent raw) = [] ↔ raw = []) as Hnil.
  { rewrite dedupeEvents_firstOfEach. destruct raw as [|e l]; [tauto|].
    cbn. split; discriminate. }
  assert (Summary.summaryEvents raw
          = if decide (raw = []) then JPrim PNull
            else JEvents (Summary.dedupeEvents (map Summary.stripEvent raw))) as Es.
  { unfold Summary.summaryEvents.
    destruct (Summary.dedupeEvents (map Summary.stripEvent raw)) as [|x l] eqn:E.
    - rewrite decide_True by (now apply Hnil). reflexivity.
    - rewrite decide_False; [reflexivity|]. intros H. apply Hnil in H. discriminate. }
  split; [|split].
  - rewrite Es. destruct (decide (raw = [])); [tauto|]. split; [discriminate|tauto].
  - intros H. rewrite Es. now rewrite decide_False.
  - unfold Worker.detailsOf, Worker.createMatchDetails. rewrite lookup_union.
    cbn [Worker.events summary].
    rewrite !lookup_insert_ne by discriminate. rewrite lookup_insert_eq.
    rewrite Es. destruct (decide (raw = [])) as [->|H]; reflexivity.
Qed.

Section BatchScriptFacts.

Import Mongo Worker BatchScript.

Lemma loop_spec scrape clock elapsed batch : ∀ i run,
  let run' := loop scrape clock elapsed i batch run in
  ∃ entries,
    results run' = results run ++ entries
    ∧ map matchId entries = map rowMatchId batch
    ∧ map scrapeId entries = map rowScrapeId batch
    ∧ Forall (fun r => (successEntry r ∨ failureEntry r)
                       ∧ oneOfDetailsOrError r = true) entries
    ∧ ok (stats run')
      = ok (stats run)
        + Z.of_nat (length (List.filter (fun r => bool_decide (details r ≠ None)) entries))
    ∧ fail (stats run')
      = fail (stats run)
        + Z.of_nat (length (List.filter (fun r => bool_decide (error r ≠ None)) entries))
    ∧ total (stats run') = total (stats run) + Z.of_nat (length batch)
    ∧ length entries = length batch
    ∧ length (times run') = (length (times run) + length batch)%nat.
Proof.
  induction batch as [|row rest IH]; intros i run.
  - exists []. cbn. rewrite app_nil_r, !Z.add_0_r, Nat.add_0_r.
    repeat split; constructor.
  - cbn [loop]. cbv zeta.
    destruct (IH (S i) (turn (scrape i) (clock i) (elapsed i) run row))
      as (entries & Hres & Hm & Hs & Hall & Hok & Hfail & Htot & Hlen & Htimes).
    cbv zeta in *.
    rewrite Hres, Hok, Hfail, Htot, Htimes. clear Hres Hok Hfail Htot Htimes.
    unfold turn. destruct (scrape i (rowMatchId row)) as [summary|message];
      cbn [results stats times ok fail total].
    + eexists (_ :: entries). rewrite <- app_assoc. split; [reflexivity|].
      cbn [map matchId scrapeId]. rewrite Hm, Hs.
      split; [reflexivity|]. split; [reflexivity|].
      split.
      { constructor; [|exact Hall]. split; [left|reflexivity].
        repeat split; discriminate. }
      cbn [List.filter details error].
      rewrite bool_decide_true by discriminate.
      rewrite bool_decide_false by (intros H; now apply H).
      rewrite length_app. cbn [length]. rewrite Hlen. repeat split; lia.
    + eexists (_ :: entries). rewrite <- app_assoc. split; [reflexivity|].
      cbn [map matchId scrapeId]. rewrite Hm, Hs.
      split; [reflexivity|]. split; [reflexivity|].
      split.
      { constructor; [|exact Hall]. split; [right|reflexivity].
        repeat split; discriminate. }
      cbn [List.filter details error].
      rewrite bool_decide_false by (intros H; now apply H).
      rewrite bool_decide_true by discriminate.
      rewrite length_app. cbn [length]. rewrite Hlen. repeat split; lia.
Qed.

End BatchScriptFacts.

(** X18.  scrape-batch.js as a whole.  When [output.json] can be written
    it holds one entry per row of the batch, in order, with the row's
    [matchId] and [scrapeId] and exactly one of [details] and [error];
    [stats.ok] and [stats.fail] count the entries of each kind and
    [stats.total] the rows.  For an empty batch the script writes the empty
    array and then dies of the [reduce] of an empty array; for any other
    batch it goes on to report an average.  When the file cannot be
    written, nothing is written. *)
Theorem scrape_batch_script :
  ∀ scrape clock elapsed batch,
    let done := BatchScript.main true scrape clock elapsed batch in
    let succeeded := fun r => bool_decide (Worker.details r ≠ None) in
    let failed := fun r => bool_decide (Worker.error r ≠ None) in
    (∃ entries,
       BatchScript.output done = Some entries
       ∧ map Worker.matchId entries = map Worker.rowMatchId batch
       ∧ map Worker.scrapeId entries = map Worker.rowScrapeId batch
       ∧ Forall (fun r => (Worker.successEntry r ∨ Worker.failureEntry r)
                          ∧ Worker.oneOfDetailsOrError r = true) entries
       ∧ BatchScript.ok (BatchScript.counters done)
         = Z.of_nat (length (List.filter succeeded entries))
       ∧ BatchScript.fail (BatchScript.counters done)
         = Z.of_nat (length (List.filter failed entries)))
    ∧ BatchScript.total (BatchScript.counters done) = Z.of_nat (length batch)
    ∧ (batch = [] →
       BatchScript.output done = Some []
       ∧ BatchScript.average done
         = Throw (TypeError "Reduce of empty array with no initial value"))
    ∧ (batch ≠ [] → ∃ avg, BatchScript.average done = Ok avg)
    ∧ BatchScript.output
        (BatchScript.main false scrape clock elapsed batch) = None.
Proof.
  intros scrape clock elapsed batch done succeeded failed.
  destruct (loop_spec scrape clock elapsed batch 0%nat BatchScript.start)
    as (entries & Hres & Hm & Hs & Hall & Hok & Hfail & Htot & Hlen & Htimes).
  cbv zeta in *. cbn [BatchScript.start BatchScript.results BatchScript.stats
                      BatchScript.times BatchScript.ok BatchScript.fail
                      BatchScript.total app length] in *.
  split; [|split; [|split; [|split]]].
  - exists entries. unfold done, BatchScript.main.
    cbn [BatchScript.output BatchScript.counters].
    rewrite Hres, Hok, Hfail. repeat split; auto.
  - unfold done, BatchScript.main. cbn [BatchScript.counters]. rewrite Htot. lia.
  - intros ->. split; reflexivity.
  - intros Hne. unfold done, BatchScript.main. cbn [BatchScript.average].
    destruct (BatchScript.times _) as [|t ts] eqn:E.
    + cbn [length] in Htimes. destruct batch; [contradiction | discriminate].
    + eexists. reflexivity.
  - reflexivity.
Qed.

Section ImportFacts.

Import Mongo Database Worker ImportArtifacts Ops ImportCount.

Lemma importArtifacts_concat now files : ∀ acc,
  fold_left (importFile now) files acc = importFile now acc (concat files).
Proof.
  induction files as [|f files IH]; intros acc; [reflexivity|].
  cbn [fold_left concat]. rewrite IH. unfold importFile.
  now rewrite fold_left_app.
Qed.

Lemma importEntry_totals now st t r :
  snd (importEntry now (st, t) r)
  = if imported r then countSuccess t else countError t.
Proof.
  unfold importEntry, imported, effective.
  destruct (hasError r); [reflexivity|].
  destruct (internalIdOf r) as [internalId|e]; [|reflexivity].
  destruct (updateOne _ _ _). reflexivity.
Qed.

Lemma skipped_imported r : skipped r = negb (imported r).
Proof.
  unfold skipped, imported. destruct (effective r).
  - rewrite bool_decide_false by discriminate.
    now rewrite bool_decide_true by discriminate.
  - rewrite bool_decide_true by reflexivity.
    now rewrite bool_decide_false by (intros H; now apply H).
Qed.

Lemma importFile_totals now results : ∀ st t,
  let t' := snd (importFile now (st, t) results) in
  totalProcessed t' = totalProcessed t + Z.of_nat (length results)
  ∧ totalSuccessful t'
    = totalSuccessful t + Z.of_nat (length (List.filter imported results))
  ∧ totalErrors t'
    = totalErrors t + Z.of_nat (length (List.filter skipped results)).
Proof.
  unfold importFile.
  induction results as [|r rest IH]; intros st t; cbn [fold_left].
  - cbn. lia.
  - destruct (importEntry now (st, t) r) as [st1 t1] eqn:E.
    pose proof (importEntry_totals now st t r) as Ht. rewrite E in Ht. cbn [snd] in Ht.
    specialize (IH st1 t1). cbv zeta in *. destruct IH as (H1 & H2 & H3).
    rewrite H1, H2, H3, Ht. cbn [List.filter length].
    rewrite skipped_imported.
    destruct (imported r); cbn [negb length countSuccess countError
                                 totalProcessed totalSuccessful totalErrors]; lia.
Qed.

Lemma matchOps_keyStable now results : Forall keyStable (matchOps now results).
Proof.
  induction results as [|r rest IH]; cbn [matchOps]; [constructor|].
  destruct (effective r); [|exact IH]. constructor; [|exact IH].
  apply keyStable_without_matchId. reflexivity.
Qed.

Lemma matchOps_keys now results o :
  In o (matchOps now results) → ∃ r, In r results ∧ opKey o = matchId r.
Proof.
  induction results as [|r rest IH]; cbn [matchOps]; [intros []|].
  destruct (effective r).
  - intros [<-|H]; [exists r; split; [now left | reflexivity]|].
    destruct (IH H) as (r' & ? & ?). exists r'. split; [now right | assumption].
  - intros H. destruct (IH H) as (r' & ? & ?). exists r'. split; [now right | assumption].
Qed.

Lemma applyUpdate_untouched o c d :
  keyStable o → fieldEq "matchId" (opKey o) d = false →
  In d c → In d (applyUpdate o c).
Proof.
  intros Hk Hq Hin. unfold applyUpdate.
  destruct (updateOne_cases (fieldEq "matchId" (opKey o)) (set (opFields o)) c)
    as [(pre & d0 & post & Ec & Hpre & Hd0 & E)|[Hall E]]; rewrite E; cbn [fst];
    [|exact Hin].
  rewrite Ec in Hin. apply in_app_or in Hin. apply in_or_app.
  destruct Hin as [H|[<-|H]]; [now left | congruence | right; now right].
Qed.

Lemma runUpdate_untouched ops : ∀ c d,
  Forall keyStable ops →
  (∀ o, In o ops → fieldEq "matchId" (opKey o) d = false) →
  In d c → In d (runUpdate ops c).
Proof.
  unfold runUpdate.
  induction ops as [|o ops IH]; intros c d Hk Hq Hin; [exact Hin|].
  cbn [fold_left]. inversion Hk; subst. apply IH; [assumption | |].
  - intros o' Ho'. apply Hq. now right.
  - apply applyUpdate_untouched; [assumption | apply Hq; now left | exact Hin].
Qed.

Lemma upsertOne_grows f v u (c : list (gmap string jsval)) :
  (length c ≤ length (upsertOne f v u c))%nat.
Proof.
  unfold upsertOne.
  destruct (updateOne_cases (fieldEq f v) u c)
    as [(pre & d0 & post & Ec & Hpre & Hd0 & E)|[Hall E]]; rewrite E.
  - rewrite Ec, !length_app. cbn [length]. lia.
  - rewrite length_app. lia.
Qed.

Lemma runUpsert_grows ops : ∀ c, (length c ≤ length (runUpsert ops c))%nat.
Proof.
  unfold runUpsert. induction ops as [|o ops IH]; intros c; [cbn; lia|].
  cbn [fold_left]. etransitivity; [|apply IH]. apply upsertOne_grows.
Qed.

Lemma count_split (l : list ResultEntry) :
  length l = (length (List.filter imported l)
              + length (List.filter skipped l))%nat
  ∧ (length (List.filter hasError l) ≤ length (List.filter skipped l))%nat.
Proof.
  induction l as [|r l [IH1 IH2]]; [cbn; lia|].
  cbn [List.filter]. rewrite skipped_imported.
  assert (hasError r = true → imported r = false) as Hr.
  { unfold imported, effective. intros ->.
    now rewrite bool_decide_false by (intros H; now apply H). }
  destruct (hasError r) eqn:He.
  - rewrite (Hr eq_refl). cbn [negb length]. lia.
  - destruct (imported r); cbn [negb length]; lia.
Qed.

(** The loop over the parsed files. *)
Lemma main_totals now files : ∀ st t,
  let r := fold_left (fun acc file =>
                        match file with
                        | Some results => ImportParsed.importResults now acc results
                        | None => acc
                        end) files (st, t) in
  let entries := concat (map ParsedSpec.entriesOf files) in
  r.1 = (importFile now (st, t) entries).1
  ∧ totalProcessed r.2
    = totalProcessed t + Z.of_nat (length entries)
      + Z.of_nat (length (List.filter ParsedSpec.isCutShort files))
  ∧ totalSuccessful r.2
    = totalSuccessful t + Z.of_nat (length (List.filter imported entries))
  ∧ totalErrors r.2
    = totalErrors t + Z.of_nat (length (List.filter skipped entries)).
Proof.
  induction files as [|[results|] files IH]; intros st t; cbn [fold_left].
  - cbn. repeat split; lia.
  - rewrite importResults_read. cbv zeta.
    destruct (importFile now (st, t) (ParsedSpec.readEntries results))
      as [st1 t1] eqn:E. cbn [fst snd].
    destruct (importFile_totals now (ParsedSpec.readEntries results) st t)
      as (H1 & H2 & H3). rewrite E in H1, H2, H3. cbn [snd] in H1, H2, H3.
    set (t2 := if ParsedSpec.cutShort results
               then ImportParsed.countProcessed t1 else t1).
    specialize (IH st1 t2). cbv zeta in IH. destruct IH as (I0 & I1 & I2 & I3).
    cbn [map concat ParsedSpec.entriesOf List.filter ParsedSpec.isCutShort].
    rewrite I0, I1, I2, I3.
    rewrite !List.filter_app, !length_app.
    assert (Et : totalProcessed t2
                 = totalProcessed t1
                   + (if ParsedSpec.cutShort results then 1 else 0)
                 ∧ totalSuccessful t2 = totalSuccessful t1
                 ∧ totalErrors t2 = totalErrors t1).
    { unfold t2. destruct (ParsedSpec.cutShort results); cbn; lia. }
    destruct Et as (E1 & E2 & E3). rewrite E1, E2, E3, H1, H2, H3.
    split.
    + unfold importFile. rewrite fold_left_app.
      fold (importFile now (st, t) (ParsedSpec.readEntries results)).
      rewrite E.
      apply (importFile_store now _ st1 t2 t1).
    + destruct (ParsedSpec.cutShort results); cbn [length]; lia.
  - apply IH.
Qed.

End ImportFacts.

(** X21.  The counters of the importer.  Of a parsed file the entries
    before its first null are imported: a null entry is counted as
    processed and ends the file, neither as a success nor as an error.  So
    [totalProcessed] is the number of the entries read plus the number of
    files cut short by a null, [totalSuccessful] the number of the entries
    read that took effect, [totalErrors] the number of the others, and
    processed = successful + errors + files cut short; every entry read
    that carries an error is among the errors, and the store is that of
    importing the entries read.  Without a null and without an unreadable
    file this is the import of the files as they are, where processed =
    successful + errors.  A file with an error entry, a null and another
    error entry counts 2 processed, 0 successful and 1 error. *)
Theorem import_counters :
  (∀ now st files,
     let result := ImportParsed.main now st files in
     let t := snd result in
     let entries := concat (map ParsedSpec.entriesOf files) in
     let cut := Z.of_nat (length (List.filter ParsedSpec.isCutShort files)) in
     fst result
     = fst (ImportArtifacts.importArtifacts now st
              (map ParsedSpec.entriesOf files))
     ∧ ImportArtifacts.totalProcessed t = Z.of_nat (length entries) + cut
     ∧ ImportArtifacts.totalSuccessful t
       = Z.of_nat (length (List.filter ImportCount.imported entries))
     ∧ ImportArtifacts.totalErrors t
       = Z.of_nat (length (List.filter ImportCount.skipped entries))
     ∧ ImportArtifacts.totalProcessed t
       = ImportArtifacts.totalSuccessful t + ImportArtifacts.totalErrors t + cut
     ∧ Z.of_nat (length (List.filter ImportArtifacts.hasError entries))
       ≤ ImportArtifacts.totalErrors t)
  ∧ (∀ now st (files : list (list Worker.ResultEntry)),
       ImportParsed.main now st (map (fun f => Some (map Some f)) files)
       = ImportArtifacts.importArtifacts now st files)
  ∧ (∀ now st,
       ImportParsed.main now st [Some ParsedSpec.withNull]
       = (st, {| ImportArtifacts.totalProcessed := 2;
                 ImportArtifacts.totalSuccessful := 0;
                 ImportArtifacts.totalErrors := 1 |})).
Proof.
  split; [|split].
  - intros now st files result t entries cut.
    destruct (main_totals now files st ImportArtifacts.noTotals)
      as (H0 & H1 & H2 & H3).
    fold (ImportParsed.main now st files) in H0, H1, H2, H3.
    fold result in H0, H1, H2, H3. fold entries in H0, H1, H2, H3.
    change (result.2) with t in H1, H2, H3. fold cut in H1.
    cbn [ImportArtifacts.noTotals ImportArtifacts.totalProcessed
         ImportArtifacts.totalSuccessful ImportArtifacts.totalErrors] in *.
    destruct (count_split entries) as [Hs Hle].
    split.
    { change (fst result) with (result.1). rewrite H0.
      unfold ImportArtifacts.importArtifacts. now rewrite importArtifacts_concat. }
    rewrite H1, H2, H3. repeat split; lia.
  - intros now st files. unfold ImportParsed.main, ImportArtifacts.importArtifacts.
    generalize (st, ImportArtifacts.noTotals).
    induction files as [|f files IH]; intros acc; [reflexivity|].
    cbn [map fold_left]. rewrite IH. f_equal.
    clear. revert acc. induction f as [|r f IH]; intros acc; [reflexivity|].
    cbn [map ImportParsed.importResults]. rewrite IH. reflexivity.
  - intros now st. reflexivity.
Qed.

(** X22.  The importer never adds, removes or re-keys a match: after the
    import of any files the [matches] collection has the same [matchId]s in
    the same places; a match that no entry names is still there as it was;
    and [match_details] has not lost a document. *)
Theorem import_keeps_match_set :
  ∀ now st files,
    let st' := fst (ImportArtifacts.importArtifacts now st files) in
    map Mongo.indexKey (Database.matches st')
    = map Mongo.indexKey (Database.matches st)
    ∧ (∀ d, In d (Database.matches st) →
            (∀ r, In r (concat files) →
                  Mongo.fieldEq "matchId" (Worker.matchId r) d = false) →
            In d (Database.matches st'))
    ∧ (length (Database.match_details st)
       ≤ length (Database.match_details st'))%nat.
Proof.
  intros now st files st'.
  assert (st' = {| Database.matches :=
                     Ops.runUpdate (Ops.matchOps now (concat files))
                       (Database.matches st);
                   Database.match_details :=
                     Ops.runUpsert (Ops.detailOps now (concat files))
                       (Database.match_details st) |}) as ->.
  { unfold st', ImportArtifacts.importArtifacts.
    rewrite importArtifacts_concat. apply importFile_runs. }
  cbn [Database.matches Database.match_details].
  split; [|split].
  - apply runUpdate_keys. apply matchOps_keyStable.
  - intros d Hin Hq. apply runUpdate_untouched; [apply matchOps_keyStable | | exact Hin].
    intros o Ho. apply matchOps_keys in Ho as (r & Hr & ->). now apply Hq.
  - apply runUpsert_grows.
Qed.

(** X20.  A result file written by scrape-batch-with-mem.js imports as
    errors only: the store stays as it was and every entry is counted as
    processed and as an error.  The file has one entry for each of the
    first [SAMPLE] rows when [SAMPLE] is positive, and one for each row
    otherwise. *)
Theorem withMem_output_imports_as_errors :
  ∀ SAMPLE scrape now batch now' st t,
    let results := Worker.scrapeBatchWithMem SAMPLE scrape now batch in
    ImportArtifacts.importFile now' (st, t) results
    = (st, ImportCount.addErrors (Z.of_nat (length results)) t)
    ∧ length results
      = (if 0 <? SAMPLE then Nat.min (Z.to_nat SAMPLE) (length batch)
         else length batch).
Proof.
  intros SAMPLE scrape now batch now' st t results.
  assert (∀ batch i acc,
            Forall (fun r => Worker.details r = None ∧ Worker.r_dateInfo r = None) acc →
            Forall (fun r => Worker.details r = None ∧ Worker.r_dateInfo r = None)
              (Worker.scrapeLoopWithMem scrape now i batch acc)
            ∧ length (Worker.scrapeLoopWithMem scrape now i batch acc)
              = (length acc + length batch)%nat) as Hloop.
  { intros rows. induction rows as [|row rest IH]; intros i acc Hacc; cbn [Worker.scrapeLoopWithMem].
    - split; [exact Hacc | cbn; lia].
    - destruct (IH (S i) (acc ++ [Worker.scrapeOneWithMem (scrape i) now row])) as [H1 H2].
      + apply Forall_app. split; [exact Hacc|]. constructor; [|constructor].
        unfold Worker.scrapeOneWithMem. destruct (scrape i _); split; reflexivity.
      + split; [exact H1|]. rewrite H2, length_app. cbn [length]. lia. }
  assert (∀ l t0,
            Forall (fun r => Worker.details r = None ∧ Worker.r_dateInfo r = None) l →
            ImportArtifacts.importFile now' (st, t0) l
            = (st, ImportCount.addErrors (Z.of_nat (length l)) t0)) as Himp.
  { unfold ImportArtifacts.importFile.
    induction l as [|r l IH]; intros t0 Hl.
    - cbn. f_equal. destruct t0. unfold ImportCount.addErrors. cbn. f_equal; lia.
    - inversion Hl; subst. cbn [fold_left].
      rewrite importEntry_error by (right; assumption).
      rewrite IH by assumption. f_equal.
      unfold ImportCount.addErrors, ImportArtifacts.countError.
      cbn [ImportArtifacts.totalProcessed ImportArtifacts.totalSuccessful
           ImportArtifacts.totalErrors length]. f_equal; lia. }
  unfold results, Worker.scrapeBatchWithMem.
  destruct (Hloop (if 0 <? SAMPLE then firstn (Z.to_nat SAMPLE) batch else batch)
              0%nat [] (List.Forall_nil _)) as [H1 H2].
  split; [apply Himp; exact H1|].
  rewrite H2. cbn [length]. destruct (0 <? SAMPLE); [|reflexivity].
  cbn. apply length_firstn.
Qed.

Section PipelineFacts.

Import Mongo Database Worker ImportArtifacts Ops.

Lemma find_skip (q : gmap string jsval → bool) pre x y post :
  q x = false → q y = false →
  List.find q (pre ++ x :: post) = List.find q (pre ++ y :: post).
Proof.
  intros Hx Hy. induction pre as [|z pre IH]; cbn [app List.find].
  - now rewrite Hx, Hy.
  - now rewrite IH.
Qed.

Lemma sameKey_query k1 k2 x :
  toBson k1 = toBson k2 → fieldEq "matchId" k1 x = fieldEq "matchId" k2 x.
Proof. intros H. rewrite !fieldEq_key. now rewrite H. Qed.

Lemma keyStable_query o d :
  keyStable o → fieldEq "matchId" (opKey o) d = true →
  fieldEq "matchId" (opKey o) (set (opFields o) d) = true.
Proof.
  intros Hk Hd. apply fieldEq_true. apply Hk. now apply fieldEq_true.
Qed.

Lemma keyStable_other o k d :
  keyStable o → fieldEq "matchId" (opKey o) d = true →
  toBson (opKey o) ≠ toBson k →
  fieldEq "matchId" k d = false ∧ fieldEq "matchId" k (set (opFields o) d) = false.
Proof.
  intros Hk Hd Hne. pose proof (keyStable_query o d Hk Hd) as Hd'.
  apply fieldEq_true in Hd, Hd'. split; apply fieldEq_false; congruence.
Qed.

(** One update, seen from the first document under the key [k]. *)
Lemma applyUpdate_first o k c d :
  keyStable o →
  findOne (fieldEq "matchId" k) c = Some d →
  findOne (fieldEq "matchId" k) (applyUpdate o c)
  = Some (if bool_decide (toBson (opKey o) = toBson k)
          then set (opFields o) d else d).
Proof.
  intros Hk Hfind. unfold applyUpdate, findOne in *.
  destruct (updateOne_cases (fieldEq "matchId" (opKey o)) (set (opFields o)) c)
    as [(pre & d0 & post & Ec & Hpre & Hd0 & E)|[Hall E]]; rewrite E; cbn [fst].
  - destruct (decide (toBson (opKey o) = toBson k)) as [Ek|Ek].
    + rewrite (bool_decide_true _ Ek).
      assert (List.find (fieldEq "matchId" k) c = Some d0) as H0.
      { rewrite Ec. apply find_first.
        - eapply Forall_impl; [exact Hpre|]. cbn. intros x Hx.
          now rewrite <- (sameKey_query _ _ x Ek).
        - now rewrite <- (sameKey_query _ _ d0 Ek). }
      rewrite H0 in Hfind. injection Hfind as <-.
      apply find_first.
      * eapply Forall_impl; [exact Hpre|]. cbn. intros x Hx.
        now rewrite <- (sameKey_query _ _ x Ek).
      * rewrite <- (sameKey_query _ _ _ Ek). now apply keyStable_query.
    + rewrite (bool_decide_false _ Ek).
      destruct (keyStable_other o k d0 Hk Hd0 Ek) as [H1 H2].
      rewrite <- Hfind, Ec. now apply find_skip.
  - destruct (decide (toBson (opKey o) = toBson k)) as [Ek|Ek].
    + exfalso. apply List.find_some in Hfind as [Hin Hq].
      rewrite List.Forall_forall in Hall. specialize (Hall d Hin).
      rewrite (sameKey_query _ _ d Ek) in Hall. congruence.
    + now rewrite (bool_decide_false _ Ek).
Qed.

(** A run of updates that all establish [P] on the documents under the
    key [k]: the first such document has [P] in the end, when it had it
    before or when one of the updates is for this key. *)
Lemma runUpdate_first (P : gmap string jsval → Prop) k ops : ∀ c d,
  Forall keyStable ops →
  (∀ o x, In o ops → toBson (opKey o) = toBson k → P (set (opFields o) x)) →
  findOne (fieldEq "matchId" k) c = Some d →
  ∃ d', findOne (fieldEq "matchId" k) (runUpdate ops c) = Some d'
        ∧ (P d ∨ (∃ o, In o ops ∧ toBson (opKey o) = toBson k) → P d').
Proof.
  unfold runUpdate.
  induction ops as [|o ops IH]; intros c d Hk HP Hfind.
  - exists d. split; [exact Hfind|]. intros [H|(o & [] & _)]. exact H.
  - inversion Hk as [|? ? Ho Hops]; subst. cbn [fold_left].
    pose proof (applyUpdate_first o k c d Ho Hfind) as H1.
    destruct (IH _ _ Hops (fun o' x Hin => HP o' x (or_intror Hin)) H1)
      as (d' & Hd' & Himp).
    exists d'. split; [exact Hd'|].
    intros H. apply Himp.
    destruct (decide (toBson (opKey o) = toBson k)) as [Ek|Ek].
    + rewrite (bool_decide_true _ Ek). left. apply HP; [now left | exact Ek].
    + rewrite (bool_decide_false _ Ek).
      destruct H as [H|(o' & [<-|Hin] & Ho')]; [now left | contradiction |].
      right. exists o'. auto.
Qed.

Lemma detailOps_keyStable now results :
  Forall ownKey results → Forall keyStable (detailOps now results).
Proof.
  induction 1 as [|r rest Hr _ IH]; cbn [detailOps]; [constructor|].
  destruct (effective r); [|exact IH]. constructor; [|exact IH].
  unfold detailsUpdate.
  destruct (details r) as [d0|] eqn:Ed; cbn [default].
  - destruct (Hr d0 Ed) as [Hn|Hs].
    + apply keyStable_without_matchId.
      now rewrite lookup_insert_ne by discriminate.
    + intros d Hd. simpl in *. unfold indexKey.
      rewrite set_lookup, lookup_insert_ne by discriminate.
      destruct (d0 !! "matchId") as [v|]; [|discriminate].
      simpl in *. congruence.
  - apply keyStable_without_matchId.
    now rewrite lookup_insert_ne by discriminate.
Qed.

Lemma matchOps_In now results r internalId :
  In r results → effective r = Some internalId →
  In {| opKey := matchId r; opFields := matchUpdate now r internalId |}
    (matchOps now results).
Proof.
  induction results as [|r0 rest IH]; [intros []|].
  intros [->|Hin] He; cbn [matchOps].
  - rewrite He. now left.
  - destruct (effective r0); [right|]; now apply IH.
Qed.

Lemma detailOps_In now results r internalId :
  In r results → effective r = Some internalId →
  In {| opKey := matchId r; opFields := detailsUpdate now r |}
    (detailOps now results).
Proof.
  induction results as [|r0 rest IH]; [intros []|].
  intros [->|Hin] He; cbn [detailOps].
  - rewrite He. now left.
  - destruct (effective r0); [right|]; now apply IH.
Qed.

Lemma matchOps_fields now results o :
  In o (matchOps now results) →
  opFields o !! "processingStatus" = Some (JPrim (PStr "complete")).
Proof.
  induction results as [|r rest IH]; cbn [matchOps]; [intros []|].
  destruct (effective r); [|exact IH]. intros [<-|H]; [reflexivity | now apply IH].
Qed.

Lemma detailOps_fields now results o :
  In o (detailOps now results) →
  ∃ r, In r results ∧ effective r ≠ None
       ∧ opFields o = detailsUpdate now r.
Proof.
  induction results as [|r rest IH]; cbn [detailOps]; [intros []|].
  destruct (effective r) eqn:E.
  - intros [<-|H].
    + exists r. split; [now left|]. split; [congruence | reflexivity].
    + destruct (IH H) as (r' & ? & ? & ?). exists r'. split; [now right | auto].
  - intros H. destruct (IH H) as (r' & ? & ? & ?). exists r'. split; [now right | auto].
Qed.

Lemma scrapeLoop_In scrape now batch : ∀ i0 (i : nat) row,
  batch !! i = Some row →
  In (scrapeOne (scrape (i0 + i)%nat) now row) (scrapeLoop scrape now i0 batch []).
Proof.
  induction batch as [|row0 rest IH]; intros i0 i row Hi; [discriminate|].
  cbn [scrapeLoop]. rewrite scrapeLoop_app. apply in_or_app.
  destruct i as [|i].
  - injection Hi as <-. left. rewrite Nat.add_0_r. now left.
  - right. replace (i0 + S i)%nat with (S i0 + i)%nat by lia. now apply IH.
Qed.

Lemma scrapeLoop_all scrape now batch : ∀ i0 r,
  In r (scrapeLoop scrape now i0 batch []) →
  ∃ i row, r = scrapeOne (scrape i) now row.
Proof.
  induction batch as [|row0 rest IH]; intros i0 r; [intros []|].
  cbn [scrapeLoop]. rewrite scrapeLoop_app. intros H. apply in_app_or in H.
  destruct H as [[<-|[]]|H]; [eauto | now apply IH in H].
Qed.

Lemma scrapeOne_complete scrape now row :
  effective (scrapeOne scrape now row) ≠ None →
  ∀ now', detailsUpdate now' (scrapeOne scrape now row) !! "processingStatus"
          = Some (JPrim (PStr "complete")).
Proof.
  unfold scrapeOne. destruct (scrape (rowMatchId row)) as [summary|message].
  - intros _ now'. unfold detailsUpdate. cbn [details default].
    rewrite lookup_insert_ne by discriminate.
    unfold detailsOf, createMatchDetails, id.
    erewrite lookup_union_Some_l; [reflexivity|].
    rewrite !lookup_insert_ne by discriminate. apply lookup_singleton_eq.
  - intros H. exfalso. apply H. unfold effective, hasError, internalIdOf.
    cbn [error r_dateInfo details].
    destruct (truthy (JPrim (PStr message))); reflexivity.
Qed.

Lemma scrapeOne_effective scrape now row summary :
  scrape (rowMatchId row) = inl summary →
  ∃ internalId, effective (scrapeOne scrape now row) = Some internalId
                ∧ matchId (scrapeOne scrape now row) = rowMatchId row.
Proof.
  intros Hs. unfold scrapeOne. rewrite Hs.
  unfold effective, hasError, internalIdOf. cbn [error r_dateInfo details matchId].
  destruct (dateInfo summary) as [di|]; [destruct (truthy (properInternalId di))|];
    eauto.
Qed.

(** An import, seen from one entry that takes effect: the match it names
    ends complete and its details are on file. *)
Lemma import_completes now' results st t r internalId d :
  Forall ownKey results →
  (∀ r', In r' results → effective r' ≠ None →
         detailsUpdate now' r' !! "processingStatus"
         = Some (JPrim (PStr "complete"))) →
  In r results → effective r = Some internalId →
  findOne (fieldEq "matchId" (matchId r)) (matches st) = Some d →
  let st' := fst (importFile now' (st, t) results) in
  (∃ d', findOne (fieldEq "matchId" (matchId r)) (matches st') = Some d'
         ∧ d' !! "processingStatus" = Some (JPrim (PStr "complete")))
  ∧ (∃ x, findOne (fieldEq "matchId" (matchId r)) (match_details st') = Some x
          ∧ x !! "processingStatus" = Some (JPrim (PStr "complete"))).
Proof.
  intros Hown Hdone Hin He Hd st'.
  set (k := matchId r) in *.
  set (P := fun x : gmap string jsval =>
              x !! "processingStatus" = Some (JPrim (PStr "complete"))).
  assert (st' = {| matches := runUpdate (matchOps now' results) (matches st);
                   match_details :=
                     runUpsert (detailOps now' results) (match_details st) |}) as ->
    by apply importFile_runs.
  cbn [matches match_details].
  split.
  - destruct (runUpdate_first P k (matchOps now' results) (matches st) d
                (matchOps_keyStable now' results)) as (d' & Hd' & Himp).
    + intros o x Ho _. unfold P. rewrite set_lookup.
      now rewrite (matchOps_fields now' results o Ho).
    + exact Hd.
    + exists d'. split; [exact Hd'|]. apply Himp. right.
      eexists. split; [exact (matchOps_In now' results _ internalId Hin He)|].
      reflexivity.
  - pose proof (detailOps_keyStable now' results Hown) as Hstable.
    rewrite (runUpsert_stubs _ Hstable).
    pose proof (detailOps_In now' results _ internalId Hin He) as Hop.
    pose proof (stubs_cover (detailOps now' results) (match_details st) _ Hop) as Hex.
    cbn [opKey] in Hex. fold k in Hex.
    apply existsb_exists in Hex as (x0 & Hx0 & Hq0).
    destruct (List.find (fieldEq "matchId" k)
                (match_details st
                 ++ stubs (detailOps now' results) (match_details st)))
      as [x1|] eqn:Ef.
    2: { now rewrite (List.find_none _ _ Ef x0 Hx0) in Hq0. }
    destruct (runUpdate_first P k (detailOps now' results)
                (match_details st
                 ++ stubs (detailOps now' results) (match_details st))
                x1 Hstable) as (x & Hx & Himp).
    + intros o y Ho _. unfold P. rewrite set_lookup.
      apply detailOps_fields in Ho as (r' & Hr' & Her & ->).
      now rewrite (Hdone r' Hr' Her).
    + exact Ef.
    + exists x. split; [exact Hx|]. apply Himp. right.
      eexists. split; [exact Hop|]. reflexivity.
Qed.

(** What the loop of scrape-batch.js emits can be imported as it is. *)
Lemma scrapeBatch_importable scrape now batch r :
  In r (scrapeBatch scrape now batch) →
  ownKey r
  ∧ (effective r ≠ None →
     ∀ now', detailsUpdate now' r !! "processingStatus"
             = Some (JPrim (PStr "complete"))).
Proof.
  intros Hr. unfold scrapeBatch in Hr.
  apply scrapeLoop_all in Hr as (j & row & ->).
  split; [apply scrapeOne_ownKey | apply scrapeOne_complete].
Qed.

End PipelineFacts.

(** X19.  A row whose scrape succeeds ends complete: after the import of
    the result file that scrape-batch.js wrote for a batch, the first
    match with the [matchId] of such a row, when the store has one, has
    [processingStatus] complete, and the details found under that
    [matchId] have it too, whatever the other entries of the file are. *)
Theorem scraped_rows_end_complete :
  ∀ scrape now batch now' st t (i : nat) row summary d,
    batch !! i = Some row →
    scrape i (Worker.rowMatchId row) = inl summary →
    Mongo.findOne (Mongo.fieldEq "matchId" (Worker.rowMatchId row))
      (Database.matches st) = Some d →
    let st' := fst (ImportArtifacts.importFile now' (st, t)
                      (Worker.scrapeBatch scrape now batch)) in
    (∃ d', Mongo.findOne (Mongo.fieldEq "matchId" (Worker.rowMatchId row))
             (Database.matches st') = Some d'
           ∧ d' !! "processingStatus" = Some (JPrim (PStr "complete")))
    ∧ (∃ x, Mongo.findOne (Mongo.fieldEq "matchId" (Worker.rowMatchId row))
              (Database.match_details st') = Some x
            ∧ x !! "processingStatus" = Some (JPrim (PStr "complete"))).
Proof.
  intros scrape now batch now' st t i row summary d Hi Hs Hd.
  destruct (scrapeOne_effective (scrape i) now row summary Hs) as (iid & He & Hk).
  rewrite <- Hk in *.
  apply (import_completes now' _ st t _ iid d).
  - apply List.Forall_forall. intros r Hr.
    now apply scrapeBatch_importable in Hr.
  - intros r Hr Hne. now apply (scrapeBatch_importable scrape now batch r Hr).
  - unfold Worker.scrapeBatch.
    apply (scrapeLoop_In scrape now batch 0%nat i row Hi).
  - exact He.
  - exact Hd.
Qed.

Section RerunFacts.

Import Mongo ExportBatches StoreSpec.

Variable writable : string → bool.
Variable now : Z.
Variable cfg : Config.

Lemma fieldIn_own d ids :
  keyedAsBson d → In (getField "matchId" d) ids →
  fieldIn "matchId" ids d = true.
Proof.
  intros Hd Hin. unfold fieldIn. apply existsb_exists.
  exists (getField "matchId" d). split; [exact Hin|].
  unfold keyedAsBson in Hd. unfold fieldEq, getField.
  destruct (d !! "matchId") as [w|]; cbn [default].
  - apply bool_decide_eq_true. destruct w as [[]| | |]; try reflexivity.
    now destruct Hd.
  - now apply bool_decide_eq_true.
Qed.

Lemma query_markQueued d : query cfg (markQueued now d) = false.
Proof.
  unfold query.
  assert (fieldEq "processingStatus" (PStr "pending") (markQueued now d) = false) as ->;
    [|reflexivity].
  unfold fieldEq, markQueued. rewrite set_lookup. cbn.
  now apply bool_decide_eq_false.
Qed.

Lemma keyed_markQueued d : keyedAsBson d → keyedAsBson (markQueued now d).
Proof. unfold keyedAsBson. now rewrite markQueued_matchId. Qed.

Lemma flush_waiting st st' cur :
  flush writable now st = Ok st' → waiting cfg st cur →
  waiting cfg st' cur ∧ buf st' = [].
Proof.
  unfold flush, waiting. destruct (writable _); [|discriminate].
  intros [= <-] [Hk Hw]. cbn [store buf app].
  split; [|reflexivity]. split.
  - unfold updateMany. apply Forall_map.
    eapply Forall_impl; [exact Hk|]. cbn. intros d Hd.
    destruct (fieldIn _ _ d); [now apply keyed_markQueued | exact Hd].
  - intros d' Hin Hq. unfold updateMany in Hin.
    apply in_map_iff in Hin as (d & <- & Hd).
    destruct (fieldIn "matchId" (map (getField "matchId") (buf st)) d) eqn:E.
    + now rewrite query_markQueued in Hq.
    + specialize (Hw d Hd Hq). rewrite map_app in Hw.
      apply in_app_or in Hw as [Hw|Hw]; [|exact Hw].
      rewrite List.Forall_forall in Hk.
      rewrite (fieldIn_own d _ (Hk d Hd) Hw) in E. discriminate.
Qed.

Lemma exportLoop_waiting cur : ∀ st st',
  exportLoop writable now cfg cur st = (st', None) →
  waiting cfg st cur → waiting cfg st' [] ∧ buf st' = [].
Proof.
  induction cur as [|m rest IH]; intros st st' Hrun Hw; cbn [exportLoop] in Hrun.
  - destruct (decide (buf st = [])) as [Hb|Hb].
    + rewrite bool_decide_false in Hrun by (intros H; now apply H).
      injection Hrun as <-. split; [exact Hw | exact Hb].
    + rewrite bool_decide_true in Hrun by exact Hb.
      destruct (flush writable now st) as [st1|e] eqn:Ef; [|discriminate].
      injection Hrun as <-. now apply (flush_waiting st st1 []).
  - assert (waiting cfg (push m st) rest) as Hw1.
    { unfold waiting in *. destruct Hw as [Hk Hw]. split; [exact Hk|].
      intros d Hd Hq. cbn [push store buf] in *.
      rewrite <- app_assoc. cbn [app]. now apply Hw. }
    destruct (Z.of_nat (length (buf (push m st))) =? LIMIT cfg).
    + destruct (flush writable now (push m st)) as [st2|e] eqn:Ef; [|discriminate].
      apply (IH st2 st' Hrun). now apply (flush_waiting (push m st) st2 rest).
    + now apply (IH _ st' Hrun).
Qed.

Lemma cursor_waiting c :
  Forall keyedAsBson c → waiting cfg (nothingWritten c) (cursor cfg c).
Proof.
  intros Hk. unfold waiting. split; [exact Hk|]. cbn [nothingWritten store buf app].
  intros d Hd Hq. unfold cursor.
  apply (Permutation_in _ (Permutation_map _ (sortBy_perm _ _ _))).
  rewrite map_map. apply in_map_iff. exists d.
  split; [apply project_matchId|]. unfold find. now apply List.filter_In.
Qed.

End RerunFacts.

(** X23.  After an export that ran to its end, no record of the store
    matches the query any more: each record that matched is marked queued
    in its place, and a second run with the same options writes no file and
    leaves the store as it is.  (The records of the store carry no
    [undefined] under [matchId], as the driver writes them.) *)
Theorem export_rerun_writes_nothing :
  ∀ writable now cfg (c : list (gmap string jsval)) st,
    Forall StoreSpec.keyedAsBson c →
    ExportBatches.exportBatches writable now cfg c = (st, None) →
    Forall (fun d => ExportBatches.query cfg d = false) (ExportBatches.store st)
    ∧ (∀ (i : nat) d,
         c !! i = Some d → ExportBatches.query cfg d = true →
         ExportBatches.store st !! i = Some (ExportBatches.markQueued now d))
    ∧ (∀ writable' now',
         ExportBatches.exportBatches writable' now' cfg (ExportBatches.store st)
         = (StoreSpec.nothingWritten (ExportBatches.store st), None)).
Proof.
  intros writable now cfg c st Hk Hrun.
  unfold ExportBatches.exportBatches in Hrun.
  fold (StoreSpec.nothingWritten c) in Hrun.
  destruct (exportLoop_waiting writable now cfg _ _ _ Hrun (cursor_waiting cfg c Hk))
    as [Hw Hbuf]. unfold StoreSpec.waiting in Hw. destruct Hw as [_ Hw].
  rewrite Hbuf in Hw. cbn [app map] in Hw.
  assert (Forall (fun d => ExportBatches.query cfg d = false)
            (ExportBatches.store st)) as Hnone.
  { apply List.Forall_forall. intros d Hd.
    destruct (ExportBatches.query cfg d) eqn:Q; [|reflexivity].
    destruct (Hw d Hd Q). }
  split; [exact Hnone|]. split.
  - intros i d Hi Hq.
    apply (exportLoop_spec writable now cfg c) in Hrun.
    + destruct Hrun as ((Hlen & Hmarks) & _).
      destruct (ExportBatches.store st !! i) as [d'|] eqn:E.
      * destruct (Hmarks i d d' Hi E) as [->|[-> _]]; [|reflexivity].
        rewrite List.Forall_forall in Hnone.
        assert (In d (ExportBatches.store st)) as Hin.
        { apply list_elem_of_In. eapply list_elem_of_lookup_2. exact E. }
        rewrite (Hnone d Hin) in Hq. discriminate.
      * apply lookup_ge_None in E. apply lookup_lt_Some in Hi. lia.
    + split; [reflexivity|]. intros j x x' Hx Hx'. left.
      cbn [StoreSpec.nothingWritten ExportBatches.store] in Hx'. congruence.
    + constructor.
    + constructor.
  - intros writable' now'. unfold ExportBatches.exportBatches, ExportBatches.cursor.
    assert (Mongo.find (ExportBatches.query cfg) (ExportBatches.store st) = []) as ->.
    { unfold Mongo.find. clear Hw Hbuf Hrun.
      induction (ExportBatches.store st) as [|d l IH]; [reflexivity|].
      inversion Hnone as [|? ? Hd Hl]; subst.
      cbn [List.filter]. rewrite Hd. now apply IH. }
    reflexivity.
Qed.

Section FetchFacts.

Import Regex FetchArtifacts.

Lemma search_In {M} (at_ : string → list M) s m :
  search at_ s = Some m → ∃ t, In m (at_ t).
Proof.
  induction s as [|a s IH]; cbn [search].
  - destruct (at_ "") as [|x l] eqn:E; [discriminate|].
    intros [= <-]. exists "". rewrite E. now left.
  - destruct (at_ (String a s)) as [|x l] eqn:E; [exact IH|].
    intros [= <-]. exists (String a s). rewrite E. now left.
Qed.

Lemma search_more {M N} (at1 : string → list M) (at2 : string → list N) s :
  (∀ t, at1 t ≠ [] → at2 t ≠ []) →
  search at1 s ≠ None → search at2 s ≠ None.
Proof.
  intros H. induction s as [|a s IH]; cbn [search].
  - destruct (at1 "") as [|x l] eqn:E; [intros Hn; now destruct Hn|].
    intros _. destruct (at2 "") eqn:E2; [|discriminate].
    exfalso. apply (H ""); [rewrite E; discriminate | exact E2].
  - destruct (at1 (String a s)) as [|x l] eqn:E.
    + intros Hn. destruct (at2 (String a s)); [now apply IH | discriminate].
    + intros _. destruct (at2 (String a s)) eqn:E2; [|discriminate].
      exfalso. apply (H (String a s)); [rewrite E; discriminate | exact E2].
Qed.

Lemma many1_consumes p s w : In w (many1 p s) → w.1 ≠ "".
Proof.
  revert w. induction s as [|a s IH]; intros w; cbn [many1]; [intros []|].
  destruct (p a); [|intros []]. intros H. apply in_app_or in H.
  destruct H as [H|[<-|[]]]; [|discriminate].
  apply in_map_iff in H as (w' & <- & _). discriminate.
Qed.

Lemma bind_nonempty {A B} (f : A → list B) (l : list A) :
  (l ≫= f) ≠ [] → ∃ x, In x l ∧ f x ≠ [].
Proof.
  induction l as [|x l IH]; cbn [mbind list_bind]; [intros H; now destruct H|].
  destruct (f x) eqn:E.
  - cbn [app]. intros H. destruct (IH H) as (y & Hy & Hf).
    exists y. split; [now right | exact Hf].
  - intros _. exists x. split; [now left | rewrite E; discriminate].
Qed.

Lemma bind_In {A B} (f : A → list B) (l : list A) x y :
  In x l → In y (f x) → In y (l ≫= f).
Proof.
  induction l as [|x0 l IH]; [intros []|]. cbn [mbind list_bind].
  intros [->|H] Hy; apply in_or_app; [now left | right; now apply IH].
Qed.

Lemma In_bind {A B} (f : A → list B) (l : list A) y :
  In y (l ≫= f) → ∃ x, In x l ∧ In y (f x).
Proof.
  induction l as [|x0 l IH]; [intros []|]. cbn [mbind list_bind].
  intros H. apply in_app_or in H as [H|H].
  - exists x0. split; [now left | exact H].
  - destruct (IH H) as (x & ? & ?). exists x. split; [now right | assumption].
Qed.

Lemma batchResults_batch t : batchResultsAt t ≠ [] → batchAt t ≠ [].
Proof.
  unfold batchResultsAt, batchAt. intros H.
  apply bind_nonempty in H as (w1 & H1 & H).
  apply bind_nonempty in H as (w2 & H2 & _).
  intros E.
  assert (In w2.1 (litStr "batch-" t ≫= λ w1 : string * string,
                     many1 reDigit w1.2 ≫= λ w2 : string * string, [w2.1])) as Hin.
  { apply (bind_In _ _ w1); [exact H1|]. apply (bind_In _ _ w2); [exact H2|]. now left. }
  rewrite E in Hin. destruct Hin.
Qed.

Lemma batchAt_digits t digits : In digits (batchAt t) → digits ≠ "".
Proof.
  unfold batchAt. intros H.
  apply In_bind in H as (w1 & _ & H). apply In_bind in H as (w2 & H2 & [<-|[]]).
  now apply many1_consumes in H2.
Qed.

Lemma eqb_length a b : String.eqb a b = true → String.length a = String.length b.
Proof. intros H. apply String.eqb_eq in H. now subst. Qed.

Lemma endsWith_longer suffix tail :
  endsWith suffix tail = false →
  (String.length suffix < String.length tail)%nat →
  ∀ x, endsWith suffix (x +:+ tail) = false.
Proof.
  intros Ht Hlen x. induction x as [|a x IH].
  - now rewrite append_nil.
  - rewrite append_cons. cbn [endsWith]. rewrite IH, orb_false_r.
    apply not_true_is_false. intros H. apply eqb_length in H.
    cbn [String.length] in H. rewrite string_length_app in H. lia.
Qed.

Lemma results_name_not_json x :
  endsWith ".json" (x +:+ ".json-results") = false.
Proof.
  apply endsWith_longer; [reflexivity | cbn; lia].
Qed.

Lemma outputFileName_batch name :
  isBatchArtifact name = true →
  ∃ digits,
    search batchAt name = Some digits ∧ digits ≠ ""
    ∧ outputFileName name
      = "batch-" +:+ padStart 3 "0" (numToString (parseInt digits))
        +:+ ".json-results".
Proof.
  unfold isBatchArtifact. intros H. apply bool_decide_eq_true in H.
  apply (search_more batchResultsAt batchAt name batchResults_batch) in H.
  destruct (search batchAt name) as [digits|] eqn:E; [|now destruct H].
  exists digits. split; [reflexivity|].
  assert (digits ≠ "") as Hd.
  { apply search_In in E as (t & Ht). now apply batchAt_digits in Ht. }
  split; [exact Hd|].
  unfold outputFileName. rewrite E.
  destruct (String.eqb digits "") eqn:Eb; [|reflexivity].
  apply String.eqb_eq in Eb. contradiction.
Qed.

Lemma saveAll_names artifact (P : string → Prop) : ∀ jsonFiles p,
  P (outputFileName (name artifact)) →
  Forall (fun f => P f.1) (written p) →
  Forall (fun f => P f.1) (written (saveAll artifact p jsonFiles)).
Proof.
  induction jsonFiles as [|[fname [content|]] rest IH]; intros p Ha Hp;
    cbn [saveAll]; [exact Hp | | exact Hp].
  apply IH; [exact Ha|]. cbn [saveJson written].
  apply Forall_app. split; [exact Hp|]. constructor; [exact Ha | constructor].
Qed.

Lemma processAll_names (P : string → Prop) allArtifacts :
  (∀ name, isBatchArtifact name = true → P (outputFileName name)) →
  Forall (fun f => P f.1) (written (processAll allArtifacts)).
Proof.
  intros HP. unfold processAll.
  set (batchArtifacts := List.filter (fun a => isBatchArtifact (name a)) allArtifacts).
  assert (Forall (fun a => isBatchArtifact (name a) = true) batchArtifacts) as Hb.
  { apply List.Forall_forall. intros a Ha. unfold batchArtifacts in Ha.
    now apply List.filter_In in Ha. }
  assert (∀ l p, Forall (fun a => isBatchArtifact (name a) = true) l →
                 Forall (fun f => P f.1) (written p) →
                 Forall (fun f => P f.1) (written (fold_left processArtifact l p))) as H.
  { induction l as [|a l IH]; intros p Hl Hp; [exact Hp|].
    inversion Hl as [|? ? Ha Hl']; subst. cbn [fold_left]. apply IH; [exact Hl'|].
    unfold processArtifact. destruct (extracted a) as [files|e]; [|exact Hp].
    destruct (0 <? _)%nat; [|exact Hp].
    apply saveAll_names; [now apply HP | exact Hp]. }
  apply H; [exact Hb | constructor].
Qed.

End FetchFacts.

(** X26.  Every artifact that passes the filter for batch artifacts is
    saved under a name made from the number after the first "batch-" that
    is followed by a digit, never under its own name: the name ends in
    ".json-results" and not in ".json", and for a number below 2^53 it is
    batch-NNN.json-results with NNN the number padded to three digits. *)
Theorem fetched_names_are_batch_results :
  ∀ name,
    FetchArtifacts.isBatchArtifact name = true →
    ∃ digits,
      Regex.search FetchArtifacts.batchAt name = Some digits
      ∧ digits ≠ ""
      ∧ (FetchArtifacts.parseInt digits < 2 ^ 53 →
         FetchArtifacts.outputFileName name
         = "batch-" +:+ padStart 3 "0" (numToString (FetchArtifacts.parseInt digits))
           +:+ ".json-results")
      ∧ Regex.endsWith ".json-results" (FetchArtifacts.outputFileName name) = true
      ∧ Regex.endsWith ".json" (FetchArtifacts.outputFileName name) = false.
Proof.
  intros name H.
  destruct (outputFileName_batch name H) as (digits & Hs & Hd & Hn).
  exists digits. split; [exact Hs|]. split; [exact Hd|].
  split; [intros _; exact Hn|].
  rewrite Hn, <- append_assoc. split; [|apply results_name_not_json].
  generalize ("batch-" +:+ padStart 3 "0" (numToString (FetchArtifacts.parseInt digits))).
  intros x. induction x as [|a x IH]; [reflexivity|].
  rewrite append_cons. cbn [Regex.endsWith]. rewrite IH. apply orb_true_r.
Qed.

(** The theorem at a concrete input. *)
Lemma fetched_names_are_batch_results_witness :
  ∃ digits,
    Regex.search FetchArtifacts.batchAt "batch-001.json-results" = Some digits
    ∧ digits ≠ ""
    ∧ (FetchArtifacts.parseInt digits < 2 ^ 53 →
       FetchArtifacts.outputFileName "batch-001.json-results"
       = "batch-" +:+ padStart 3 "0" (numToString (FetchArtifacts.parseInt digits))
         +:+ ".json-results")
    ∧ Regex.endsWith ".json-results"
        (FetchArtifacts.outputFileName "batch-001.json-results") = true
    ∧ Regex.endsWith ".json"
        (FetchArtifacts.outputFileName "batch-001.json-results") = false.
Proof.
  apply (fetched_names_are_batch_results "batch-001.json-results").
  reflexivity.
Defined.

(** X27.  No file that fetch-artifacts.js writes into its output folder
    has a name that ends in ".json"; import-artifacts.js run on a folder
    that holds these files therefore reads none of them, leaves the store
    as it is and counts nothing, whatever the artifacts held. *)
Theorem fetched_folder_imports_nothing :
  ∀ parse allArtifacts now st,
    let folder := FetchArtifacts.written (FetchArtifacts.processAll allArtifacts) in
    Forall (fun f => Regex.endsWith ".json" f.1 = false) folder
    ∧ ImportDirectory.main now st (map (fun f => (f.1, parse f.2)) folder)
      = (st, ImportArtifacts.noTotals).
Proof.
  intros parse allArtifacts now st folder.
  assert (Forall (fun f => Regex.endsWith ".json" f.1 = false) folder) as H.
  { apply (processAll_names (fun n => Regex.endsWith ".json" n = false)).
    intros name Hn. destruct (outputFileName_batch name Hn) as (digits & _ & _ & ->).
    rewrite <- append_assoc. apply results_name_not_json. }
  split; [exact H|].
  unfold ImportDirectory.main.
  assert (List.filter (fun f : string * option (list Worker.ResultEntry) =>
                         Regex.endsWith ".json" f.1)
            (map (fun f => (f.1, parse f.2)) folder) = []) as ->; [|reflexivity].
  induction H as [|f l Hf _ IH]; [reflexivity|].
  cbn [map List.filter fst]. now rewrite Hf.
Qed.

Section PageFacts.

Import FetchArtifacts FetchSpec.

Lemma firstn_more {A} (l : list A) : ∀ n m,
  firstn n l ++ firstn m (skipn n l) = firstn (n + m) l.
Proof.
  induction l as [|x l IH]; intros n m.
  - now rewrite !firstn_nil, skipn_nil, firstn_nil.
  - destruct n as [|n]; [reflexivity|]. cbn [firstn skipn Nat.add app].
    now rewrite IH.
Qed.

Lemma fetchPages_from {A} (items : list A) fuel : ∀ k,
  (100 * k ≤ length items)%nat →
  (length items - 100 * k < 100 * fuel)%nat →
  fetchPages fuel (honest items) (Z.of_nat k + 1) (firstn (100 * k) items)
  = Some items.
Proof.
  induction fuel as [|fuel IH]; intros k Hk Hfuel; [lia|].
  cbn [fetchPages]. unfold honest at 1.
  replace (Z.to_nat (Z.of_nat k + 1 - 1)) with k by lia.
  rewrite firstn_more.
  set (artifacts := firstn 100 (skipn (100 * k) items)).
  assert (length artifacts = Nat.min 100 (length items - 100 * k)) as Hlen.
  { unfold artifacts. now rewrite length_firstn, length_skipn. }
  assert (length (firstn (100 * k + 100) items)
          = Nat.min (100 * k + 100) (length items)) as Hall
    by apply length_firstn.
  destruct ((length artifacts =? 0)%nat
            || (Z.of_nat (length items)
                <=? Z.of_nat (length (firstn (100 * k + 100) items)))) eqn:E.
  - f_equal. apply firstn_all2.
    apply orb_true_iff in E as [E|E].
    + apply Nat.eqb_eq in E. lia.
    + apply Z.leb_le in E. lia.
  - apply orb_false_iff in E as [E1 E2].
    apply Nat.eqb_neq in E1. apply Z.leb_gt in E2.
    replace (Z.of_nat k + 1 + 1) with (Z.of_nat (S k) + 1) by lia.
    replace (100 * k + 100)%nat with (100 * S k)%nat by lia.
    apply IH; lia.
Qed.

End PageFacts.

(** X25.  The loop over the pages of the artifact list collects every
    artifact, in order, from a server that answers each page with its
    hundred artifacts and the total count: more than a hundredth of the
    number of artifacts in requests is enough. *)
Theorem fetchPages_collects_all :
  ∀ A (items : list A) fuel,
    (length items < 100 * fuel)%nat →
    FetchArtifacts.fetchPages fuel (FetchSpec.honest items) 1 [] = Some items.
Proof.
  intros A items fuel H.
  apply (fetchPages_from items fuel 0%nat); lia.
Qed.

(** The theorem at a concrete input. *)
Lemma fetchPages_collects_all_witness :
  FetchArtifacts.fetchPages 3 (FetchSpec.honest (seq 0 250)) 1 []
  = Some (seq 0 250).
Proof.
  apply (fetchPages_collects_all nat (seq 0 250) 3).
  rewrite length_seq. lia.
Defined.

Section TailFacts.

Import Utils Dates Worker SummaryTail InternalIdSpec.

Lemma parseDate_text dateParse dateStr :
  isName dateStr →
  parseDate dateParse dateStr = Ok (JPrim PNull)
  ∨ ∃ t, parseDate dateParse dateStr = Ok (JDate t).
Proof.
  intros [->|[->|[s ->]]]; [left; reflexivity | left; reflexivity |].
  unfold parseDate. destruct (negb (truthy (JPrim (PStr s)))); [now left|].
  destruct (searchDate s) as [[[[d M] Y] t]|]; [right; eauto|].
  destruct (dateParse s); [right; eauto | now left].
Qed.

Lemma tail_normalize toLowerCase v :
  isName v → SummaryTail.normalize toLowerCase v = Ok (teamPart toLowerCase v).
Proof.
  intros [->|[->|[s ->]]]; cbn [SummaryTail.normalize teamPart]; try reflexivity.
  destruct (String.eqb_spec (keepLowerAlnum (toLowerCase s)) "") as [->|_];
    reflexivity.
Qed.

End TailFacts.

(** X16.  The date information and the team ids of a summary.  For a
    date text and team names that are strings or null, and whatever the
    engine's [toLowerCase] is, the computation does not throw; the teams'
    [internalId]s are the normalised names, for a name that is a string
    the characters [a-z0-9] of the lowered name in their order;
    [dateInfo] is null exactly when [parseDate] returns null; and a
    [dateInfo] carries the parsed date and the id
    datePart_home_vs_away built from the same two team ids.  When the date
    is an invalid [Date], the id starts with the underscore. *)
Theorem summary_ids_agree :
  ∀ dateParse toLowerCase dateStr home away league,
    InternalIdSpec.isName dateStr →
    InternalIdSpec.isName (SummaryTail.name home) →
    InternalIdSpec.isName (SummaryTail.name away) →
    ∃ t,
      SummaryTail.tail dateParse toLowerCase dateStr home away league = Ok t
      ∧ SummaryTail.internalId (SummaryTail.home (SummaryTail.teams t))
        = InternalIdSpec.teamPart toLowerCase (SummaryTail.name home)
      ∧ SummaryTail.internalId (SummaryTail.away (SummaryTail.teams t))
        = InternalIdSpec.teamPart toLowerCase (SummaryTail.name away)
      ∧ (∀ s, SummaryTail.name home = JPrim (PStr s) →
           InternalIdSpec.chars
             (SummaryTail.internalId (SummaryTail.home (SummaryTail.teams t)))
           = List.filter Utils.isLowerAlnum
               (InternalIdSpec.chars (toLowerCase s)))
      ∧ (∀ s, SummaryTail.name away = JPrim (PStr s) →
           InternalIdSpec.chars
             (SummaryTail.internalId (SummaryTail.away (SummaryTail.teams t)))
           = List.filter Utils.isLowerAlnum
               (InternalIdSpec.chars (toLowerCase s)))
      ∧ (SummaryTail.dateInfo t = None
         ↔ Dates.parseDate dateParse dateStr = Ok (JPrim PNull))
      ∧ (∀ di, SummaryTail.dateInfo t = Some di →
           Dates.parseDate dateParse dateStr = Ok (Worker.parsedDate di)
           ∧ Worker.properInternalId di
             = JPrim (PStr (Utils.datePartOf (Worker.parsedDate di) +:+ "_"
                            +:+ SummaryTail.internalId
                                  (SummaryTail.home (SummaryTail.teams t))
                            +:+ "_vs_"
                            +:+ SummaryTail.internalId
                                  (SummaryTail.away (SummaryTail.teams t))))
           ∧ (Worker.parsedDate di = JDate None →
              Worker.properInternalId di
              = JPrim (PStr ("_" +:+ InternalIdSpec.teamPart toLowerCase
                                       (SummaryTail.name home)
                             +:+ "_vs_"
                             +:+ InternalIdSpec.teamPart toLowerCase
                                   (SummaryTail.name away))))).
Proof.
  intros dateParse toLowerCase dateStr home away league Hd Hh Ha.
  unfold SummaryTail.tail.
  rewrite (tail_normalize _ _ Hh), (tail_normalize _ _ Ha).
  assert (Hc : ∀ v s, v = JPrim (PStr s) →
                 InternalIdSpec.chars (InternalIdSpec.teamPart toLowerCase v)
                 = List.filter Utils.isLowerAlnum
                     (InternalIdSpec.chars (toLowerCase s))).
  { intros v s ->. apply keepLowerAlnum_chars. }
  destruct (parseDate_text dateParse dateStr Hd) as [E|[t E]]; rewrite E;
    cbn [mbind outcome_bind truthy truthyP].
  - eexists. split; [reflexivity|]. cbn [SummaryTail.teams SummaryTail.home
      SummaryTail.away SummaryTail.internalId SummaryTail.dateInfo].
    split; [reflexivity|]. split; [reflexivity|].
    split; [apply Hc|]. split; [apply Hc|]. split; [tauto|]. discriminate.
  - unfold Utils.createInternalId.
    rewrite (normalize_name _ _ Hh), (normalize_name _ _ Ha).
    cbn [mbind outcome_bind].
    eexists. split; [reflexivity|]. cbn [SummaryTail.teams SummaryTail.home
      SummaryTail.away SummaryTail.internalId SummaryTail.dateInfo].
    split; [reflexivity|]. split; [reflexivity|].
    split; [apply Hc|]. split; [apply Hc|].
    split; [split; discriminate|].
    intros di [= <-]. cbn [Worker.parsedDate Worker.properInternalId].
    split; [reflexivity|]. split; [reflexivity|].
    intros [= ->]. reflexivity.
Qed.

(** The theorem at a concrete input. *)
Lemma summary_ids_agree_witness :
  ∃ t,
    SummaryTail.tail (fun _ => None) InternalIdSpec.lowerAscii
      (JPrim (PStr "31.02.2025 15:00"))
      {| SummaryTail.name := JPrim (PStr "FC Barcelona"); SummaryTail.id := JPrim PNull |}
      {| SummaryTail.name := JPrim PNull; SummaryTail.id := JPrim PNull |}
      (JPrim PNull) = Ok t
    ∧ SummaryTail.dateInfo t
      = Some {| Worker.parsedDate := JDate None;
                Worker.properInternalId := JPrim (PStr "_fcbarcelona_vs_") |}.
Proof.
  destruct (summary_ids_agree (fun _ => None) InternalIdSpec.lowerAscii
              (JPrim (PStr "31.02.2025 15:00"))
              {| SummaryTail.name := JPrim (PStr "FC Barcelona");
                 SummaryTail.id := JPrim PNull |}
              {| SummaryTail.name := JPrim PNull; SummaryTail.id := JPrim PNull |}
              (JPrim PNull))
    as (t & Ht & _).
  - right. right. eexists. reflexivity.
  - right. right. eexists. reflexivity.
  - right. left. reflexivity.
  - exists t. split; [exact Ht|].
    vm_compute in Ht. injection Ht as <-. reflexivity.
Defined.

Section ExcludeFacts.

Import Mongo Database StoreSpec InternalIdSpec.

Lemma splitOn_plain c s :
  allChars (fun x => negb (Ascii.eqb x c)) s = true → splitOn c s = [s].
Proof.
  induction s as [|a s IH]; [reflexivity|]. cbn [allChars splitOn].
  intros H. apply andb_true_iff in H as [Ha Hs].
  apply negb_true_iff in Ha. rewrite Ha, (IH Hs). reflexivity.
Qed.

Lemma splitOn_first c a rest :
  allChars (fun x => negb (Ascii.eqb x c)) a = true →
  splitOn c (a +:+ String c rest) = a :: splitOn c rest.
Proof.
  induction a as [|x a IH]; rewrite ?append_nil, ?append_cons; cbn [allChars splitOn].
  - intros _. now rewrite Ascii.eqb_refl.
  - intros H. apply andb_true_iff in H as [Hx Ha].
    apply negb_true_iff in Hx. rewrite Hx, (IH Ha). reflexivity.
Qed.

Lemma excludeCondition_pair country league d :
  noHyphen country = true → noHyphen league = true →
  excludeCondition (country +:+ "-" +:+ league) d
  = fieldEq "country" (PStr country) d && fieldEq "league" (PStr league) d.
Proof.
  intros Hc Hl. unfold excludeCondition.
  change ("-" +:+ league) with (String "-" league).
  rewrite (splitOn_first "-" country league Hc), (splitOn_plain "-" league Hl).
  reflexivity.
Qed.

Lemma excludeCondition_more country league rest d :
  noHyphen country = true → noHyphen league = true →
  excludeCondition (country +:+ "-" +:+ league +:+ "-" +:+ rest) d
  = fieldEq "country" (PStr country) d && fieldEq "league" (PStr league) d.
Proof.
  intros Hc Hl. unfold excludeCondition.
  change ("-" +:+ league +:+ "-" +:+ rest) with (String "-" (league +:+ String "-" rest)).
  rewrite (splitOn_first "-" country _ Hc), (splitOn_first "-" league rest Hl).
  reflexivity.
Qed.

End ExcludeFacts.

(** X5.  A record whose [country] and [league] make up an excluded pair
    ["country-league"] is never returned by [getMatchesForProcessing], when
    neither name contains a hyphen.  [pair.split('-')] keeps the first two
    parts: a pair with a second hyphen excludes the league named before
    that hyphen, and a pair without any hyphen excludes the records of that
    country that have no league. *)
Theorem excluded_pairs_are_skipped :
  (∀ o st pairs country league d,
     Database.excludePairs o = Some pairs →
     In (country +:+ "-" +:+ league) pairs →
     StoreSpec.noHyphen country = true → StoreSpec.noHyphen league = true →
     d !! "country" = Some (JPrim (PStr country)) →
     d !! "league" = Some (JPrim (PStr league)) →
     ¬ In d (Database.getMatchesForProcessing o st))
  ∧ (∀ country league rest d,
       StoreSpec.noHyphen country = true → StoreSpec.noHyphen league = true →
       Database.excludeCondition (country +:+ "-" +:+ league +:+ "-" +:+ rest) d
       = Mongo.fieldEq "country" (PStr country) d
         && Mongo.fieldEq "league" (PStr league) d)
  ∧ (∀ country d,
       StoreSpec.noHyphen country = true →
       Database.excludeCondition country d
       = Mongo.fieldEq "country" (PStr country) d
         && Mongo.fieldEq "league" PUndefined d).
Proof.
  split; [|split].
  - intros o st pairs country league d Hp Hin Hc Hl Hdc Hdl Hd.
    apply selected_In in Hd as [_ Hq].
    unfold Database.processingQuery in Hq. rewrite Hp in Hq.
    apply andb_true_iff in Hq as [_ Hq]. apply negb_true_iff in Hq.
    assert (existsb (fun pair => Database.excludeCondition pair d) pairs = true) as Hex.
    { apply existsb_exists. exists (country +:+ "-" +:+ league). split; [exact Hin|].
      rewrite (excludeCondition_pair country league d Hc Hl).
      rewrite (fieldEq_hit "country" (PStr country) d Hdc).
      now rewrite (fieldEq_hit "league" (PStr league) d Hdl). }
    congruence.
  - exact excludeCondition_more.
  - intros country d Hc. unfold Database.excludeCondition.
    rewrite (splitOn_plain "-" country Hc). reflexivity.
Qed.

(** The theorem at a concrete input. *)
Lemma scraped_rows_end_complete_witness :
  let row : gmap string jsval :=
    {[ "scrapeId" := JPrim (PNum 1); "matchId" := JPrim (PStr "m1") ]} in
  let st' := fst (ImportArtifacts.importFile 2
                    (ImportSpec.datedStore, ImportArtifacts.noTotals)
                    (Worker.scrapeBatch Worker.scrapeOk 1 Worker.oneRow)) in
  (∃ d', Mongo.findOne (Mongo.fieldEq "matchId" (Worker.rowMatchId row))
           (Database.matches st') = Some d'
         ∧ d' !! "processingStatus" = Some (JPrim (PStr "complete")))
  ∧ (∃ x, Mongo.findOne (Mongo.fieldEq "matchId" (Worker.rowMatchId row))
            (Database.match_details st') = Some x
          ∧ x !! "processingStatus" = Some (JPrim (PStr "complete"))).
Proof.
  exact (scraped_rows_end_complete Worker.scrapeOk 1 Worker.oneRow 2
           ImportSpec.datedStore ImportArtifacts.noTotals 0%nat
           {[ "scrapeId" := JPrim (PNum 1); "matchId" := JPrim (PStr "m1") ]}
           Worker.someSummary
           (<["date" := JPrim (PStr "2025-04-25T15:00:00.000Z")]>
              (ImportSpec.pendingMatch "m1" 1 (PNum 0)))
           eq_refl eq_refl eq_refl).
Defined.

(** The theorem at a concrete input. *)
Lemma export_rerun_writes_nothing_witness :
  let first := ImportSpec.exported 1 (PNum 0) (PNum 0) (PNum 0) (PNum 0) (PNum 0) in
  ExportBatches.exportBatches PartitionSpec.alwaysWritable 2
    PartitionSpec.shardsOfTwo (ExportBatches.store (fst first))
  = (StoreSpec.nothingWritten (ExportBatches.store (fst first)), None).
Proof.
  intros first.
  assert (Forall StoreSpec.keyedAsBson
            (ImportSpec.fiveMatches (PNum 0) (PNum 0) (PNum 0) (PNum 0) (PNum 0)))
    as Hk.
  { repeat (apply List.Forall_cons; [intros H; vm_compute in H; discriminate|]).
    apply List.Forall_nil. }
  assert (ExportBatches.exportBatches PartitionSpec.alwaysWritable 1
            PartitionSpec.shardsOfTwo
            (ImportSpec.fiveMatches (PNum 0) (PNum 0) (PNum 0) (PNum 0) (PNum 0))
          = (fst first, None)) as Hrun by (vm_compute; reflexivity).
  exact (proj2 (proj2 (export_rerun_writes_nothing PartitionSpec.alwaysWritable 1
                         PartitionSpec.shardsOfTwo _ (fst first) Hk Hrun))
           PartitionSpec.alwaysWritable 2).
Defined.

Section EndToEndFacts.

Import Mongo Database ExportBatches Worker ImportArtifacts Ops StoreSpec.

Lemma fieldEq_own d :
  keyedAsBson d → fieldEq "matchId" (getField "matchId" d) d = true.
Proof.
  intros Hd. unfold keyedAsBson in Hd. unfold fieldEq, getField.
  destruct (d !! "matchId") as [w|]; cbn [default].
  - apply bool_decide_eq_true. destruct w as [[]| | |]; try reflexivity.
    now destruct Hd.
  - now apply bool_decide_eq_true.
Qed.

Lemma find_exists (q : gmap string jsval → bool) c x :
  In x c → q x = true → ∃ y, List.find q c = Some y.
Proof.
  intros Hin Hq. destruct (List.find q c) as [y|] eqn:E; [eauto|].
  now rewrite (List.find_none _ _ E x Hin) in Hq.
Qed.

(** After a complete export every record that matched is on file in some
    shard and still in the store under its [matchId]. *)
Lemma exported_rows writable now cfg c st d :
  Forall keyedAsBson c →
  exportBatches writable now cfg c = (st, None) →
  In d c → query cfg d = true →
  (∃ shard (i : nat) row,
     In shard (shards st) ∧ shard !! i = Some row
     ∧ rowMatchId row = getField "matchId" d)
  ∧ ∃ d', findOne (fieldEq "matchId" (getField "matchId" d)) (store st) = Some d'.
Proof.
  intros Hk Hrun Hd Hq. unfold exportBatches in Hrun.
  apply (exportLoop_spec writable now cfg c) in Hrun;
    [| split; [reflexivity | intros j x x' Hx Hx'; left; cbn [store] in Hx'; congruence]
     | constructor | constructor].
  destruct Hrun as ((Hlen & Hmarks) & (rem & Hcat & Hdone) & _).
  destruct (Hdone eq_refl) as [Hb ->]. cbn [shards files buf map concat app] in Hcat.
  rewrite Hb, !app_nil_r in Hcat.
  split.
  - assert (In (project ["scrapeId"; "matchId"] d) (concat (shards st))) as Hrow.
    { rewrite Hcat. unfold cursor.
      apply (Permutation_in _ (sortBy_perm _ _ _)).
      apply in_map. unfold find. now apply List.filter_In. }
    apply in_concat in Hrow as (shard & Hshard & Hrow).
    apply list_elem_of_In, list_elem_of_lookup_1 in Hrow as [i Hi].
    exists shard, i, (project ["scrapeId"; "matchId"] d).
    split; [exact Hshard|]. split; [exact Hi | apply project_matchId].
  - apply list_elem_of_In, list_elem_of_lookup_1 in Hd as [j Hj].
    destruct (store st !! j) as [d'|] eqn:E.
    2: { apply lookup_ge_None in E. apply lookup_lt_Some in Hj. lia. }
    rewrite List.Forall_forall in Hk.
    assert (keyedAsBson d) as Hkd.
    { apply Hk. apply list_elem_of_In. eapply list_elem_of_lookup_2. exact Hj. }
    apply (find_exists _ _ d').
    + apply list_elem_of_In. eapply list_elem_of_lookup_2. exact E.
    + destruct (Hmarks j d d' Hj E) as [->|[-> _]]; [now apply fieldEq_own|].
      rewrite (fieldEq_ext "matchId" _ (markQueued now d) d);
        [now apply fieldEq_own | apply markQueued_matchId].
Qed.

End EndToEndFacts.

(** X24.  Export, scrape, import.  After an export that ran to its end,
    when every scrape succeeds and the result file of every shard is
    imported, each record that matched the query of the export is found
    under its [matchId] with [processingStatus] complete, and so are
    details for it. *)
Theorem pipeline_completes_exported_records :
  ∀ writable now cfg (c : list (gmap string jsval)) st scrape now1 now2 details,
    Forall StoreSpec.keyedAsBson c →
    ExportBatches.exportBatches writable now cfg c = (st, None) →
    (∀ i matchId, ∃ summary, scrape i matchId = inl summary) →
    let resultFiles :=
      map (Worker.scrapeBatch scrape now1) (ExportBatches.shards st) in
    let st' :=
      fst (ImportArtifacts.importArtifacts now2
             {| Database.matches := ExportBatches.store st;
                Database.match_details := details |} resultFiles) in
    ∀ d, In d c → ExportBatches.query cfg d = true →
      (∃ d', Mongo.findOne (Mongo.fieldEq "matchId" (Mongo.getField "matchId" d))
               (Database.matches st') = Some d'
             ∧ d' !! "processingStatus" = Some (JPrim (PStr "complete")))
      ∧ (∃ x, Mongo.findOne (Mongo.fieldEq "matchId" (Mongo.getField "matchId" d))
                (Database.match_details st') = Some x
              ∧ x !! "processingStatus" = Some (JPrim (PStr "complete"))).
Proof.
  intros writable now cfg c st scrape now1 now2 details Hk Hrun Hok
    resultFiles st' d Hd Hq.
  destruct (exported_rows writable now cfg c st d Hk Hrun Hd Hq)
    as ((shard & i & row & Hshard & Hi & Hrow) & (d0 & Hd0)).
  destruct (Hok i (Worker.rowMatchId row)) as [summary Hs].
  destruct (scrapeOne_effective (scrape i) now1 row summary Hs) as (iid & He & Hm).
  rewrite <- Hrow, <- Hm in *.
  unfold st', ImportArtifacts.importArtifacts. rewrite importArtifacts_concat.
  assert (∀ r, In r (concat resultFiles) →
               ∃ batch, In r (Worker.scrapeBatch scrape now1 batch)) as Hall.
  { intros r Hr. apply in_concat in Hr as (file & Hfile & Hr).
    unfold resultFiles in Hfile. apply in_map_iff in Hfile as (batch & <- & _).
    eauto. }
  apply (import_completes now2 _ _ _ _ iid d0).
  - apply List.Forall_forall. intros r Hr.
    destruct (Hall r Hr) as [batch Hb]. now apply scrapeBatch_importable in Hb.
  - intros r Hr Hne. destruct (Hall r Hr) as [batch Hb].
    now apply (scrapeBatch_importable scrape now1 batch r Hb).
  - apply in_concat. exists (Worker.scrapeBatch scrape now1 shard).
    split; [unfold resultFiles; now apply in_map|].
    unfold Worker.scrapeBatch.
    apply (scrapeLoop_In scrape now1 shard 0%nat i row Hi).
  - exact He.
  - exact Hd0.
Qed.

(** The theorem at a concrete input. *)
Lemma pipeline_completes_exported_records_witness :
  let c := ImportSpec.fiveMatches (PNum 0) (PNum 0) (PNum 0) (PNum 0) (PNum 0) in
  let st := fst (ImportSpec.exported 1 (PNum 0) (PNum 0) (PNum 0) (PNum 0) (PNum 0)) in
  let st' :=
    fst (ImportArtifacts.importArtifacts 3
           {| Database.matches := ExportBatches.store st;
              Database.match_details := [] |}
           (map (Worker.scrapeBatch Worker.scrapeOk 2) (ExportBatches.shards st))) in
  ∃ d', Mongo.findOne
          (Mongo.fieldEq "matchId"
             (Mongo.getField "matchId" (ImportSpec.pendingMatch "m5" 5 (PNum 0))))
          (Database.matches st') = Some d'
        ∧ d' !! "processingStatus" = Some (JPrim (PStr "complete")).
Proof.
  intros c st st'.
  assert (Forall StoreSpec.keyedAsBson c) as Hk.
  { repeat (apply List.Forall_cons; [intros H; vm_compute in H; discriminate|]).
    apply List.Forall_nil. }
  assert (ExportBatches.exportBatches PartitionSpec.alwaysWritable 1
            PartitionSpec.shardsOfTwo c = (st, None)) as Hrun
    by (vm_compute; reflexivity).
  refine (proj1 (pipeline_completes_exported_records PartitionSpec.alwaysWritable 1
                   PartitionSpec.shardsOfTwo c st Worker.scrapeOk 2 3 [] Hk Hrun
                   (fun i matchId => ex_intro _ Worker.someSummary eq_refl)
                   (ImportSpec.pendingMatch "m5" 5 (PNum 0)) _ _)).
  - right. right. right. right. left. reflexivity.
  - vm_compute. reflexivity.
Defined.

Section LeagueFacts.

Import Mongo Leagues.

Lemma fieldEq_value f v (d : gmap string jsval) :
  fieldEq f v d = bool_decide (default (JPrim PNull) (d !! f) = toBson v).
Proof.
  unfold fieldEq. destruct (d !! f) as [w|]; cbn [default]; [reflexivity|].
  apply bool_decide_ext. split; congruence.
Qed.

Lemma leagueFilter_key league d :
  leagueFilter league d = true
  ↔ (default (JPrim PNull) (d !! "country"), default (JPrim PNull) (d !! "league"))
    = keyOf league.
Proof.
  unfold leagueFilter, keyOf. rewrite !fieldEq_value, andb_true_iff.
  rewrite !bool_decide_eq_true. split; [intros [-> ->]; reflexivity|].
  intros [= -> ->]. auto.
Qed.

Lemma leagueFilter_same l1 l2 d :
  keyOf l1 = keyOf l2 → leagueFilter l1 d = leagueFilter l2 d.
Proof.
  intros H. destruct (leagueFilter l2 d) eqn:E.
  - apply leagueFilter_key. apply leagueFilter_key in E. congruence.
  - apply not_true_is_false. intros E1. apply leagueFilter_key in E1.
    rewrite H in E1. apply leagueFilter_key in E1. congruence.
Qed.

Lemma league_set_key now league d :
  leagueFilter league d = true →
  leagueFilter league (set (<["updatedAt" := JDate (Some now)]> league) d) = true.
Proof.
  intros H. apply andb_true_iff in H as [H1 H2].
  unfold leagueFilter. apply andb_true_iff.
  split; apply keyed_update; try assumption.
  - rewrite lookup_insert_ne by discriminate. apply own_key.
  - rewrite lookup_insert_ne by discriminate. apply own_key.
Qed.

Lemma league_base_key league :
  leagueFilter league
    {[ "country" := toBson (getField "country" league);
       "league" := toBson (getField "league" league) ]} = true.
Proof.
  unfold leagueFilter. apply andb_true_iff. split; apply fieldEq_hit.
  - apply lookup_insert_eq.
  - rewrite lookup_insert_ne by discriminate. apply lookup_singleton_eq.
Qed.

(** One operation, seen from the league [l]. *)
Lemma upsertLeague_own c res l now :
  let acc := upsertLeague (c, res) (l, now) in
  (∃ d, List.find (leagueFilter l) acc.1 = Some d
        ∧ ∀ f v, l !! f = Some v → f ≠ "updatedAt" → d !! f = Some (toBson v))
  ∧ upsertedCount acc.2 + matchedCount acc.2
    = upsertedCount res + matchedCount res + 1.
Proof.
  cbv zeta. unfold upsertLeague. cbn [fst snd].
  set (u := set (<["updatedAt" := JDate (Some now)]> l)).
  assert (∀ d f v, l !! f = Some v → f ≠ "updatedAt" → u d !! f = Some (toBson v)) as Hu.
  { intros d f v Hf Hne. unfold u. rewrite set_lookup.
    rewrite lookup_insert_ne by congruence. now rewrite Hf. }
  destruct (updateOne_cases (leagueFilter l) u c)
    as [(pre & d0 & post & Ec & Hpre & Hd0 & E)|[Hall E]]; rewrite E;
    cbv beta iota zeta; cbn [fst snd upsertedCount matchedCount].
  - split; [|lia]. exists (u d0). split; [|apply Hu].
    apply find_first; [exact Hpre | now apply league_set_key].
  - split; [|lia].
    exists (u {[ "country" := toBson (getField "country" l);
                 "league" := toBson (getField "league" l) ]}).
    split; [|apply Hu].
    match goal with |- List.find _ (c ++ [?x]) = _ =>
      change (c ++ [x]) with (c ++ x :: []) end.
    apply find_first; [exact Hall|]. apply league_set_key, league_base_key.
Qed.

Lemma find_snoc_miss (q : gmap string jsval → bool) c x :
  q x = false → List.find q (c ++ [x]) = List.find q c.
Proof.
  intros Hx. induction c as [|y c IH]; cbn [app List.find].
  - now rewrite Hx.
  - now rewrite IH.
Qed.

(** An operation under another key does not touch the league [l']. *)
Lemma upsertLeague_other c res l now l' :
  keyOf l ≠ keyOf l' →
  List.find (leagueFilter l') (upsertLeague (c, res) (l, now)).1
  = List.find (leagueFilter l') c.
Proof.
  intros Hne. unfold upsertLeague. cbn [fst snd].
  set (u := set (<["updatedAt" := JDate (Some now)]> l)).
  assert (∀ d, leagueFilter l d = true → leagueFilter l' d = false) as Hother.
  { intros d Hd. apply not_true_is_false. intros Hd'.
    apply leagueFilter_key in Hd, Hd'. congruence. }
  destruct (updateOne_cases (leagueFilter l) u c)
    as [(pre & d0 & post & Ec & Hpre & Hd0 & E)|[Hall E]]; rewrite E;
    cbv beta iota zeta; cbn [fst snd].
  - rewrite Ec. apply find_skip.
    + apply Hother. now apply league_set_key.
    + now apply Hother.
  - apply find_snoc_miss. apply Hother. apply league_set_key, league_base_key.
Qed.

Lemma upsertLeagues_others ops l' : ∀ acc,
  Forall (fun op => keyOf op.1 ≠ keyOf l') ops →
  List.find (leagueFilter l') (fold_left upsertLeague ops acc).1
  = List.find (leagueFilter l') acc.1.
Proof.
  induction ops as [|[l now] ops IH]; intros [c res] H; [reflexivity|].
  inversion H as [|? ? Hl Hops]; subst. cbn [fold_left].
  destruct (upsertLeague (c, res) (l, now)) as [c1 res1] eqn:E.
  rewrite (IH (c1, res1) Hops). cbn [fst].
  pose proof (upsertLeague_other c res l now l' Hl) as H1.
  rewrite E in H1. exact H1.
Qed.

Lemma upsertLeagues_count ops : ∀ acc,
  upsertedCount (fold_left upsertLeague ops acc).2
  + matchedCount (fold_left upsertLeague ops acc).2
  = upsertedCount acc.2 + matchedCount acc.2 + Z.of_nat (length ops).
Proof.
  induction ops as [|[l now] ops IH]; intros [c res]; cbn [fold_left length].
  - cbn [snd]. lia.
  - rewrite IH. destruct (upsertLeague_own c res l now) as [_ H].
    cbv zeta in H. rewrite H. cbn [snd]. lia.
Qed.

Lemma stamp_leagues clock leagues : ∀ i, map fst (stamp clock i leagues) = leagues.
Proof.
  induction leagues as [|l rest IH]; intros i; cbn [stamp map fst]; [reflexivity|].
  now rewrite IH.
Qed.

Lemma byCountryLeague_total d1 d2 :
  byCountryLeague d1 d2 = true ∨ byCountryLeague d2 d1 = true.
Proof.
  unfold byCountryLeague.
  destruct (valueLeb (d1 !! "country") (d2 !! "country")) eqn:E1;
    destruct (valueLeb (d2 !! "country") (d1 !! "country")) eqn:E2;
    cbn [andb]; auto.
  - apply valueLeb_total.
  - destruct (valueLeb_total (d1 !! "country") (d2 !! "country")); congruence.
Qed.

End LeagueFacts.

(** X28.  [saveLeagues] returns 0 and writes nothing for an empty array
    or an argument that is no array.  [getLeagues] returns the leagues
    that satisfy the filter, ordered by country and then league.  After
    [saveLeagues] for leagues with pairwise different (country, league),
    in whatever order the server takes the unordered operations, every
    league of the array is listed by [getLeagues] with all its fields, and
    the counts of inserted and matched documents add up to the length of
    the array. *)
Theorem leagues_saved_are_listed :
  (∀ schedule clock c,
     Leagues.saveLeagues schedule clock None c = (c, inl 0)
     ∧ Leagues.saveLeagues schedule clock (Some []) c = (c, inl 0))
  ∧ (∀ filter c,
       Permutation (Leagues.getLeagues filter c) (Mongo.find filter c)
       ∧ Mongo.ascending Leagues.byCountryLeague (Leagues.getLeagues filter c))
  ∧ (∀ schedule clock leagues c,
       (∀ ops, Permutation (schedule ops) ops) →
       List.NoDup (map Leagues.keyOf leagues) →
       leagues ≠ [] →
       ∃ c' res,
         Leagues.saveLeagues schedule clock (Some leagues) c = (c', inr res)
         ∧ Leagues.upsertedCount res + Leagues.matchedCount res
           = Z.of_nat (length leagues)
         ∧ ∀ league, In league leagues →
             ∃ d, In d (Leagues.getLeagues (fun _ => true) c')
                  ∧ Leagues.leagueFilter league d = true
                  ∧ ∀ f v, league !! f = Some v → f ≠ "updatedAt" →
                           d !! f = Some (Mongo.toBson v)).
Proof.
  split; [|split].
  - intros. split; reflexivity.
  - intros filter c. unfold Leagues.getLeagues. split.
    + symmetry. apply sortBy_perm.
    + apply sortBy_sorted. exact byCountryLeague_total.
  - intros schedule clock leagues c Hperm Hnd Hne.
    destruct leagues as [|l0 rest] eqn:El; [contradiction|]. rewrite <- El in *.
    set (ops := Leagues.stamp clock 0 leagues).
    destruct (fold_left Leagues.upsertLeague (schedule ops)
                (c, {| Leagues.upsertedCount := 0; Leagues.matchedCount := 0 |}))
      as [c' res] eqn:Efold.
    exists c', res. split.
    { unfold Leagues.saveLeagues. rewrite El, <- El. cbv zeta. fold ops.
      now rewrite Efold. }
    split.
    { pose proof (upsertLeagues_count (schedule ops)
                    (c, {| Leagues.upsertedCount := 0; Leagues.matchedCount := 0 |})) as H.
      rewrite Efold in H. cbn [snd Leagues.upsertedCount Leagues.matchedCount] in H.
      rewrite H. rewrite (Permutation_length (Hperm ops)).
      unfold ops. rewrite <- (length_map fst), stamp_leagues. lia. }
    intros league Hin.
    assert (∃ now, In (league, now) (schedule ops)) as [now Hop].
    { assert (In league (map fst ops)) as H
        by (unfold ops; now rewrite stamp_leagues).
      apply in_map_iff in H as ([l now] & Hl & H). cbn [fst] in Hl. subst l.
      exists now. apply (Permutation_in _ (Permutation_sym (Hperm ops))). exact H. }
    apply in_split in Hop as (pre & post & Esched).
    assert (List.NoDup (map (fun op : gmap string jsval * Z => Leagues.keyOf op.1)
                          (schedule ops))) as Hnd'.
    { apply (Permutation_NoDup (l := map (fun op : gmap string jsval * Z =>
                                            Leagues.keyOf op.1) ops)).
      - apply Permutation_map. symmetry. apply Hperm.
      - rewrite <- (map_map fst Leagues.keyOf). unfold ops.
        now rewrite stamp_leagues. }
    rewrite Esched, map_app in Hnd'. cbn [map fst] in Hnd'.
    assert (Forall (fun op : gmap string jsval * Z =>
                      Leagues.keyOf op.1 ≠ Leagues.keyOf league) post) as Hpost.
    { apply List.NoDup_remove_2 in Hnd'. apply List.Forall_forall. intros op Ho E.
      apply Hnd'. apply in_or_app. right. rewrite <- E.
      exact (in_map (fun o : gmap string jsval * Z => Leagues.keyOf o.1) post op Ho). }
    rewrite Esched, fold_left_app in Efold. cbn [fold_left] in Efold.
    destruct (fold_left Leagues.upsertLeague pre
                (c, {| Leagues.upsertedCount := 0; Leagues.matchedCount := 0 |}))
      as [c1 res1].
    destruct (upsertLeague_own c1 res1 league now) as [(d & Hd & Hfields) _].
    cbv zeta in Hd.
    pose proof (upsertLeagues_others post league
                  (Leagues.upsertLeague (c1, res1) (league, now)) Hpost) as Hkeep.
    rewrite Efold in Hkeep. cbn [fst] in Hkeep. rewrite Hd in Hkeep.
    apply List.find_some in Hkeep as [Hin' Hq].
    exists d. split; [|split; [exact Hq | exact Hfields]].
    unfold Leagues.getLeagues.
    apply (Permutation_in _ (sortBy_perm _ _ _)).
    unfold Mongo.find. now apply List.filter_In.
Qed.
